(** * The packing-slip parser of mtg_packing_slip_organizer.py

    A shallow embedding of the text engine of the program: the name
    normalizer [add_spaces_to_card_name], the group/name splitter
    [extract_set_and_card], the line parser [parse_card_line] and the
    continuation merger [merge_continuation_lines], with the regular
    expressions they use; and, around them, the reading of a slip
    [parse_packing_slip], the name for the lookup [get_search_name], the
    reading of the data of the card service ([get_card_color],
    [get_card_image_url], [fetch_scryfall_sets], [get_scryfall_set_code]) and
    the order and the numbers of the page of [generate_html].  The requests
    to the service, the reading of the PDF file and the markup of the page
    are outside the model: the functions start from the text of the slip
    and from the decoded responses.

    Text is a list of 8-bit characters.  The character classes follow Python
    on the 7-bit range, where the slips live; the upper half of the byte range
    carries no class (no case, not a digit, not white space).
    Python's [float(token)] is kept as the exact decimal value of the token,
    a rational number; the rounding to a binary float is not modelled. *)

From Stdlib Require Import String Ascii.
From Stdlib Require Import List Bool Arith Lia NArith ZArith QArith Permutation.
Import ListNotations.

Local Close Scope Q_scope.
Local Open Scope char_scope.
Local Open Scope nat_scope.
Local Open Scope list_scope.

(** ** Text *)

Definition str := list ascii.

Definition lit (s : string) : str := list_ascii_of_string s.
Coercion lit : string >-> str.

Definition code (c : ascii) : nat := nat_of_ascii c.

Definition in_range (lo hi c : ascii) : bool :=
  ((code lo <=? code c) && (code c <=? code hi))%nat.

(** [str.isupper], [str.islower] on one character. *)
Definition isupper (c : ascii) : bool := in_range "A" "Z" c.
Definition islower (c : ascii) : bool := in_range "a" "z" c.

(** The digits of [\d]. *)
Definition isdigit (c : ascii) : bool := in_range "0" "9" c.

(** White space of [str.strip] and of [\s]: tab, line feed, vertical tab,
    form feed, carriage return, the four separators 28..31 and the blank. *)
Definition isspace (c : ascii) : bool :=
  let n := code c in
  (((9 <=? n) && (n <=? 13)) || ((28 <=? n) && (n <=? 32)))%nat.

(** Word characters of [\b]. *)
Definition isword (c : ascii) : bool :=
  isupper c || islower c || isdigit c || Ascii.eqb c "_".

Definition lower (c : ascii) : ascii :=
  if isupper c then ascii_of_nat (code c + 32) else c.

Definition upper (c : ascii) : ascii :=
  if islower c then ascii_of_nat (code c - 32) else c.

Definition newline : ascii := ascii_of_nat 10.

Fixpoint str_eqb (a b : str) : bool :=
  match a, b with
  | [], [] => true
  | x :: a', y :: b' => Ascii.eqb x y && str_eqb a' b'
  | _, _ => false
  end.

(** [s.startswith(p)] *)
Fixpoint startswith (p s : str) : bool :=
  match p, s with
  | [], _ => true
  | x :: p', y :: s' => Ascii.eqb x y && startswith p' s'
  | _ :: _, [] => false
  end.

(** [w in s] for a non-empty [w]. *)
Fixpoint contains (w s : str) : bool :=
  startswith w s ||
  match s with
  | [] => false
  | _ :: s' => contains w s'
  end.

(** [s.lstrip()], [s.rstrip()], [s.strip()] *)
Fixpoint lstrip (s : str) : str :=
  match s with
  | c :: s' => if isspace c then lstrip s' else s
  | [] => []
  end.

Definition rstrip (s : str) : str := rev (lstrip (rev s)).

Definition strip (s : str) : str := rstrip (lstrip s).

(** [s.rstrip('-')] *)
Fixpoint lstrip_chr (x : ascii) (s : str) : str :=
  match s with
  | c :: s' => if Ascii.eqb c x then lstrip_chr x s' else s
  | [] => []
  end.

Definition rstrip_chr (x : ascii) (s : str) : str := rev (lstrip_chr x (rev s)).

(** [s[i:j]] for [0 <= i <= j]. *)
Definition slice (i j : nat) (s : str) : str := firstn (j - i) (skipn i s).

(** [s.find(c)] for one character; [None] is Python's [-1]. *)
Fixpoint find_chr (x : ascii) (s : str) : option nat :=
  match s with
  | [] => None
  | c :: s' => if Ascii.eqb c x then Some 0
               else option_map S (find_chr x s')
  end.

(** [s.find(w)] *)
Fixpoint find_str (w s : str) : option nat :=
  if startswith w s then Some 0
  else match s with
       | [] => None
       | _ :: s' => option_map S (find_str w s')
       end.

(** [s.split('-')]: the list of the parts between the separators, never
    empty. *)
Fixpoint split_chr (x : ascii) (s : str) : list str :=
  match s with
  | [] => [[]]
  | c :: s' =>
      if Ascii.eqb c x then [] :: split_chr x s'
      else match split_chr x s' with
           | p :: ps => (c :: p) :: ps
           | [] => [[c]]
           end
  end.

(** ['-'.join(parts)] *)
Fixpoint join_chr (x : ascii) (parts : list str) : str :=
  match parts with
  | [] => []
  | [p] => p
  | p :: ps => p ++ x :: join_chr x ps
  end.

(** [s.replace(old, new)] for a non-empty [old]: the occurrences are
    replaced from the left, without overlap. *)
Fixpoint replace_from (old new : str) (skip : nat) (s : str) : str :=
  match s with
  | [] => []
  | c :: s' =>
      match skip with
      | S k => replace_from old new k s'
      | 0 => if startswith old s
             then new ++ replace_from old new (length old - 1) s'
             else c :: replace_from old new 0 s'
      end
  end.

Definition replace (old new s : str) : str := replace_from old new 0 s.

(** ** Regular expressions

    The patterns of the program are written in an abstract syntax of
    Python's [re] language and run by a backtracking matcher that tries the
    alternatives in Python's order: the left branch of [|] first, the longest
    repetition first. *)

Inductive citem : Type :=
| CLit (c : ascii)            (* a member written as itself *)
| CRange (lo hi : ascii)      (* lo-hi *)
| CSpace                      (* \s *)
| CDigit.                     (* \d *)

Inductive regex : Type :=
| Eps                          (* the empty pattern *)
| Chr (c : ascii)              (* a literal character *)
| Dot                          (* .  any character but the line feed *)
| Cls (neg : bool) (items : list citem)   (* [...] and [^...], \s, \d *)
| Cat (r1 r2 : regex)
| Alt (r1 r2 : regex)          (* r1|r2 *)
| Star (r : regex)             (* r*, greedy *)
| Grp (r : regex)              (* (r), the capturing group 1 *)
| Bol                          (* ^ *)
| Eol                          (* $ *)
| Wordb.                       (* \b *)

Definition Plus (r : regex) : regex := Cat r (Star r).      (* r+ *)
Definition Opt (r : regex) : regex := Alt r Eps.            (* r? *)

Fixpoint Lit (s : str) : regex :=
  match s with
  | [] => Eps
  | [c] => Chr c
  | c :: s' => Cat (Chr c) (Lit s')
  end.

Fixpoint Alts (rs : list regex) : regex :=
  match rs with
  | [] => Eps
  | [r] => r
  | r :: rs' => Alt r (Alts rs')
  end.

Definition digit : regex := Cls false [CDigit].
Definition space : regex := Cls false [CSpace].

(** The flag [re.IGNORECASE] is the boolean [ic]. *)
Definition chr_match (ic : bool) (c x : ascii) : bool :=
  if ic then Ascii.eqb (lower x) (lower c) else Ascii.eqb x c.

Definition item_match (ic : bool) (it : citem) (x : ascii) : bool :=
  match it with
  | CLit c => chr_match ic c x
  | CRange lo hi =>
      in_range lo hi x || (ic && (in_range lo hi (lower x) || in_range lo hi (upper x)))
  | CSpace => isspace x
  | CDigit => isdigit x
  end.

Definition cls_match (ic neg : bool) (items : list citem) (x : ascii) : bool :=
  xorb neg (existsb (fun it => item_match ic it x) items).

(** A cursor in the subject: the text before it, reversed, and the text
    after it. *)
Definition cursor := (str * str)%type.

Definition cpos (s : cursor) : nat := length (fst s).

(** The span of group 1, when it took part in the match. *)
Definition capture := option (nat * nat).

Definition at_wordb (s : cursor) : bool :=
  let before := match fst s with c :: _ => isword c | [] => false end in
  let after := match snd s with c :: _ => isword c | [] => false end in
  xorb before after.

Definition at_eol (s : cursor) : bool :=
  match snd s with
  | [] => true
  | [c] => Ascii.eqb c newline
  | _ => false
  end.

Section Matcher.

Variable A : Type.
Variable ic : bool.

Definition step_if (p : ascii -> bool) (s : cursor) (g : capture)
    (k : cursor -> capture -> option A) : option A :=
  match snd s with
  | x :: rest => if p x then k (x :: fst s, rest) g else None
  | [] => None
  end.

(** The greedy repetition of [body]: one more round first, and the rest
    of the pattern, [k], when that fails.  A round that consumes nothing is
    refused, and [n] bounds the number of rounds: more rounds than
    characters are never needed. *)
Fixpoint star_loop
    (body : cursor -> capture -> (cursor -> capture -> option A) -> option A)
    (k : cursor -> capture -> option A)
    (n : nat) (s : cursor) (g : capture) {struct n} : option A :=
  match n with
  | 0 => k s g
  | S n' =>
      match body s g
              (fun s1 g1 =>
                 if length (snd s1) <? length (snd s)
                 then star_loop body k n' s1 g1 else None) with
      | Some x => Some x
      | None => k s g
      end
  end.

Fixpoint rx (r : regex) (s : cursor) (g : capture)
    (k : cursor -> capture -> option A) {struct r} : option A :=
  match r with
  | Eps => k s g
  | Chr c => step_if (chr_match ic c) s g k
  | Dot => step_if (fun x => negb (Ascii.eqb x newline)) s g k
  | Cls neg items => step_if (cls_match ic neg items) s g k
  | Cat r1 r2 => rx r1 s g (fun s1 g1 => rx r2 s1 g1 k)
  | Alt r1 r2 =>
      match rx r1 s g k with
      | Some x => Some x
      | None => rx r2 s g k
      end
  | Star r1 => star_loop (rx r1) k (S (length (snd s))) s g
  | Grp r1 => rx r1 s g (fun s1 _ => k s1 (Some (cpos s, cpos s1)))
  | Bol => match fst s with [] => k s g | _ :: _ => None end
  | Eol => if at_eol s then k s g else None
  | Wordb => if at_wordb s then k s g else None
  end.

End Matcher.

Arguments rx {A} ic r s g k.
Arguments step_if {A} p s g k.
Arguments star_loop {A} body k n s g.

(** A match object: [m.start()], [m.end()] and the span of group 1. *)
Record rmatch : Type := mkMatch {
  m_start : nat;
  m_end : nat;
  m_g1 : capture
}.

Definition match_at (ic : bool) (r : regex) (s : cursor) : option rmatch :=
  rx ic r s None (fun s1 g => Some (mkMatch (cpos s) (cpos s1) g)).

(** [m.group(0)] and [m.group(1)] on the subject [subj]. *)
Definition group0 (subj : str) (m : rmatch) : str :=
  slice (m_start m) (m_end m) subj.

Definition group1 (subj : str) (m : rmatch) : str :=
  match m_g1 m with
  | Some (i, j) => slice i j subj
  | None => []
  end.

(** [re.match(r, s)] *)
Definition re_match_ic (ic : bool) (r : regex) (s : str) : option rmatch :=
  match_at ic r ([], s).

(** [re.search(r, s)]: the first start, from the left, where [r] matches. *)
Fixpoint search_from (ic : bool) (r : regex) (b s : str) : option rmatch :=
  match match_at ic r (b, s) with
  | Some m => Some m
  | None =>
      match s with
      | [] => None
      | c :: s' => search_from ic r (c :: b) s'
      end
  end.

Definition re_search_ic (ic : bool) (r : regex) (s : str) : option rmatch :=
  search_from ic r [] s.

Definition re_match := re_match_ic false.
Definition re_search := re_search_ic false.

(** A replacement template: literal text and [\1]. *)
Inductive titem : Type :=
| TLit (s : str)
| TG1.

Definition expand (t : list titem) (subj : str) (m : rmatch) : str :=
  concat (map (fun it => match it with
                         | TLit s => s
                         | TG1 => group1 subj m
                         end) t).

(** The scan shared by [re.sub] and [re.findall]: the matches from the left,
    without overlap.  [skip] counts the characters still covered by the
    last match.  An empty match leaves its result and moves one character
    on; no pattern of the program matches the empty text. *)
Fixpoint scan (ic : bool) (r : regex) (b s : str) (skip : nat)
    : list (str + rmatch) :=
  match skip with
  | S k =>
      match s with
      | [] => []
      | c :: s' => scan ic r (c :: b) s' k
      end
  | 0 =>
      match match_at ic r (b, s) with
      | Some m =>
          inr m ::
          match s with
          | [] => []
          | c :: s' =>
              if (m_end m =? m_start m)%nat
              then inl [c] :: scan ic r (c :: b) s' 0
              else scan ic r (c :: b) s' (m_end m - m_start m - 1)
          end
      | None =>
          match s with
          | [] => []
          | c :: s' => inl [c] :: scan ic r (c :: b) s' 0
          end
      end
  end.

(** [re.sub(r, template, s, flags)] *)
Definition re_sub_ic (ic : bool) (r : regex) (t : list titem) (s : str) : str :=
  concat (map (fun p => match p with
                        | inl u => u
                        | inr m => expand t s m
                        end) (scan ic r [] s 0)).

Definition re_sub := re_sub_ic false.

(** [re.findall(r, s)] for a pattern with one group: the texts of group 1. *)
Definition re_findall (r : regex) (s : str) : list str :=
  concat (map (fun p => match p with
                        | inl _ => []
                        | inr m => [group1 s m]
                        end) (scan false r [] s 0)).

(** ** The name normalizer: [add_spaces_to_card_name] *)

(** The test of the first loop at index [i]: [p1] is [name[i-1]] and [p2]
    is [name[i-2]], where they exist. *)
Definition camel_gap (p2 p1 : option ascii) (c : ascii) : bool :=
  match p1 with
  | None => false
  | Some prev =>
      islower prev && isupper c && negb (Ascii.eqb prev "'") &&
      match p2 with
      | None => true
      | Some q => negb (Ascii.eqb q "-")
      end
  end.

Fixpoint camel_from (p2 p1 : option ascii) (s : str) : str :=
  match s with
  | [] => []
  | c :: s' =>
      (if camel_gap p2 p1 c then [" "] else []) ++ c :: camel_from p1 (Some c) s'
  end.

Definition camel (name : str) : str := camel_from None None name.

(** [,([^\s])] *)
Definition re_comma : regex := Cat (Chr ",") (Grp (Cls true [CSpace])).

(** [:([A-Za-z])] *)
Definition re_colon : regex :=
  Cat (Chr ":") (Grp (Cls false [CRange "A" "Z"; CRange "a" "z"])).

Definition word_endings : list string :=
  ["ion"; "ter"; "ler"; "ant"; "ent"; "int"; "ard"; "ack"; "ock"; "uck";
   "ime"; "ame"; "ome"; "ple"; "tle"; "nce"; "ise"; "ose"; "use"; "ine";
   "one"; "ure"; "ire"; "are"; "ore"; "ide"; "ade"; "ude"; "ive"; "ave";
   "ove"; "all"; "ell"; "ill"; "ull"; "ath"; "eth"; "ith"; "oth"; "uth";
   "lic"; "ric"; "sic"; "tic"; "nic"; "pic"]%string.

(** [(ion|ter|...|pic)of] *)
Definition re_ending_of : regex :=
  Cat (Grp (Alts (map (fun w : string => Lit w) word_endings))) (Lit "of"%string).

(** [([^o])sof] *)
Definition re_sof : regex := Cat (Grp (Cls true [CLit "o"])) (Lit "sof"%string).

(** [(ack|ome|urn)to] *)
Definition re_ending_to : regex :=
  Cat (Grp (Alts [Lit "ack"%string; Lit "ome"%string; Lit "urn"%string]))
      (Lit "to"%string).

(** [\bW ?the\b] for a word [W] *)
Definition re_w_the (w : string) : regex :=
  Cat Wordb (Cat (Lit w) (Cat (Opt (Chr " ")) (Cat (Lit "the"%string) Wordb))).

(** [\bthe([A-Z])] *)
Definition re_the_cap : regex :=
  Cat Wordb (Cat (Lit "the"%string) (Grp (Cls false [CRange "A" "Z"]))).

(** [\s+] *)
Definition re_spaces : regex := Plus space.

Definition glue_words : list string :=
  ["of"; "to"; "at"; "in"; "for"; "from"; "on"; "and"]%string.

(** The passes in the order of the source; each works on the result of the
    one before. *)
Definition passes : list (str -> str) :=
  [ camel;
    re_sub re_comma [TLit ", "%string; TG1];
    re_sub re_colon [TLit ": "%string; TG1];
    re_sub_ic true re_ending_of [TG1; TLit " of"%string];
    re_sub_ic true re_sof [TG1; TLit "s of"%string];
    re_sub_ic true re_ending_to [TG1; TLit " to"%string] ]
  ++ map (fun w : string => re_sub_ic true (re_w_the w) [TLit (w ++ " the")%string])
         glue_words
  ++ [ re_sub re_the_cap [TLit "the "%string; TG1];
       re_sub re_spaces [TLit " "%string];
       strip ].

Definition run_passes (ps : list (str -> str)) (name : str) : str :=
  fold_left (fun n p => p n) ps name.

Definition add_spaces_to_card_name (name : str) : str :=
  match name with
  | [] => name
  | _ :: _ => run_passes passes name
  end.

(** ** The group/name splitter: [extract_set_and_card] *)

Definition KNOWN_SET_PREFIXES : list string :=
  ["LorwynEclipsed";
   "Avatar:TheLastAirbender:Eternal-Legal";
   "Avatar:TheLastAirbender";
   "MarvelUniverseEternal-Legal";
   "Marvel'sSpider-Man";
   "EdgeofEternities";
   "Commander:EdgeofEternities";
   "FINALFANTASY";
   "Commander:FINALFANTASY";
   "Tarkir:Dragonstorm";
   "Commander:Tarkir:Dragonstorm";
   "Aetherdrift";
   "Phyrexia:AllWillBeOne";
   "WaroftheSpark";
   "Foundations";
   "CommanderLegends:BattleforBaldur'sGate";
   "Commander:OutlawsofThunderJunction";
   "Commander:StreetsofNewCapenna";
   "Commander2016";
   "ModernHorizons3";
   "RavnicaRemastered";
   "TimeSpiral:Remastered";
   "TheListReprints";
   "MysteryBooster2";
   "SecretLairDropSeries";
   "SecretLairCountdownKit";
   "Urza'sLegacy";
   "FromtheVault:Lore";
   "PromoPack:OutlawsofThunderJunction";
   "PromoPack:MarchoftheMachine";
   "PromoPack:Kamigawa:NeonDynasty";
   "CommanderMasters";
   "Innistrad:MidnightHunt";
   "OutlawsofThunderJunction";
   "MurdersatKarlovManor"]%string.

(** [sorted(l, key=len, reverse=True)]: longest first, and texts of one
    length in the order of [l] (Python's sort is stable, also reversed). *)
Fixpoint insert_by_len (x : str) (l : list str) : list str :=
  match l with
  | [] => [x]
  | y :: l' => if length y <=? length x then x :: l else y :: insert_by_len x l'
  end.

Definition sorted_by_len_desc (l : list str) : list str :=
  fold_right insert_by_len [] l.

Definition sorted_prefixes : list str :=
  sorted_by_len_desc (map lit KNOWN_SET_PREFIXES).

(** The loop over the sorted prefixes. *)
Fixpoint match_prefix (prefixes : list str) (description : str)
    : option (str * str) :=
  match prefixes with
  | [] => None
  | prefix :: rest =>
      if startswith (prefix ++ ["-"]) description
      then Some (prefix, skipn (length prefix + 1) description)
      else match_prefix rest description
  end.

(** [-#\d+] *)
Definition re_anchor : regex := Cat (Lit "-#"%string) (Plus digit).

Definition set_words : list string :=
  ["Commander"; "Eternal"; "Legal"; "Remastered"; "Promo"]%string.

(** The test of the walk on part [j]: it looks like the start of a card
    name. *)
Definition starts_card (j : nat) (part : str) : bool :=
  (0 <? j) &&
  match part with
  | c :: _ => isupper c
  | [] => false
  end &&
  negb (existsb (fun x : string => startswith x part) set_words).

(** The walk over [enumerate(parts)] from index [j], with the lists and the
    flag of the source as its state. *)
Fixpoint walk (j : nat) (parts set_parts card_parts : list str)
    (found_card : bool) : list str * list str :=
  match parts with
  | [] => (set_parts, card_parts)
  | part :: rest =>
      if negb found_card then
        if starts_card j part
        then walk (S j) rest set_parts (card_parts ++ [part]) true
        else walk (S j) rest (set_parts ++ [part]) card_parts false
      else walk (S j) rest set_parts (card_parts ++ [part]) true
  end.

(** The fallback on the collector-number anchor; [None] when it does not
    return. *)
Definition anchor_split (description : str) : option (str * str) :=
  match re_search re_anchor description with
  | Some number_match =>
      let before_number := firstn (m_start number_match) description in
      let parts := split_chr "-" before_number in
      if 2 <=? length parts then
        match walk 0 parts [] [] false with
        | ((_ :: _) as set_parts, (_ :: _) as card_parts) =>
            Some (join_chr "-" set_parts,
                  join_chr "-" card_parts
                  ++ skipn (m_start number_match) description)
        | _ => None
        end
      else None
  | None => None
  end.

(** The last resort: the first hyphen, when it is not at index 0. *)
Definition naive_split (description : str) : str * str :=
  match find_chr "-" description with
  | Some (S k) => (firstn (S k) description, skipn (S k + 1) description)
  | _ => (lit "Unknown", description)
  end.

Definition extract_set_and_card (description : str) : str * str :=
  match match_prefix sorted_prefixes description with
  | Some r => r
  | None =>
      match anchor_split description with
      | Some r => r
      | None => naive_split description
      end
  end.

(** ** The line parser: [parse_card_line] *)

Record Card : Type := mkCard {
  quantity : N;
  set_name : str;
  card_name : str;
  collector_number : str;
  rarity : str;
  condition : str;
  is_foil : bool;
  price : Q;
  total_price : Q;
  variant : option str;
  language : option str;
  color : str;
  image_url : option str
}.

(** [int(digits)] *)
Definition digit_value (c : ascii) : N := N.of_nat (code c - code "0").

Definition int_of_digits (s : str) : N :=
  fold_left (fun n c => (10 * n + digit_value c)%N) s 0%N.

(** [float(token)] for a token of the shape [\d+\.?\d*]: the decimal value
    of its digits, exactly. *)
Definition float_of_token (t : str) : Q :=
  let decimals :=
    match find_chr "." t with
    | Some i => length t - i - 1
    | None => 0
    end in
  Qred (Qmake (Z.of_N (int_of_digits (filter isdigit t)))
              (Z.to_pos (10 ^ Z.of_nat decimals))).

(** [^\d+\s+Magic-] *)
Definition re_entry : regex :=
  Cat Bol (Cat (Plus digit) (Cat (Plus space) (Lit "Magic-"%string))).

(** [^(\d+)\s+] *)
Definition re_quantity : regex := Cat Bol (Cat (Grp (Plus digit)) (Plus space)).

(** [\$( \d+\.?\d* )], written here with blanks around the group's body *)
Definition re_price : regex :=
  Cat (Chr "$") (Grp (Cat (Plus digit) (Cat (Opt (Chr ".")) (Star digit)))).

(** [\$\d+\.?\d*]; the same pattern without its group. *)
Definition re_price_plain : regex :=
  Cat (Chr "$") (Cat (Plus digit) (Cat (Opt (Chr ".")) (Star digit))).

(** [Magic-(.+)] *)
Definition re_magic : regex := Cat (Lit "Magic-"%string) (Grp (Plus Dot)).

(** [#(\d+)] *)
Definition re_number : regex := Cat (Chr "#") (Grp (Plus digit)).

Definition tier_letter : regex :=
  Cls false [CLit "M"; CLit "R"; CLit "U"; CLit "C"; CLit "S"].

(** [-([MRUCS])-] *)
Definition re_rarity_mid : regex := Cat (Chr "-") (Cat (Grp tier_letter) (Chr "-")).

(** [-([MRUCS])(?:$|-?Near|-?Lightly|-?Moderately|-?Heavily|-?Foil)] *)
Definition re_rarity_end : regex :=
  Cat (Chr "-")
      (Cat (Grp tier_letter)
           (Alts (Eol :: map (fun w : string => Cat (Opt (Chr "-")) (Lit w))
                          ["Near"; "Lightly"; "Moderately"; "Heavily"; "Foil"]%string))).

(** [\$\d+\.?\d*([MRUCS])-] *)
Definition re_rarity_after_price : regex :=
  Cat (Chr "$")
      (Cat (Plus digit)
           (Cat (Opt (Chr ".")) (Cat (Star digit) (Cat (Grp tier_letter) (Chr "-"))))).

(** The three searches for the rarity, in their order. *)
Definition find_rarity (remainder line : str) : option (str * rmatch) :=
  match re_search re_rarity_mid remainder with
  | Some m => Some (remainder, m)
  | None =>
      match re_search re_rarity_end remainder with
      | Some m => Some (remainder, m)
      | None =>
          match re_search re_rarity_after_price line with
          | Some m => Some (line, m)
          | None => None
          end
      end
  end.

Definition find_condition (line : str) : str :=
  if contains (lit "LightlyPlayed") line || contains (lit "Lightly Played") line
  then lit "Lightly Played"
  else if contains (lit "ModeratelyPlayed") line
          || contains (lit "Moderately Played") line
  then lit "Moderately Played"
  else if contains (lit "HeavilyPlayed") line || contains (lit "Heavily Played") line
  then lit "Heavily Played"
  else lit "Near Mint".

Definition dash_or_space : regex := Cls false [CLit "-"; CSpace].

(** [[-\s]W[-\s]|W$] for a language name [W] *)
Definition re_language (w : string) : regex :=
  Alt (Cat dash_or_space (Cat (Lit w) dash_or_space)) (Cat (Lit w) Eol).

Definition language_patterns : list (regex * string) :=
  [ (re_language "Japanese", "Japanese");
    (re_language "German", "German");
    (re_language "French", "French");
    (re_language "Italian", "Italian");
    (re_language "Spanish", "Spanish");
    (re_language "Portuguese", "Portuguese");
    (re_language "Russian", "Russian");
    (re_language "Korean", "Korean");
    (Alt (Lit "ChineseSimplified"%string) (Lit "SimplifiedChinese"%string),
     "Chinese (Simplified)");
    (Alt (Lit "ChineseTraditional"%string) (Lit "TraditionalChinese"%string),
     "Chinese (Traditional)");
    (re_language "Phyrexian", "Phyrexian") ]%string.

(** The loop over the table: the first pattern found gives the language. *)
Fixpoint find_language (table : list (regex * string)) (line : str) : option str :=
  match table with
  | [] => None
  | (pattern, lang_name) :: rest =>
      match re_search pattern line with
      | Some _ => Some (lit lang_name)
      | None => find_language rest line
      end
  end.

(** The prices: the last two dollar amounts of the line. *)
Definition extract_prices (line : str) : Q * Q :=
  let prices := re_findall re_price line in
  if 2 <=? length prices
  then (float_of_token (nth (length prices - 2) prices []),
        float_of_token (nth (length prices - 1) prices []))
  else (0%Q, 0%Q).

(** [\(([^)]+)\)] *)
Definition re_variant : regex :=
  Cat (Chr "(") (Cat (Grp (Plus (Cls true [CLit ")"]))) (Chr ")")).

(** The text of the card name in the remainder. *)
Definition card_name_part (remainder : str) (number_match : option rmatch)
    (rarity_match : option (str * rmatch)) : str :=
  match number_match with
  | Some nm =>
      let collector_number := group1 remainder nm in
      let before :=
        match find_str ("#" :: collector_number) remainder with
        | Some num_pos => firstn num_pos remainder
        | None => removelast remainder
        end in
      rstrip_chr "-" before
  | None =>
      match rarity_match with
      | Some (_, rm) => rstrip_chr "-" (firstn (m_start rm) remainder)
      | None => hd [] (split_chr "-" remainder)
      end
  end.

(** The fixes of the set name for display. *)
Definition display_set_name (set_name : str) : str :=
  let s := add_spaces_to_card_name set_name in
  let s := replace (lit "FINALFANTASY") (lit "FINAL FANTASY") s in
  let s := re_sub (Lit "Phyrexia:All Will Be One"%string)
                  [TLit "Phyrexia: All Will Be One"%string] s in
  let s := re_sub (Lit "Avatar:The Last Airbender"%string)
                  [TLit "Avatar: The Last Airbender"%string] s in
  let s := re_sub (Lit "Tarkir:Dragonstorm"%string)
                  [TLit "Tarkir: Dragonstorm"%string] s in
  let s := re_sub (Lit "Commander:"%string) [TLit "Commander: "%string] s in
  let s := re_sub (Lit "Promo Pack:"%string) [TLit "Promo Pack: "%string] s in
  let s := re_sub (Lit "From the Vault:"%string) [TLit "From the Vault: "%string] s in
  re_sub re_spaces [TLit " "%string] s.

Definition parse_card_line (line0 : str) : option Card :=
  let line := strip line0 in
  match re_match re_entry line with
  | None => None
  | Some _ =>
  if contains (lit "Quantity") line || contains (lit "Description") line then None
  else
  match re_match re_quantity line with
  | None => None
  | Some qty_match =>
  let quantity := int_of_digits (group1 line qty_match) in
  let (price, total_price) := extract_prices line in
  let line_no_prices := re_sub re_price_plain [] line in
  match re_search re_magic line_no_prices with
  | None => None
  | Some magic_match =>
  let full_description := strip (group1 line_no_prices magic_match) in
  let (set_name, remainder) := extract_set_and_card full_description in
  let number_match := re_search re_number remainder in
  let collector_number :=
    match number_match with
    | Some nm => group1 remainder nm
    | None => []
    end in
  let rarity_match := find_rarity remainder line in
  let rarity :=
    match rarity_match with
    | Some (subj, rm) => group1 subj rm
    | None => lit "R"
    end in
  let is_foil := contains (lit "Foil") line in
  let condition := find_condition line in
  let language := find_language language_patterns line in
  let name_part := card_name_part remainder number_match rarity_match in
  let (variant, card_name) :=
    match re_search re_variant name_part with
    | Some vm =>
        (Some (add_spaces_to_card_name (group1 name_part vm)),
         strip (firstn (m_start vm) name_part))
    | None => (None, name_part)
    end in
  Some (mkCard quantity
               (display_set_name set_name)
               (add_spaces_to_card_name card_name)
               collector_number rarity condition is_foil price total_price
               variant language (lit "Colorless") None)
  end
  end
  end.

(** ** The continuation merger: [merge_continuation_lines] *)

(** [^\d+\s+Total\s+\$] *)
Definition re_total : regex :=
  Cat Bol (Cat (Plus digit) (Cat (Plus space)
    (Cat (Lit "Total"%string) (Cat (Plus space) (Chr "$"))))).

Definition is_header (line : str) : bool :=
  startswith (lit "Quantity Description") line || startswith (lit "OrderNumber:") line.

Definition is_total (line : str) : bool :=
  match re_match re_total line with Some _ => true | None => false end.

Definition is_entry (line : str) : bool :=
  match re_match re_entry line with Some _ => true | None => false end.

Definition nonempty (s : str) : bool :=
  match s with [] => false | _ :: _ => true end.

(** The state of the loop: the list [merged] and the text [current]. *)
Definition merge_step (st : list str * str) (line0 : str) : list str * str :=
  let (merged, current) := st in
  let line := strip line0 in
  if negb (nonempty line) then st
  else if is_header line then
    if nonempty current then (merged ++ [current], []) else st
  else if is_total line then
    if nonempty current then (merged ++ [current], []) else st
  else if is_entry line then
    if nonempty current then (merged ++ [current], line) else (merged, line)
  else if nonempty current then (merged, current ++ line)
  else st.

Definition merge_continuation_lines (lines : list str) : list str :=
  let (merged, current) := fold_left merge_step lines ([], []) in
  if nonempty current then merged ++ [current] else merged.

(** * More of the program

    The functions around the four parsers: the slip as a whole, the name
    for the lookup, the reading of the data of the card service, and the
    order of the page. *)

(** ** The slip: [parse_packing_slip], from the text of the PDF on

    The function prints as it goes.  The model returns, with the cards, the
    lines that the function warns about, each cut to its first 80
    characters as the warning prints it. *)

Definition parse_step (st : list Card * list str) (line : str) : list Card * list str :=
  let (cards, warned) := st in
  match parse_card_line line with
  | Some card => (cards ++ [card], warned)
  | None =>
      if contains (lit "Magic-") line then (cards, warned ++ [firstn 80 line]) else st
  end.

Definition parse_packing_slip (text : str) : list Card * list str :=
  let lines := split_chr newline text in
  let merged_lines := merge_continuation_lines lines in
  fold_left parse_step merged_lines ([], []).

(** ** The name for the lookup: [get_search_name] *)

(** [\(Extended$] and the like: the text [w], which begins with the open
    parenthesis, at the end. *)
Definition re_artifact (w : string) : regex := Cat (Lit w) Eol.

Definition get_search_name (card_name : str) : str :=
  let search_name := strip card_name in
  let search_name := strip (re_sub (re_artifact "(Extended") [] search_name) in
  let search_name := strip (re_sub (re_artifact "(Borderless") [] search_name) in
  let search_name := strip (re_sub (re_artifact "(Showcase") [] search_name) in
  let search_name := strip (re_sub (re_artifact "(Retro Frame") [] search_name) in
  let search_name := strip (re_sub (re_artifact "(Foil Etched") [] search_name) in
  let search_name := strip (re_sub (re_artifact "(White Border") [] search_name) in
  let search_name := strip (re_sub (re_artifact "(Future Sight") [] search_name) in
  search_name.

(** ** The tables of the pull sheet

    A dict with texts as keys is the list of its entries, in the order in
    which the keys came in. *)

Definition dict (V : Type) : Type := list (str * V).

(** [d[key]], when [key in d] *)
Fixpoint dict_get {V : Type} (d : dict V) (key : str) : option V :=
  match d with
  | [] => None
  | (k, v) :: rest => if str_eqb k key then Some v else dict_get rest key
  end.

(** [d.get(key, default)] *)
Definition dict_get_or {V : Type} (d : dict V) (key : str) (default : V) : V :=
  match dict_get d key with
  | Some v => v
  | None => default
  end.

(** [key in d] *)
Definition dict_has {V : Type} (d : dict V) (key : str) : bool :=
  match dict_get d key with
  | Some _ => true
  | None => false
  end.

Definition RARITY_ORDER : dict nat :=
  [(lit "M", 0); (lit "R", 1); (lit "U", 2); (lit "C", 3); (lit "S", 4)].

Definition RARITY_NAMES : dict str :=
  [(lit "M", lit "Mythic Rare"); (lit "R", lit "Rare"); (lit "U", lit "Uncommon");
   (lit "C", lit "Common"); (lit "S", lit "Special")].

Definition COLOR_ORDER : dict nat :=
  [(lit "White", 0); (lit "Blue", 1); (lit "Black", 2); (lit "Red", 3);
   (lit "Green", 4); (lit "Multicolor", 5); (lit "Colorless", 6); (lit "Land", 7)].

(** The entry of [key] made or changed by [f]; a new key goes to the end.
    With [f] that starts from an empty value this is the write into a
    [defaultdict]. *)
Fixpoint dict_update {V : Type} (d : dict V) (key : str) (f : option V -> V) : dict V :=
  match d with
  | [] => [(key, f None)]
  | (k, v) :: rest =>
      if str_eqb k key then (k, f (Some v)) :: rest
      else (k, v) :: dict_update rest key f
  end.

(** ** The data of the card service

    What [json.loads] gives: [None], a boolean, a number, a text, a list or
    a dict with texts as keys.  The functions that read it are written for
    the data as the service sends it and raise on other data; the model
    keeps the exception. *)

#[local] Unset Elimination Schemes.

Inductive json : Type :=
| JNull
| JBool (b : bool)
| JNum (n : Q)
| JStr (s : str)
| JArr (items : list json)
| JObj (fields : list (str * json)).

#[local] Set Elimination Schemes.

Inductive py_error : Type := TypeError | KeyError | AttributeError | IndexError.

Inductive result (A : Type) : Type :=
| Ok (a : A)
| Raise (e : py_error).

Arguments Ok {A} a.
Arguments Raise {A} e.

Definition bind {A B : Type} (r : result A) (f : A -> result B) : result B :=
  match r with
  | Ok a => f a
  | Raise e => Raise e
  end.

Notation "x <- r ;; k" := (bind r (fun x => k))
  (at level 61, r at next level, right associativity).

(** The keys of a dict with each key once. *)
Fixpoint dict_keys {V : Type} (d : dict V) : list str :=
  match d with
  | [] => []
  | (k, _) :: rest => k :: filter (fun k' => negb (str_eqb k k')) (dict_keys rest)
  end.

(** [len(v)] *)
Definition py_len (v : json) : result nat :=
  match v with
  | JStr s => Ok (length s)
  | JArr items => Ok (length items)
  | JObj fields => Ok (length (dict_keys fields))
  | _ => Raise TypeError
  end.

(** [v[0]]; the keys of a dict are texts, so that a dict has no entry 0. *)
Definition py_first (v : json) : result json :=
  match v with
  | JStr (c :: _) => Ok (JStr [c])
  | JArr (x :: _) => Ok x
  | JStr [] | JArr [] => Raise IndexError
  | JObj _ => Raise KeyError
  | _ => Raise TypeError
  end.

(** [v[key]] for a text [key] *)
Definition py_item (v : json) (key : str) : result json :=
  match v with
  | JObj fields =>
      match dict_get fields key with
      | Some x => Ok x
      | None => Raise KeyError
      end
  | _ => Raise TypeError
  end.

(** [v.get(key, default)]; only a dict has the method. *)
Definition py_get (v : json) (key : str) (default : json) : result json :=
  match v with
  | JObj fields => Ok (dict_get_or fields key default)
  | _ => Raise AttributeError
  end.

(** [w in v] for a text [w] that is not empty *)
Definition py_in (w : str) (v : json) : result bool :=
  match v with
  | JStr s => Ok (contains w s)
  | JArr items =>
      Ok (existsb (fun x => match x with JStr s => str_eqb s w | _ => false end) items)
  | JObj fields => Ok (dict_has fields w)
  | _ => Raise TypeError
  end.

(** The use of [v] as a key: lists and dicts cannot be hashed. *)
Definition py_hash (v : json) : result unit :=
  match v with
  | JArr _ | JObj _ => Raise TypeError
  | _ => Ok tt
  end.

(** [bool(v)] *)
Definition truthy (v : json) : bool :=
  match v with
  | JNull => false
  | JBool b => b
  | JNum n => negb (Qeq_bool n 0)
  | JStr s => nonempty s
  | JArr items => match items with [] => false | _ :: _ => true end
  | JObj fields => match fields with [] => false | _ :: _ => true end
  end.

(** ** The color of a card: [get_card_color] *)

Definition color_map : dict str :=
  [(lit "W", lit "White"); (lit "U", lit "Blue"); (lit "B", lit "Black");
   (lit "R", lit "Red"); (lit "G", lit "Green")].

Definition get_card_color (scryfall_data : dict json) : result str :=
  match scryfall_data with
  | [] => Ok (lit "Colorless")
  | _ :: _ =>
      let top :=
        Ok (dict_get_or scryfall_data (lit "type_line") (JStr []),
            dict_get_or scryfall_data (lit "colors") (JArr [])) in
      face <-
        match dict_get scryfall_data (lit "card_faces") with
        | Some card_faces =>
            n <- py_len card_faces ;;
            if 0 <? n then
              front_face <- py_first card_faces ;;
              type_line <- py_get front_face (lit "type_line") (JStr []) ;;
              colors <- py_get front_face (lit "colors") (JArr []) ;;
              Ok (type_line, colors)
            else top
        | None => top
        end ;;
      let type_line := fst face in
      let colors := snd face in
      is_land <- py_in (lit "Land") type_line ;;
      is_creature <- (if is_land then py_in (lit "Creature") type_line else Ok false) ;;
      if is_land && negb is_creature then Ok (lit "Land")
      else
        let colors := match colors with JNull => JArr [] | _ => colors end in
        n <- py_len colors ;;
        if n =? 0 then Ok (lit "Colorless")
        else if 1 <? n then Ok (lit "Multicolor")
        else
          first <- py_first colors ;;
          _ <- py_hash first ;;
          Ok (match first with
              | JStr s => dict_get_or color_map s (lit "Colorless")
              | _ => lit "Colorless"
              end)
  end.

(** ** The picture of a card: [get_card_image_url]

    The result [None] is [JNull]. *)

Definition get_card_image_url (scryfall_data : dict json) : result json :=
  match scryfall_data with
  | [] => Ok JNull
  | _ :: _ =>
      match dict_get scryfall_data (lit "image_uris") with
      | Some image_uris => py_get image_uris (lit "normal") JNull
      | None =>
          match dict_get scryfall_data (lit "card_faces") with
          | Some card_faces =>
              n <- py_len card_faces ;;
              if 0 <? n then
                face <- py_first card_faces ;;
                has <- py_in (lit "image_uris") face ;;
                if has then
                  image_uris <- py_item face (lit "image_uris") ;;
                  py_get image_uris (lit "normal") JNull
                else Ok JNull
              else Ok JNull
          | None => Ok JNull
          end
      end
  end.

(** ** The codes of the sets: [fetch_scryfall_sets] and [get_scryfall_set_code]

    The request to the service is outside the model: [fetch_scryfall_sets]
    starts from the decoded response, [None] when the request or the decoding
    raised, and gives the mapping that the first call stores.
    [get_scryfall_set_code] takes this mapping. *)

(** [mapping[key] = value] *)
Definition dict_set {V : Type} (d : dict V) (key : str) (value : V) : dict V :=
  dict_update d key (fun _ => value).

(** [d.update(other)] *)
Definition dict_update_all {V : Type} (d other : dict V) : dict V :=
  fold_left (fun m kv => dict_set m (fst kv) (snd kv)) other d.

(** The items that a loop over [v] goes through. *)
Definition py_iter (v : json) : result (list json) :=
  match v with
  | JStr s => Ok (map (fun c => JStr [c]) s)
  | JArr items => Ok items
  | JObj fields => Ok (map JStr (dict_keys fields))
  | _ => Raise TypeError
  end.

Definition skipped_set_types : list string :=
  ["token"; "memorabilia"; "promo"; "alchemy"]%string.

Definition manual_overrides : dict json :=
  [ (lit "SecretLairDropSeries", JStr (lit "sld"));
    (lit "Secret Lair Drop Series", JStr (lit "sld"));
    (lit "SecretLairCountdownKit", JStr (lit "slc"));
    (lit "Secret Lair Countdown Kit", JStr (lit "slc"));
    (lit "Avatar:TheLastAirbender:Eternal-Legal", JStr (lit "tle"));
    (lit "Avatar: The Last Airbender: Eternal-Legal", JStr (lit "tle"));
    (lit "MarvelUniverseEternal-Legal", JStr (lit "mar"));
    (lit "Marvel Universe Eternal-Legal", JStr (lit "mar"));
    (lit "TheListReprints", JStr (lit "plst"));
    (lit "The List Reprints", JStr (lit "plst"));
    (lit "TimeSpiral:Remastered", JStr (lit "tsr"));
    (lit "Time Spiral: Remastered", JStr (lit "tsr")) ].

(** One round of the loop over the sets.  A name that is not a text is
    refused by [name.replace], after it was used as a key. *)
Definition add_set (mapping : dict json) (set_info : json) : result (dict json) :=
  code <- py_get set_info (lit "code") (JStr []) ;;
  name <- py_get set_info (lit "name") (JStr []) ;;
  if negb (truthy code) || negb (truthy name) then Ok mapping
  else
    set_type <- py_get set_info (lit "set_type") (JStr []) ;;
    if match set_type with
       | JStr t => existsb (fun w : string => str_eqb t w) skipped_set_types
       | _ => false
       end
    then Ok mapping
    else
      _ <- py_hash name ;;
      match name with
      | JStr name =>
          let mapping := dict_set mapping name code in
          let no_spaces := replace (lit " ") [] name in
          let mapping := dict_set mapping no_spaces code in
          let colon_no_space := replace (lit ": ") (lit ":") name in
          let mapping := dict_set mapping colon_no_space code in
          let all_no_spaces := replace (lit ":") [] (replace (lit " ") [] name) in
          if negb (dict_has mapping all_no_spaces)
          then Ok (dict_set mapping all_no_spaces code)
          else Ok mapping
      | _ => Raise AttributeError
      end.

Fixpoint add_sets (mapping : dict json) (sets_data : list json) : result (dict json) :=
  match sets_data with
  | [] => Ok mapping
  | set_info :: rest =>
      mapping <- add_set mapping set_info ;;
      add_sets mapping rest
  end.

(** The body of the [try]. *)
Definition build_set_mapping (data : json) : result (dict json) :=
  sets_data <- py_get data (lit "data") (JArr []) ;;
  items <- py_iter sets_data ;;
  mapping <- add_sets [] items ;;
  Ok (dict_update_all mapping manual_overrides).

Definition fetch_scryfall_sets (response : option json) : dict json :=
  match response with
  | Some data =>
      match build_set_mapping data with
      | Ok mapping => mapping
      | Raise _ => []
      end
  | None => []
  end.

(** [None] is the result [None]. *)
Definition get_scryfall_set_code (mapping : dict json) (set_name : str) : option json :=
  match dict_get mapping set_name with
  | Some code => Some code
  | None =>
      let no_spaces := replace (lit " ") [] set_name in
      match dict_get mapping no_spaces with
      | Some code => Some code
      | None =>
          let lowered := map lower set_name in
          option_map snd
            (find (fun kv => str_eqb (map lower (fst kv)) lowered) mapping)
      end
  end.

(** ** The pull sheet: [generate_html] *)

(** [organized[card.color][card.rarity].append(card)] *)
Definition organize_step (organized : dict (dict (list Card))) (card : Card)
    : dict (dict (list Card)) :=
  dict_update organized (color card)
    (fun by_rarity =>
       dict_update (match by_rarity with Some d => d | None => [] end) (rarity card)
         (fun cards => match cards with Some l => l | None => [] end ++ [card])).

Definition organize (cards : list Card) : dict (dict (list Card)) :=
  fold_left organize_step cards [].

(** [sorted(items, key=key)]: the order of the keys, and the order of the
    items among those with equal keys. *)
Fixpoint insert_by_key {A K : Type} (ltb : K -> K -> bool) (key : A -> K)
    (x : A) (l : list A) : list A :=
  match l with
  | [] => [x]
  | y :: l' => if ltb (key y) (key x) then y :: insert_by_key ltb key x l' else x :: l
  end.

Definition sorted_by_key {A K : Type} (ltb : K -> K -> bool) (key : A -> K)
    (l : list A) : list A :=
  fold_right (insert_by_key ltb key) [] l.

(** [a < b] for texts: by the codes of their characters. *)
Fixpoint str_ltb (a b : str) : bool :=
  match a, b with
  | _, [] => false
  | [], _ :: _ => true
  | x :: a', y :: b' => (code x <? code y) || ((code x =? code y) && str_ltb a' b')
  end.

(** [a < b] for the pairs of a number and a text. *)
Definition pair_ltb (a b : nat * str) : bool :=
  (fst a <? fst b) || ((fst a =? fst b) && str_ltb (snd a) (snd b)).

(** [(0 if c.variant else 1, c.card_name)] *)
Definition variant_first (c : Card) : nat * str :=
  (match variant c with
   | Some (_ :: _) => 0
   | _ => 1
   end,
   card_name c).

Definition color_rank (c : str) : nat := dict_get_or COLOR_ORDER c 99.

Definition rarity_rank (r : str) : nat := dict_get_or RARITY_ORDER r 99.

(** The sections of the page: for each color in [sorted_colors] its
    rarities in [sorted_rarities], and for each rarity its [rarity_cards]. *)
Definition sheet_sections (cards : list Card) : list (str * list (str * list Card)) :=
  let organized := organize cards in
  let sorted_colors := sorted_by_key Nat.ltb color_rank (map fst organized) in
  map (fun color =>
         let color_cards := dict_get_or organized color [] in
         let sorted_rarities :=
           sorted_by_key Nat.ltb rarity_rank (map fst color_cards) in
         (color,
          map (fun rarity =>
                 (rarity,
                  sorted_by_key pair_ltb variant_first
                    (dict_get_or color_cards rarity [])))
              sorted_rarities))
      sorted_colors.

(** The cards in the order of the page: the card with [data-index] 0
    first. *)
Definition pull_order (cards : list Card) : list Card :=
  flat_map (fun section => flat_map snd (snd section)) (sheet_sections cards).

(** [sum(card.quantity for card in cards)] *)
Definition total_quantity (cards : list Card) : N :=
  fold_left (fun n card => (n + quantity card)%N) cards 0%N.

(** The numbers in the headers of the page: [total_cards], and for each
    section [color_total], taken from [organized] as the page takes it. *)
Definition total_cards (cards : list Card) : N := total_quantity cards.

Definition color_total (color_cards : dict (list Card)) : N :=
  total_quantity (flat_map snd color_cards).

Definition color_totals (cards : list Card) : list (str * N) :=
  let organized := organize cards in
  map (fun color => (color, color_total (dict_get_or organized color [])))
      (sorted_by_key Nat.ltb color_rank (map fst organized)).

(** The texts of a card that the page shows escaped: [safe_card_name] and
    [safe_set_name]. *)
Definition html_escape (text : str) : str :=
  replace (lit ">") (lit "&gt;")
    (replace (lit "<") (lit "&lt;")
       (replace (lit "&") (lit "&amp;") text)).

Definition safe_card_name (card : Card) : str := html_escape (card_name card).

Definition safe_set_name (card : Card) : str := html_escape (set_name card).

(** ** The path of the page: [main] *)

(** [s.rsplit(x, 1)[0]] for one character [x]: the text before the last
    [x], and all the text when it has none. *)
Definition rsplit1_head (x : ascii) (s : str) : str :=
  match find_chr x (rev s) with
  | Some i => firstn (length s - i - 1) s
  | None => s
  end.

(** The path of the page when the command line gives none. *)
Definition default_output_path (pdf_path : str) : str :=
  rsplit1_head "." pdf_path ++ lit "_organized.html".

(** The number of the order, which [main] reads from the text of the slip. *)

(** [Order\s*Number:\s*([A-Z0-9-]+)] *)
Definition re_order_number : regex :=
  Cat (Lit "Order"%string)
      (Cat (Star space)
           (Cat (Lit "Number:"%string)
                (Cat (Star space)
                     (Grp (Plus (Cls false [CRange "A" "Z"; CRange "0" "9"; CLit "-"])))))).

(** The number of the order that [main] hands to the page. *)
Definition order_number (text : str) : str :=
  match re_search re_order_number text with
  | Some order_match => group1 text order_match
  | None => []
  end.

(** [card.color = ...; card.image_url = ...] in [fetch_colors_from_scryfall] *)
Definition set_color (card : Card) (new_color : str) (new_image : option str) : Card :=
  mkCard (quantity card) (set_name card) (card_name card) (collector_number card)
         (rarity card) (condition card) (is_foil card) (price card) (total_price card)
         (variant card) (language card) new_color new_image.

(** * Specifications

    What the patterns match, and the properties of the program in the
    words of its specification, as definitions that can be run. *)

(** ** What a pattern matches

    [Match ic r s s'] says that [r] can take the cursor from [s] to [s'].
    It is the reading of the pattern as a set of texts; which of several
    matches the matcher returns is not part of it. *)

Inductive Match (ic : bool) : regex -> cursor -> cursor -> Prop :=
| MEps s : Match ic Eps s s
| MChr c b x rest :
    chr_match ic c x = true -> Match ic (Chr c) (b, x :: rest) (x :: b, rest)
| MDot b x rest :
    x <> newline -> Match ic Dot (b, x :: rest) (x :: b, rest)
| MCls neg items b x rest :
    cls_match ic neg items x = true ->
    Match ic (Cls neg items) (b, x :: rest) (x :: b, rest)
| MCat r1 r2 s s1 s2 :
    Match ic r1 s s1 -> Match ic r2 s1 s2 -> Match ic (Cat r1 r2) s s2
| MAltL r1 r2 s s1 : Match ic r1 s s1 -> Match ic (Alt r1 r2) s s1
| MAltR r1 r2 s s1 : Match ic r2 s s1 -> Match ic (Alt r1 r2) s s1
| MStar0 r s : Match ic (Star r) s s
| MStarS r s s1 s2 :
    Match ic r s s1 -> length (snd s1) < length (snd s) ->
    Match ic (Star r) s1 s2 -> Match ic (Star r) s s2
| MGrp r s s1 : Match ic r s s1 -> Match ic (Grp r) s s1
| MBol rest : Match ic Bol ([], rest) ([], rest)
| MEol s : at_eol s = true -> Match ic Eol s s
| MWordb s : at_wordb s = true -> Match ic Wordb s s.

(** Whether a search gave a match. *)
Definition found (o : option rmatch) : bool :=
  match o with Some _ => true | None => false end.

(** ** The merger, as the specification words it

    A line is noise when it is a page header or the total line; it continues
    an entry when it neither starts one nor is noise (a blank line adds
    nothing).  Each entry line gives one merged entry: the line and the run of
    continuing lines after it, joined as they are. *)

Definition is_noise (line : str) : bool := is_header line || is_total line.

Definition continues (line : str) : bool :=
  negb (is_entry line) && negb (is_noise line).

Fixpoint continuation_run (ls : list str) : list str :=
  match ls with
  | l :: ls' => if continues l then l :: continuation_run ls' else []
  | [] => []
  end.

Fixpoint merged_entries (ls : list str) : list str :=
  match ls with
  | [] => []
  | l :: ls' =>
      if is_entry l
      then concat (l :: continuation_run ls') :: merged_entries ls'
      else merged_entries ls'
  end.

(** The last step of the merger, and what an open entry [current] still
    has to give with the lines [ls] ahead. *)
Definition flush (st : list str * str) : list str :=
  let (merged, current) := st in
  if nonempty current then merged ++ [current] else merged.

Definition pending (current : str) (ls : list str) : list str :=
  if nonempty current
  then (current ++ concat (continuation_run ls)) :: merged_entries ls
  else merged_entries ls.

(** ** The language table, as the specification words it

    A bound is a hyphen or a white-space character.  A keyword is fenced in
    a text when it stands right after a bound and right before a bound or
    the end of the text; it ends the text when nothing comes after it but,
    at most, one last line feed. *)

Definition is_bound (c : ascii) : bool := Ascii.eqb c "-" || isspace c.

Definition bound_or_end (t : str) : bool :=
  match t with
  | [] => true
  | y :: _ => is_bound y
  end.

Fixpoint fenced (w s : str) : bool :=
  match s with
  | [] => false
  | c :: s' =>
      (is_bound c && startswith w s' && bound_or_end (skipn (length w) s'))
      || fenced w s'
  end.

(** [s.endswith(w)] *)
Definition ends_with (w s : str) : bool := startswith (rev w) (rev s).

Definition ends_text (w s : str) : bool :=
  ends_with w s || ends_with (w ++ [newline]) s.

(** A keyword with a bound or an edge of the text on each side. *)
Fixpoint edge_bounded_from (left_ok : bool) (w s : str) : bool :=
  (left_ok && startswith w s && bound_or_end (skipn (length w) s))
  || match s with
     | [] => false
     | c :: s' => edge_bounded_from (is_bound c) w s'
     end.

Definition edge_bounded (w s : str) : bool := edge_bounded_from true w s.

Inductive language_rule : Type :=
| Fenced (w : string)              (* one language name *)
| Anywhere (w1 w2 : string).       (* a compound name, in its two orders *)

Definition language_rules : list (language_rule * string) :=
  [ (Fenced "Japanese", "Japanese");
    (Fenced "German", "German");
    (Fenced "French", "French");
    (Fenced "Italian", "Italian");
    (Fenced "Spanish", "Spanish");
    (Fenced "Portuguese", "Portuguese");
    (Fenced "Russian", "Russian");
    (Fenced "Korean", "Korean");
    (Anywhere "ChineseSimplified" "SimplifiedChinese", "Chinese (Simplified)");
    (Anywhere "ChineseTraditional" "TraditionalChinese", "Chinese (Traditional)");
    (Fenced "Phyrexian", "Phyrexian") ]%string.

(** The pattern that the source gives to a rule. *)
Definition pattern_of (rule : language_rule) : regex :=
  match rule with
  | Fenced w => re_language w
  | Anywhere w1 w2 => Alt (Lit w1) (Lit w2)
  end.

(** When a rule is sure to apply, and when it can apply at all.  A rule of
    one language name applies where the name is fenced.  Where the name ends
    the text with no bound before it, the rule can apply, and whether it
    does is left open; nowhere else can it apply.  A rule of a compound name
    applies wherever the name occurs, in either order. *)
Definition surely_applies (rule : language_rule) (line : str) : bool :=
  match rule with
  | Fenced w => fenced w line
  | Anywhere w1 w2 => contains w1 line || contains w2 line
  end.

Definition can_apply (rule : language_rule) (line : str) : bool :=
  match rule with
  | Fenced w => fenced w line || ends_text w line
  | Anywhere w1 w2 => contains w1 line || contains w2 line
  end.

(** ** What a line holds

    The tokens that the field rules look for, read off the text of the
    line without the patterns. *)

(** Two characters in a row, the first in [p] and the second in [q]. *)
Fixpoint has_pair (p q : ascii -> bool) (s : str) : bool :=
  match s with
  | c :: s' =>
      match s' with
      | d :: _ => (p c && q d) || has_pair p q s'
      | [] => false
      end
  | [] => false
  end.

(** A dollar sign and a digit: the start of every dollar amount. *)
Definition has_amount (s : str) : bool := has_pair (Ascii.eqb "$") isdigit s.

(** A hash sign and a digit: the start of every collector number. *)
Definition has_number (s : str) : bool := has_pair (Ascii.eqb "#") isdigit s.

(** The marker with a character after it, other than a line feed. *)
Fixpoint marker_text (s : str) : bool :=
  (startswith (lit "Magic-") s
   && match skipn 6 s with
      | c :: _ => negb (Ascii.eqb c newline)
      | [] => false
      end)
  || match s with
     | [] => false
     | _ :: s' => marker_text s'
     end.

Definition is_tier (c : ascii) : bool :=
  existsb (Ascii.eqb c) ["M"; "R"; "U"; "C"; "S"].

Definition tier_followers : list string :=
  ["Near"; "Lightly"; "Moderately"; "Heavily"; "Foil"]%string.

(** What may come after a tier letter: a hyphen, white space, the end of the
    text, or the first word of a condition or of the foil mark. *)
Definition tier_follow (t : str) : bool :=
  bound_or_end t || existsb (fun w : string => startswith w t) tier_followers.

(** A hyphen, a tier letter and one of its followers. *)
Fixpoint tier_mark (s : str) : bool :=
  match s with
  | c :: s' =>
      (Ascii.eqb c "-"
       && match s' with
          | x :: t => is_tier x && tier_follow t
          | [] => false
          end)
      || tier_mark s'
  | [] => false
  end.

Definition condition_words : list string :=
  ["LightlyPlayed"; "Lightly Played"; "ModeratelyPlayed"; "Moderately Played";
   "HeavilyPlayed"; "Heavily Played"]%string.

Definition names_condition (line : str) : bool :=
  existsb (fun w : string => contains w line) condition_words.

Definition keywords_of (rule : language_rule) : list string :=
  match rule with
  | Fenced w => [w]
  | Anywhere w1 w2 => [w1; w2]
  end.

Definition names_language (line : str) : bool :=
  existsb (fun rn => existsb (fun w : string => contains w line) (keywords_of (fst rn)))
          language_rules.

(** The longest run of characters in [p] at the head of a text, and what
    is left after it. *)
Fixpoint run_of (p : ascii -> bool) (s : str) : str :=
  match s with
  | c :: s' => if p c then c :: run_of p s' else []
  | [] => []
  end.

Fixpoint after_run (p : ascii -> bool) (s : str) : str :=
  match s with
  | c :: s' => if p c then after_run p s' else s
  | [] => []
  end.

Definition not_newline (c : ascii) : bool := negb (Ascii.eqb c newline).

(** ** The dollar amounts of a text, read off without the pattern

    An amount is a dollar sign, the longest run of digits after it (at least
    one) and, when a point follows, the point and the longest run of digits
    after it; [amount_at] gives the text of the amount after the sign.  The
    amounts are taken from the left, and the search goes on after each. *)

Definition amount_at (s : str) : option str :=
  match s with
  | c :: t =>
      if Ascii.eqb c "$" then
        match run_of isdigit t with
        | [] => None
        | ds =>
            match after_run isdigit t with
            | d :: t2 => if Ascii.eqb d "." then Some (ds ++ d :: run_of isdigit t2)
                         else Some ds
            | [] => Some ds
            end
        end
      else None
  | [] => None
  end.

Fixpoint dollar_amounts_from (skip : nat) (s : str) : list str :=
  match s with
  | [] => []
  | _ :: s' =>
      match skip with
      | S k => dollar_amounts_from k s'
      | 0 =>
          match amount_at s with
          | Some tok => tok :: dollar_amounts_from (length tok) s'
          | None => dollar_amounts_from 0 s'
          end
      end
  end.

Definition dollar_amounts (s : str) : list str := dollar_amounts_from 0 s.

(** ** The passes of the normalizer *)

(** The rules of the normalizer after its first loop: the flag
    [re.IGNORECASE], the pattern and the replacement, in the order of the
    source. *)
Definition repair_rules : list (bool * regex * list titem) :=
  [ (false, re_comma, [TLit ", "%string; TG1]);
    (false, re_colon, [TLit ": "%string; TG1]);
    (true, re_ending_of, [TG1; TLit " of"%string]);
    (true, re_sof, [TG1; TLit "s of"%string]);
    (true, re_ending_to, [TG1; TLit " to"%string]) ]
  ++ map (fun w : string => (true, re_w_the w, [TLit (w ++ " the")%string])) glue_words
  ++ [ (false, re_the_cap, [TLit "the "%string; TG1]);
       (false, re_spaces, [TLit " "%string]) ].

Definition rule_pass (rule : bool * regex * list titem) : str -> str :=
  let '(ic, r, t) := rule in re_sub_ic ic r t.

(** No white space at the ends. *)
Definition trimmed (name : str) : bool :=
  negb (isspace (hd "x" name)) && negb (isspace (hd "x" (rev name))).

(** A text of 7-bit characters: Python's [str.isascii]. *)
Definition isascii (s : str) : bool := forallb (fun c => code c <? 128) s.


(** ** The name for the lookup

    The artifacts that [get_search_name] takes off the end of a name, in its
    order, and a text without the artifact [w] at its end. *)

Definition artifacts : list string :=
  [ "(Extended"; "(Borderless"; "(Showcase"; "(Retro Frame"; "(Foil Etched";
    "(White Border"; "(Future Sight" ]%string.

Fixpoint drop_suffix (w s : str) : str :=
  match s with
  | [] => []
  | c :: s' => if str_eqb s w then [] else c :: drop_suffix w s'
  end.

Definition cut_artifact (name : str) (w : string) : str :=
  strip (re_sub (re_artifact w) [] name).

(** ** The white space of a normalized name

    A run of white space read as one blank, and a text whose words stand
    with one blank between them: no white space at its ends, no white space
    but the blank, and no two blanks in a row. *)

Fixpoint collapse_from (in_run : bool) (s : str) : str :=
  match s with
  | [] => []
  | c :: s' =>
      if isspace c
      then if in_run then collapse_from true s' else " " :: collapse_from true s'
      else c :: collapse_from false s'
  end.

Definition collapse (s : str) : str := collapse_from false s.

Fixpoint blanks_ok (after_blank : bool) (s : str) : bool :=
  match s with
  | [] => negb after_blank
  | c :: s' =>
      if isspace c
      then Ascii.eqb c " " && negb after_blank && blanks_ok true s'
      else blanks_ok false s'
  end.

Definition single_spaced (s : str) : bool :=
  match s with
  | [] => true
  | _ :: _ => blanks_ok true s
  end.

(** Every white-space character is a blank with no white space after it. *)
Fixpoint isolated (s : str) : bool :=
  match s with
  | [] => true
  | c :: s' =>
      (if isspace c then Ascii.eqb c " " && negb (isspace (hd "x" s')) else true)
      && isolated s'
  end.

(** ** Patterns and their group

    A pattern without a group, and a pattern that is a chain of patterns
    before a last one. *)

Fixpoint grp_free (r : regex) : bool :=
  match r with
  | Cat r1 r2 | Alt r1 r2 => grp_free r1 && grp_free r2
  | Star r1 => grp_free r1
  | Grp _ => false
  | _ => true
  end.

Fixpoint cat_chain (front : list regex) (r : regex) : regex :=
  match front with
  | [] => r
  | p :: front' => Cat p (cat_chain front' r)
  end.

(** ** The order of the known prefixes

    A list of texts from the longest to the shortest. *)

Fixpoint longest_first (l : list str) : bool :=
  match l with
  | [] => true
  | x :: l' => forallb (fun y => length y <=? length x) l' && longest_first l'
  end.

(** ** Escaped text

    A text is safe in a page when it holds no angle bracket and every
    ampersand in it begins one of the three entities. *)

Fixpoint entities_only (s : str) : bool :=
  match s with
  | [] => true
  | c :: s' =>
      (if Ascii.eqb c "&"
       then startswith (lit "amp;") s' || startswith (lit "lt;") s'
            || startswith (lit "gt;") s'
       else negb (Ascii.eqb c "<") && negb (Ascii.eqb c ">"))
      && entities_only s'
  end.

(** What the three replacements make of one character. *)
Definition escape_char (c : ascii) : str :=
  if Ascii.eqb c "&" then lit "&amp;"
  else if Ascii.eqb c "<" then lit "&lt;"
  else if Ascii.eqb c ">" then lit "&gt;"
  else [c].

(** ** The order of the page

    A list in ascending order: no item stands before an item that it comes
    after.  [not_after] is the order that [sorted] makes from a key, and
    [sheet_le] the order of the cards of the page: by the rank of the color,
    then by the rank of the rarity, then the variants first, then by the
    name. *)

Fixpoint ascending {A : Type} (le : A -> A -> bool) (l : list A) : bool :=
  match l with
  | [] => true
  | x :: l' => forallb (le x) l' && ascending le l'
  end.

Definition not_after {A K : Type} (ltb : K -> K -> bool) (key : A -> K) (x y : A) : bool :=
  negb (ltb (key y) (key x)).

Definition sheet_le (a b : Card) : bool :=
  (color_rank (color a) <? color_rank (color b))
  || ((color_rank (color a) =? color_rank (color b))
      && ((rarity_rank (rarity a) <? rarity_rank (rarity b))
          || ((rarity_rank (rarity a) =? rarity_rank (rarity b))
              && negb (pair_ltb (variant_first b) (variant_first a))))).

(** The cards that a dict of dicts of lists holds. *)
Definition cards_of (organized : dict (dict (list Card))) : list Card :=
  flat_map (fun entry => flat_map snd (snd entry)) organized.

(** What the loop of [organize] keeps: the keys are distinct, no entry is
    empty, and every card stands under its color and its rarity. *)
Definition organized_well (organized : dict (dict (list Card))) : Prop :=
  NoDup (map fst organized) /\
  forall k by_rarity, In (k, by_rarity) organized ->
    NoDup (map fst by_rarity) /\ by_rarity <> [] /\
    forall r l, In (r, l) by_rarity ->
      l <> [] /\ forall c, In c l -> color c = k /\ rarity c = r.

(** The cards of one section and of one block of the page. *)
Definition block_cards (color_cards : dict (list Card)) (rarity : str) : list Card :=
  sorted_by_key pair_ltb variant_first (dict_get_or color_cards rarity []).

Definition section_cards (organized : dict (dict (list Card))) (color : str) : list Card :=
  let color_cards := dict_get_or organized color [] in
  flat_map (block_cards color_cards)
           (sorted_by_key Nat.ltb rarity_rank (map fst color_cards)).

(** ** The sets of the service

    A set that the loop of [fetch_scryfall_sets] takes up under the name
    [name]: it is a dict with a code and with this name, and its type is
    not one of the types that are left out. *)

Definition listed_set (set_info : json) (name : str) : Prop :=
  exists fields,
    set_info = JObj fields /\
    truthy (dict_get_or fields (lit "code") (JStr [])) = true /\
    dict_get_or fields (lit "name") (JStr []) = JStr name /\
    name <> [] /\
    match dict_get_or fields (lit "set_type") (JStr []) with
    | JStr t => existsb (fun w : string => str_eqb t w) skipped_set_types
    | _ => false
    end = false.

(** ** The letters of a name

    A text with its letters in lower case and its white space taken out:
    what the normalizer leaves as it is. *)

Definition squash (s : str) : str :=
  filter (fun c => negb (isspace c)) (map lower s).

(** The letters that a pattern takes, when the pattern settles them: a
    pattern of literal characters, of places in the text and of choices
    between texts with the same letters. *)
Fixpoint squash_text (r : regex) : option str :=
  match r with
  | Eps | Bol | Eol | Wordb => Some []
  | Chr c => Some (squash [c])
  | Cat r1 r2 =>
      match squash_text r1, squash_text r2 with
      | Some a, Some b => Some (a ++ b)
      | _, _ => None
      end
  | Alt r1 r2 =>
      match squash_text r1, squash_text r2 with
      | Some a, Some b => if str_eqb a b then Some a else None
      | _, _ => None
      end
  | Grp r1 => squash_text r1
  | _ => None
  end.

(** ** Pieces of a text

    [x] is a piece of [y] when it stands in [y] as it is, without gaps. *)

Definition piece (x y : str) : Prop := exists a b, y = a ++ x ++ b.


(** * Facts about the matcher *)

Create HintDb rxdb.
#[local] Hint Constructors Match : rxdb.

(** The steps that take a match of a compound pattern apart. *)
Ltac split_cat M M1 M2 :=
  inversion M as [| | | |? ? ? ? ? M1 M2| | | | | | | |]; subst.

Ltac split_alt M ML MR :=
  inversion M as [| | | | |? ? ? ? ML|? ? ? ? MR| | | | | |]; subst.

Ltac open_grp M M1 :=
  inversion M as [| | | | | | | | |? ? ? M1| | |]; subst.

Section MatcherFacts.

Variable ic : bool.

Lemma step_if_some A p s g (k : cursor -> capture -> option A) x :
  step_if p s g k = Some x ->
  exists c rest, snd s = c :: rest /\ p c = true /\ k (c :: fst s, rest) g = Some x.
Proof.
  unfold step_if. destruct (snd s) as [|c rest]; [discriminate|].
  destruct (p c) eqn:E; [|discriminate]. intros H. eauto.
Qed.

Lemma star_loop_sound A r (body : cursor -> capture -> (cursor -> capture -> option A) -> option A) :
  (forall s g k x, body s g k = Some x ->
     exists s' g', Match ic r s s' /\ k s' g' = Some x) ->
  forall n k s g x, star_loop body k n s g = Some x ->
    exists s' g', Match ic (Star r) s s' /\ k s' g' = Some x.
Proof.
  intros Hb n k. induction n as [|n IH]; simpl; intros s g x H.
  - exists s, g. split; [constructor | exact H].
  - destruct (body s g _) as [y|] eqn:E.
    + inversion H; subst y; clear H.
      apply Hb in E. destruct E as (s1 & g1 & M1 & K1).
      destruct (length (snd s1) <? length (snd s)) eqn:L; [|discriminate].
      apply Nat.ltb_lt in L.
      apply IH in K1. destruct K1 as (s2 & g2 & M2 & K2).
      exists s2, g2. split; [|exact K2]. eapply MStarS; eauto.
    + exists s, g. split; [constructor | exact H].
Qed.

Theorem rx_sound A r : forall s g (k : cursor -> capture -> option A) x,
  rx ic r s g k = Some x ->
  exists s' g', Match ic r s s' /\ k s' g' = Some x.
Proof.
  induction r; simpl; intros s g k x H.
  - eauto with rxdb.
  - apply step_if_some in H. destruct H as (y & rest & E & P & K).
    destruct s as [b t]; simpl in *; subst t. eauto with rxdb.
  - apply step_if_some in H. destruct H as (y & rest & E & P & K).
    destruct s as [b t]; simpl in *; subst t.
    exists (y :: b, rest), g. split; [|exact K]. constructor.
    intro; subst y. unfold newline in P. rewrite Ascii.eqb_refl in P. discriminate.
  - apply step_if_some in H. destruct H as (y & rest & E & P & K).
    destruct s as [b t]; simpl in *; subst t. eauto with rxdb.
  - apply IHr1 in H. destruct H as (s1 & g1 & M1 & H).
    apply IHr2 in H. destruct H as (s2 & g2 & M2 & H). eauto with rxdb.
  - destruct (rx ic r1 s g k) as [y|] eqn:E.
    + inversion H; subst y. apply IHr1 in E. destruct E as (s1 & g1 & M1 & K).
      eauto with rxdb.
    + apply IHr2 in H. destruct H as (s1 & g1 & M1 & K). eauto with rxdb.
  - apply star_loop_sound with (body := rx ic r) (n := S (length (snd s))) (g := g);
      [exact IHr | exact H].
  - apply IHr in H. destruct H as (s1 & g1 & M1 & K). eauto with rxdb.
  - destruct s as [[|c b] t]; simpl in *; [|discriminate]. eauto with rxdb.
  - destruct (at_eol s) eqn:E; [|discriminate]. eauto with rxdb.
  - destruct (at_wordb s) eqn:E; [|discriminate]. eauto with rxdb.
Qed.

Lemma star_loop_complete A r (body : cursor -> capture -> (cursor -> capture -> option A) -> option A) :
  (forall s s', Match ic r s s' -> forall g k,
      (forall g', k s' g' <> None) -> body s g k <> None) ->
  forall s s', Match ic (Star r) s s' ->
  forall n k g, length (snd s) < n -> (forall g', k s' g' <> None) ->
    star_loop body k n s g <> None.
Proof.
  intros Hb s s' M. remember (Star r) as r0 eqn:Er.
  induction M; try discriminate; inversion Er; subst; intros n k g Hn Hk.
  - destruct n; simpl; [apply Hk|].
    destruct (body s g _); [discriminate | apply Hk].
  - destruct n as [|n]; [lia|]. simpl.
    destruct (body s g _) as [y|] eqn:E; [discriminate|].
    exfalso. revert E. apply (Hb _ _ M1). intros g'.
    apply Nat.ltb_lt in H. rewrite H.
    apply IHM2; auto. apply Nat.ltb_lt in H. lia.
Qed.

Theorem rx_complete A r : forall s s', Match ic r s s' ->
  forall g (k : cursor -> capture -> option A),
    (forall g', k s' g' <> None) -> rx ic r s g k <> None.
Proof.
  induction r; intros s s' M g k Hk; inversion M; subst; simpl;
    unfold step_if; simpl;
    repeat match goal with
           | H : _ = true |- _ => rewrite H
           end; try apply Hk.
  - destruct (Ascii.eqb x newline) eqn:E; [apply Ascii.eqb_eq in E; contradiction|].
    apply Hk.
  - eapply IHr1; eauto.
  - destruct (rx ic r1 s g k) eqn:E; [discriminate|].
    exfalso. revert E. eapply IHr1; eauto.
  - destruct (rx ic r1 s g k) eqn:E; [discriminate|]. eapply IHr2; eauto.
  - destruct (rx ic r s' g _); [discriminate | apply Hk].
  - apply star_loop_complete with (r := r) (body := rx ic r) (s := s) (s' := s')
      (n := S (length (snd s))) (k := k) (g := g); auto.
  - eapply IHr; eauto.
Qed.

End MatcherFacts.

Lemma Match_consume ic r s s' :
  Match ic r s s' ->
  exists w, snd s = w ++ snd s' /\ fst s' = rev w ++ fst s.
Proof.
  induction 1; simpl;
    try (exists []; split; reflexivity);
    try (exists [x]; split; reflexivity);
    auto.
  - destruct IHMatch1 as (w1 & A1 & B1), IHMatch2 as (w2 & A2 & B2).
    exists (w1 ++ w2). rewrite A1, A2, B2, B1, rev_app_distr, !app_assoc. auto.
  - destruct IHMatch1 as (w1 & A1 & B1), IHMatch2 as (w2 & A2 & B2).
    exists (w1 ++ w2). rewrite A1, A2, B2, B1, rev_app_distr, !app_assoc. auto.
Qed.

(** *** Searching *)

Lemma match_at_some ic r s m :
  match_at ic r s = Some m ->
  exists s', Match ic r s s' /\ m_start m = cpos s /\ m_end m = cpos s'.
Proof.
  unfold match_at. intros H. apply rx_sound in H.
  destruct H as (s' & g' & M & E). inversion E; subst. simpl. eauto.
Qed.

Lemma match_at_found ic r s s' :
  Match ic r s s' -> match_at ic r s <> None.
Proof.
  intros M. unfold match_at. eapply rx_complete; eauto. discriminate.
Qed.

Lemma search_from_some ic r : forall s b m,
  search_from ic r b s = Some m ->
  exists pre post s',
    s = pre ++ post /\ Match ic r (rev pre ++ b, post) s' /\
    m_start m = length b + length pre /\ m_end m = cpos s'.
Proof.
  induction s as [|c s IH]; cbn -[match_at]; intros b m H.
  - destruct (match_at _ _ _) as [m'|] eqn:E; [|discriminate].
    inversion H; subst m'. apply match_at_some in E.
    destruct E as (s' & M & A & B). exists [], [], s'. simpl.
    unfold cpos in A; simpl in A. repeat split; auto; lia.
  - destruct (match_at _ _ _) as [m'|] eqn:E.
    + inversion H; subst m'. apply match_at_some in E.
      destruct E as (s' & M & A & B). exists [], (c :: s), s'. simpl.
      unfold cpos in A; simpl in A. repeat split; auto; lia.
    + apply IH in H. destruct H as (pre & post & s' & A & M & B & C).
      exists (c :: pre), post, s'. simpl. rewrite <- app_assoc. simpl.
      simpl in B. subst s. repeat split; auto; lia.
Qed.

Lemma search_from_found ic r : forall pre post b s',
  Match ic r (rev pre ++ b, post) s' ->
  search_from ic r b (pre ++ post) <> None.
Proof.
  induction pre as [|c pre IH]; cbn -[match_at]; intros post b s' M.
  - destruct post; cbn -[match_at];
      (destruct (match_at ic r _) eqn:E; [discriminate|]);
      exfalso; revert E; eapply match_at_found; eauto.
  - destruct (match_at ic r _); [discriminate|].
    eapply IH. rewrite <- app_assoc in M. simpl in M. eauto.
Qed.

Lemma re_search_found ic r pre post s' :
  Match ic r (rev pre, post) s' -> found (re_search_ic ic r (pre ++ post)) = true.
Proof.
  intros M. unfold re_search_ic.
  destruct (search_from ic r [] (pre ++ post)) eqn:E; [reflexivity|].
  exfalso. revert E. eapply search_from_found. rewrite app_nil_r. eauto.
Qed.

Lemma re_search_some ic r s m :
  re_search_ic ic r s = Some m ->
  exists pre post s',
    s = pre ++ post /\ Match ic r (rev pre, post) s' /\
    m_start m = length pre /\ m_end m = cpos s'.
Proof.
  intros H. apply search_from_some in H.
  destruct H as (pre & post & s' & A & M & B & C).
  rewrite app_nil_r in M. simpl in B. eauto 10.
Qed.

(** *** Literals and runs of one class *)

Lemma Match_Chr c b s st :
  Match false (Chr c) (b, s) st -> exists rest, s = c :: rest /\ st = (c :: b, rest).
Proof.
  intros M. inversion M; subst.
  match goal with
  | H : chr_match _ _ _ = true |- _ => simpl in H; apply Ascii.eqb_eq in H; subst
  end. eauto.
Qed.

Lemma Match_Lit : forall w b s st,
  Match false (Lit w) (b, s) st -> exists rest, s = w ++ rest /\ st = (rev w ++ b, rest).
Proof.
  induction w as [|c w IH]; intros b s st M.
  - inversion M; subst. exists s. auto.
  - destruct w as [|c' w].
    + apply Match_Chr in M. destruct M as (rest & A & B). exists rest. subst. auto.
    + change (Lit (c :: c' :: w)) with (Cat (Chr c) (Lit (c' :: w))) in M.
      split_cat M M1 M2.
      apply Match_Chr in M1. destruct M1 as (r1 & A & B). subst.
      apply IH in M2. destruct M2 as (rest & A & B). subst.
      exists rest. split; auto. simpl. rewrite <- !app_assoc. reflexivity.
Qed.

Lemma Lit_Match : forall w b rest,
  Match false (Lit w) (b, w ++ rest) (rev w ++ b, rest).
Proof.
  induction w as [|c w IH]; intros b rest.
  - constructor.
  - destruct w as [|c' w].
    + simpl. constructor. simpl. apply Ascii.eqb_refl.
    + change (Lit (c :: c' :: w)) with (Cat (Chr c) (Lit (c' :: w))).
      econstructor.
      * simpl. constructor. simpl. apply Ascii.eqb_refl.
      * replace (rev (c :: c' :: w) ++ b) with (rev (c' :: w) ++ c :: b).
        apply IH. simpl. rewrite <- !app_assoc. reflexivity.
Qed.

Lemma Match_Star_Cls ic neg items : forall s st,
  Match ic (Star (Cls neg items)) s st ->
  exists w, snd s = w ++ snd st /\ fst st = rev w ++ fst s /\
            Forall (fun c => cls_match ic neg items c = true) w.
Proof.
  intros s st M. remember (Star (Cls neg items)) as r eqn:Er.
  induction M; try discriminate; inversion Er; subst.
  - exists []. auto.
  - inversion M1; subst. simpl in *.
    destruct (IHM2 eq_refl) as (w & A & B & F).
    exists (x :: w). simpl. rewrite A, B, <- app_assoc. auto.
Qed.

Lemma Match_Plus_Cls ic neg items s st :
  Match ic (Plus (Cls neg items)) s st ->
  exists c w, snd s = c :: w ++ snd st /\ fst st = rev (c :: w) ++ fst s /\
              Forall (fun c => cls_match ic neg items c = true) (c :: w).
Proof.
  intros M. split_cat M M1 M2.
  inversion M1; subst.
  apply Match_Star_Cls in M2. simpl in *. destruct M2 as (w & A & B & F).
  exists x, w. rewrite A, B, <- app_assoc. auto.
Qed.

(** ** The lines of a slip *)

Lemma run_unique (p : ascii -> bool) : forall w1 w2 r1 r2 : str,
  w1 ++ r1 = w2 ++ r2 ->
  Forall (fun c => p c = true) w1 -> Forall (fun c => p c = true) w2 ->
  (forall c t, r1 = c :: t -> p c = false) ->
  (forall c t, r2 = c :: t -> p c = false) ->
  w1 = w2 /\ r1 = r2.
Proof.
  induction w1 as [|a w1 IH]; intros w2 r1 r2 E F1 F2 N1 N2.
  - destruct w2 as [|b w2]; [auto|]. simpl in E. exfalso.
    inversion F2; subst. rewrite (N1 _ _ eq_refl) in H1. discriminate.
  - destruct w2 as [|b w2].
    + simpl in E. exfalso. inversion F1; subst.
      rewrite (N2 _ _ eq_refl) in H1. discriminate.
    + simpl in E. inversion E; subst. inversion F1; inversion F2; subst.
      destruct (IH w2 r1 r2) as [A B]; auto. subst. auto.
Qed.

(** The shape of an entry line: digits, white space, the marker. *)
Lemma is_entry_shape line :
  is_entry line = true ->
  exists d ds sp rest,
    line = (d :: ds) ++ sp ++ lit "Magic-" ++ rest /\
    Forall (fun c => isdigit c = true) (d :: ds) /\
    Forall (fun c => isspace c = true) sp /\ sp <> [].
Proof.
  unfold is_entry, re_match, re_match_ic. intros H.
  destruct (match_at false re_entry ([], line)) as [m|] eqn:E; [|discriminate].
  apply match_at_some in E. destruct E as (s' & M & _).
  unfold re_entry in M.
  split_cat M M1 M2.
  inversion M1; subst.
  split_cat M2 M3 M4.
  apply Match_Plus_Cls in M3. destruct M3 as (d & ds & A & B & F).
  split_cat M4 M5 M6.
  apply Match_Plus_Cls in M5. destruct M5 as (c & sp & A5 & B5 & F5).
  destruct s1 as [b1 t1], s0 as [b0 t0]. simpl in *.
  apply (Match_Lit (lit "Magic-")) in M6. destruct M6 as (rest & A6 & B6).
  exists d, ds, (c :: sp), rest. subst. simpl. repeat split; try discriminate.
  - eapply Forall_impl; [|exact F]. intros a Ha. unfold cls_match in Ha. simpl in Ha.
    now rewrite orb_false_r in Ha.
  - eapply Forall_impl; [|exact F5]. intros a Ha. unfold cls_match in Ha. simpl in Ha.
    now rewrite orb_false_r in Ha.
Qed.

Lemma is_total_shape line :
  is_total line = true ->
  exists d ds sp rest,
    line = (d :: ds) ++ sp ++ lit "Total" ++ rest /\
    Forall (fun c => isdigit c = true) (d :: ds) /\
    Forall (fun c => isspace c = true) sp /\ sp <> [].
Proof.
  unfold is_total, re_match, re_match_ic. intros H.
  destruct (match_at false re_total ([], line)) as [m|] eqn:E; [|discriminate].
  apply match_at_some in E. destruct E as (s' & M & _).
  unfold re_total in M.
  split_cat M M1 M2.
  inversion M1; subst.
  split_cat M2 M3 M4.
  apply Match_Plus_Cls in M3. destruct M3 as (d & ds & A & B & F).
  split_cat M4 M5 M6.
  apply Match_Plus_Cls in M5. destruct M5 as (c & sp & A5 & B5 & F5).
  split_cat M6 M7 M8.
  destruct s1 as [b1 t1], s0 as [b0 t0]. simpl in *.
  apply (Match_Lit (lit "Total")) in M7. destruct M7 as (rest & A7 & B7).
  exists d, ds, (c :: sp), rest. subst. simpl. repeat split; try discriminate.
  - eapply Forall_impl; [|exact F]. intros a Ha. unfold cls_match in Ha. simpl in Ha.
    now rewrite orb_false_r in Ha.
  - eapply Forall_impl; [|exact F5]. intros a Ha. unfold cls_match in Ha. simpl in Ha.
    now rewrite orb_false_r in Ha.
Qed.

Lemma digit_not_space c : isdigit c = true -> isspace c = false.
Proof.
  unfold isdigit, isspace, in_range. intros H.
  apply andb_true_iff in H. destruct H as [A B].
  apply Nat.leb_le in A, B. change (code "0") with 48 in A. change (code "9") with 57 in B.
  cbv zeta. destruct (9 <=? code c) eqn:E1, (code c <=? 13) eqn:E2,
    (28 <=? code c) eqn:E3, (code c <=? 32) eqn:E4; simpl; auto;
    repeat match goal with
           | H : (_ <=? _) = true |- _ => apply Nat.leb_le in H
           end; lia.
Qed.

Lemma entry_not_total line : is_entry line = true -> is_total line = false.
Proof.
  intros He. destruct (is_total line) eqn:Ht; [|reflexivity]. exfalso.
  apply is_entry_shape in He. destruct He as (d & ds & sp & rest & E & Fd & Fs & Ns).
  apply is_total_shape in Ht.
  destruct Ht as (d' & ds' & sp' & rest' & E' & Fd' & Fs' & Ns').
  rewrite E in E'.
  destruct sp as [|x sp]; [congruence|]. destruct sp' as [|x' sp']; [congruence|].
  apply (run_unique isdigit) in E'; auto.
  - destruct E' as [_ E']. apply (run_unique isspace) in E'; auto.
    + destruct E' as [_ E']. discriminate.
    + intros c t Hc. inversion Hc. reflexivity.
    + intros c t Hc. inversion Hc. reflexivity.
  - intros c t Hc. inversion Hc; subst. inversion Fs; subst.
    destruct (isdigit c) eqn:D; auto. apply digit_not_space in D. congruence.
  - intros c t Hc. inversion Hc; subst. inversion Fs'; subst.
    destruct (isdigit c) eqn:D; auto. apply digit_not_space in D. congruence.
Qed.

Lemma startswith_cons c p d s :
  startswith (c :: p) (d :: s) = true -> c = d /\ startswith p s = true.
Proof.
  simpl. intros H. apply andb_true_iff in H. destruct H as [A B].
  apply Ascii.eqb_eq in A. auto.
Qed.

Lemma entry_not_header line : is_entry line = true -> is_header line = false.
Proof.
  intros He. apply is_entry_shape in He.
  destruct He as (d & ds & sp & rest & E & Fd & _). subst line.
  inversion Fd as [|? ? D _]; subst.
  destruct (is_header _) eqn:H; [|reflexivity]. exfalso.
  unfold is_header in H. apply orb_true_iff in H.
  destruct H as [H|H]; apply startswith_cons in H; destruct H as [H _];
    subst d; discriminate.
Qed.

Lemma entry_nonempty line : is_entry line = true -> nonempty line = true.
Proof.
  intros He. apply is_entry_shape in He.
  destruct He as (d & ds & sp & rest & E & _). subst. reflexivity.
Qed.

(** * The properties of the program *)

(** ** The continuation merger *)

Lemma noise_not_entry line : is_noise line = true -> is_entry line = false.
Proof.
  intros H. destruct (is_entry line) eqn:E; [|reflexivity].
  unfold is_noise in H. rewrite (entry_not_header _ E), (entry_not_total _ E) in H.
  discriminate.
Qed.

Lemma nonempty_app a b : nonempty a = true -> nonempty (a ++ b) = true.
Proof. destruct a; simpl; [discriminate | auto]. Qed.

Lemma merge_loop_pending : forall lines merged current,
  flush (fold_left merge_step lines (merged, current))
  = merged ++ pending current (map strip lines).
Proof.
  induction lines as [|line0 lines IH]; intros merged current.
  - simpl. unfold pending. destruct (nonempty current); simpl.
    + now rewrite app_nil_r.
    + now rewrite app_nil_r.
  - cbn [fold_left map]. unfold merge_step at 2.
    set (line := strip line0).
    destruct (nonempty line) eqn:Nl; cbn [negb].
    2:{ (* a blank line *)
      destruct line; [|discriminate]. rewrite IH.
      unfold pending. cbn [continuation_run merged_entries].
      change (continues []) with true. change (is_entry []) with false.
      cbn [concat app]. reflexivity. }
    destruct (is_header line) eqn:Hh.
    { (* a page header *)
      assert (Hn : is_noise line = true) by (unfold is_noise; now rewrite Hh).
      pose proof (noise_not_entry _ Hn) as Hne.
      unfold pending at 1. cbn [continuation_run merged_entries].
      unfold continues. rewrite Hn, Hne. cbn [negb andb concat].
      destruct (nonempty current) eqn:Nc; rewrite IH; unfold pending; simpl.
      - rewrite app_nil_r, <- app_assoc. reflexivity.
      - rewrite Nc. reflexivity. }
    destruct (is_total line) eqn:Ht.
    { (* the total line *)
      assert (Hn : is_noise line = true)
        by (unfold is_noise; rewrite Ht; apply orb_true_r).
      pose proof (noise_not_entry _ Hn) as Hne.
      unfold pending at 1. cbn [continuation_run merged_entries].
      unfold continues. rewrite Hn, Hne. cbn [negb andb concat].
      destruct (nonempty current) eqn:Nc; rewrite IH; unfold pending; simpl.
      - rewrite app_nil_r, <- app_assoc. reflexivity.
      - rewrite Nc. reflexivity. }
    assert (Hn : is_noise line = false) by (unfold is_noise; now rewrite Hh, Ht).
    destruct (is_entry line) eqn:He.
    { (* the start of an entry *)
      unfold pending at 1. cbn [continuation_run merged_entries].
      unfold continues. rewrite He. cbn [negb andb concat].
      destruct (nonempty current) eqn:Nc; rewrite IH; unfold pending;
        rewrite Nl; simpl.
      - rewrite app_nil_r, <- app_assoc. reflexivity.
      - reflexivity. }
    (* any other line *)
    unfold pending at 1. cbn [continuation_run merged_entries].
    unfold continues. rewrite He, Hn. cbn [negb andb concat].
    destruct (nonempty current) eqn:Nc; rewrite IH; unfold pending.
    + rewrite (nonempty_app _ line Nc), <- app_assoc. reflexivity.
    + rewrite Nc. reflexivity.
Qed.

Lemma merged_entries_length ls :
  length (merged_entries ls) = length (filter is_entry ls).
Proof.
  induction ls as [|l ls IH]; simpl; auto.
  destruct (is_entry l); simpl; auto.
Qed.

(** C5.  The merger gives one merged entry for each line of the entry shape,
    in the order of the lines, and the text of each is the entry line joined,
    character for character, with the lines after it up to the next entry
    line, noise line or the end; a last open entry is flushed.  The lines are
    read trimmed, as the merger trims them. *)
Theorem merger_completeness (lines : list str) :
  merge_continuation_lines lines = merged_entries (map strip lines) /\
  length (merge_continuation_lines lines)
  = length (filter is_entry (map strip lines)).
Proof.
  assert (E : merge_continuation_lines lines = merged_entries (map strip lines)).
  { unfold merge_continuation_lines.
    change (flush (fold_left merge_step lines ([], []))
            = merged_entries (map strip lines)).
    rewrite merge_loop_pending. reflexivity. }
  split; [exact E|]. rewrite E. apply merged_entries_length.
Qed.

(** ** The group/name splitter *)

Lemma startswith_app : forall p s, startswith p s = true -> s = p ++ skipn (length p) s.
Proof.
  induction p as [|c p IH]; intros s H; [reflexivity|].
  destruct s as [|d s]; [discriminate|].
  apply startswith_cons in H. destruct H as [-> H]. simpl. f_equal. auto.
Qed.

Lemma startswith_refl_app : forall p s, startswith p (p ++ s) = true.
Proof.
  induction p as [|c p IH]; intros s; simpl; [reflexivity|].
  now rewrite Ascii.eqb_refl, IH.
Qed.

Lemma match_prefix_some : forall ps d g r,
  match_prefix ps d = Some (g, r) -> In g ps /\ d = g ++ "-" :: r.
Proof.
  induction ps as [|p ps IH]; simpl; intros d g r H; [discriminate|].
  destruct (startswith (p ++ ["-"]) d) eqn:E.
  - inversion H; subst. split; [auto|].
    apply startswith_app in E. rewrite length_app, <- app_assoc in E. exact E.
  - apply IH in H. tauto.
Qed.

Lemma match_prefix_none : forall ps d,
  (forall p, In p ps -> startswith (p ++ ["-"]) d = false) ->
  match_prefix ps d = None.
Proof.
  induction ps as [|p ps IH]; simpl; intros d H; [reflexivity|].
  rewrite (H p) by auto. apply IH. auto.
Qed.

Lemma insert_by_len_in x y l : In x (insert_by_len y l) -> x = y \/ In x l.
Proof.
  induction l as [|z l IH]; simpl.
  - intros [H|[]]; auto.
  - destruct (length z <=? length y); simpl; intros [H|H]; auto.
    apply IH in H. tauto.
Qed.

Lemma sorted_by_len_desc_in x l : In x (sorted_by_len_desc l) -> In x l.
Proof.
  induction l as [|y l IH]; simpl; [auto|].
  intros H. apply insert_by_len_in in H. destruct H; auto.
Qed.

Lemma join_split x : forall s, join_chr x (split_chr x s) = s.
Proof.
  induction s as [|c s IH]; [reflexivity|]. simpl.
  destruct (Ascii.eqb c x) eqn:E.
  - apply Ascii.eqb_eq in E. subst c.
    destruct (split_chr x s) as [|p ps] eqn:S; simpl in *; [now subst|].
    now rewrite IH.
  - destruct (split_chr x s) as [|p ps] eqn:S; simpl in *; [now subst|].
    destruct ps; simpl in *; now subst.
Qed.

Lemma split_chr_nonnil x s : split_chr x s <> [].
Proof.
  destruct s as [|c s]; simpl; [discriminate|].
  destruct (Ascii.eqb c x); [discriminate|]. destruct (split_chr x s); discriminate.
Qed.

Lemma join_app x : forall a b, a <> [] -> b <> [] ->
  join_chr x (a ++ b) = join_chr x a ++ x :: join_chr x b.
Proof.
  induction a as [|p a IH]; intros b Ha Hb; [congruence|].
  destruct a as [|q a].
  - simpl. destruct b; [congruence|]. reflexivity.
  - change (join_chr x ((p :: q :: a) ++ b)) with (p ++ x :: join_chr x ((q :: a) ++ b)).
    rewrite IH by (auto; discriminate).
    change (join_chr x (p :: q :: a)) with (p ++ x :: join_chr x (q :: a)).
    rewrite <- app_assoc. reflexivity.
Qed.

(** The walk cuts the list of the parts in two, in place: the parts before
    the first one that looks like a card name, and the rest. *)
Lemma walk_found : forall parts j set_parts card_parts,
  walk j parts set_parts card_parts true = (set_parts, card_parts ++ parts).
Proof.
  induction parts as [|p parts IH]; intros j sp cp; simpl.
  - now rewrite app_nil_r.
  - rewrite IH, <- app_assoc. reflexivity.
Qed.

Lemma walk_cut : forall parts j set_parts card_parts,
  exists a b,
    walk j parts set_parts card_parts false = (set_parts ++ a, card_parts ++ b) /\
    a ++ b = parts /\
    (forall i part, nth_error a i = Some part -> starts_card (j + i) part = false) /\
    match b with
    | [] => True
    | p :: _ => starts_card (j + length a) p = true
    end.
Proof.
  induction parts as [|p parts IH]; intros j sp cp; simpl.
  - exists [], []. rewrite !app_nil_r. repeat split; auto.
    intros [|i] part H; discriminate.
  - destruct (starts_card j p) eqn:E.
    + rewrite walk_found. exists [], (p :: parts). rewrite app_nil_r, <- app_assoc.
      simpl. rewrite Nat.add_0_r. repeat split; auto.
      intros [|i] part H; discriminate.
    + destruct (IH (S j) (sp ++ [p]) cp) as (a & b & W & C & Ha & Hb).
      exists (p :: a), b. rewrite W, <- app_assoc. simpl. repeat split; auto.
      * now rewrite C.
      * intros [|i] part H; simpl in H.
        -- inversion H; subst. now rewrite Nat.add_0_r.
        -- rewrite Nat.add_succ_r. apply (Ha i part H).
      * rewrite Nat.add_succ_r. exact Hb.
Qed.

Lemma firstn_find_chr x : forall s k,
  find_chr x s = Some k -> s = firstn k s ++ x :: skipn (k + 1) s.
Proof.
  induction s as [|c s IH]; simpl; intros k H; [discriminate|].
  destruct (Ascii.eqb c x) eqn:E.
  - inversion H; subst. apply Ascii.eqb_eq in E. now subst.
  - destruct (find_chr x s) as [k'|]; [|discriminate]. inversion H; subst.
    simpl. f_equal. apply IH. reflexivity.
Qed.

Lemma anchor_split_some d g r :
  anchor_split d = Some (g, r) -> d = g ++ "-" :: r.
Proof.
  unfold anchor_split.
  destruct (re_search re_anchor d) as [m|]; [|discriminate].
  destruct (2 <=? _); [|discriminate].
  destruct (walk_cut (split_chr "-" (firstn (m_start m) d)) 0 [] [])
    as (a & b & W & C & _). rewrite W. cbn [app].
  destruct a as [|p a]; [discriminate|]. destruct b as [|q b]; [discriminate|].
  intros H. inversion H; subst g r. clear H.
  rewrite <- (firstn_skipn (m_start m) d) at 1.
  rewrite <- (join_split "-" (firstn (m_start m) d)), <- C.
  rewrite join_app by discriminate. rewrite <- app_assoc. reflexivity.
Qed.

Lemma naive_split_shape d g r :
  naive_split d = (g, r) -> d = g ++ "-" :: r \/ (g = lit "Unknown" /\ r = d).
Proof.
  unfold naive_split. destruct (find_chr "-" d) as [[|k]|] eqn:E; intros H;
    inversion H; subst; auto.
  left. apply firstn_find_chr in E. exact E.
Qed.

Lemma extract_cases d :
  (exists g r, match_prefix sorted_prefixes d = Some (g, r)
               /\ extract_set_and_card d = (g, r)) \/
  (match_prefix sorted_prefixes d = None /\
   exists g r, anchor_split d = Some (g, r) /\ extract_set_and_card d = (g, r)) \/
  (match_prefix sorted_prefixes d = None /\ anchor_split d = None /\
   extract_set_and_card d = naive_split d).
Proof.
  unfold extract_set_and_card.
  destruct (match_prefix sorted_prefixes d) as [[g r]|].
  - left. eauto.
  - right. destruct (anchor_split d) as [[g r]|].
    + left. eauto.
    + right. auto.
Qed.

(** Every result of the splitter is a cut at one hyphen, or the stand-in
    with the whole description. *)
Lemma extract_shape description group_raw remainder :
  extract_set_and_card description = (group_raw, remainder) ->
  description = group_raw ++ "-" :: remainder \/
  (group_raw = lit "Unknown" /\ remainder = description).
Proof.
  intros X.
  destruct (extract_cases description)
    as [(g & r & P & E) | [(_ & g & r & A & E) | (_ & _ & E)]];
    rewrite E in X.
  - inversion X; subst. left. apply match_prefix_some in P. tauto.
  - inversion X; subst. left. apply anchor_split_some. exact A.
  - apply naive_split_shape. exact X.
Qed.

(** C7, amended.  The splitter cuts the description at one hyphen, which it
    drops: the description is the group, a hyphen and the remainder; or the
    group is the stand-in Unknown and the remainder is the whole
    description. *)
Theorem split_reconstructs (description : str) :
  let (group_raw, remainder) := extract_set_and_card description in
  description = group_raw ++ "-" :: remainder \/
  (group_raw = lit "Unknown" /\ remainder = description).
Proof.
  destruct (extract_set_and_card description) as [group_raw remainder] eqn:X.
  now apply extract_shape.
Qed.

(** C7, as stated, fails: on a description with no hyphen the group is the
    stand-in, and group and remainder do not give the description back, with
    or without a hyphen between them. *)
Lemma split_reconstructs_counterexample :
  let description := lit "abc" in
  let (group_raw, remainder) := extract_set_and_card description in
  ~ (description = group_raw ++ remainder \/
     description = group_raw ++ "-" :: remainder).
Proof.
  vm_compute. intros [H|H]; discriminate.
Qed.

Lemma known_prefix_none d :
  (forall p, In p KNOWN_SET_PREFIXES -> startswith (lit p ++ ["-"]) d = false) ->
  match_prefix sorted_prefixes d = None.
Proof.
  intros H. apply match_prefix_none. intros p Hp.
  apply sorted_by_len_desc_in, in_map_iff in Hp. destruct Hp as (q & <- & Hq). auto.
Qed.

Lemma known_prefix_nonempty p : In p sorted_prefixes -> p <> [].
Proof.
  intros Hp. apply sorted_by_len_desc_in in Hp.
  assert (F : forallb nonempty (map lit KNOWN_SET_PREFIXES) = true) by reflexivity.
  rewrite forallb_forall in F. apply F in Hp. destruct p; [discriminate | discriminate].
Qed.

Lemma split_chr_head_empty x s q rest :
  split_chr x s = [] :: q :: rest -> startswith [x] s = true.
Proof.
  destruct s as [|c s]; simpl; [discriminate|].
  destruct (Ascii.eqb c x) eqn:E.
  - intros _. rewrite Ascii.eqb_sym, E. reflexivity.
  - destruct (split_chr x s); discriminate.
Qed.

Lemma startswith_firstn x n s :
  startswith [x] (firstn n s) = true -> startswith [x] s = true.
Proof.
  destruct n; simpl; [discriminate|]. destruct s; simpl; auto.
Qed.

Lemma join_chr_empty x p a : join_chr x (p :: a) = [] -> p = [] /\ a = [].
Proof.
  destruct a as [|q a]; simpl; [auto|].
  intros H. apply app_eq_nil in H. destruct H as [_ H]. discriminate.
Qed.

Lemma anchor_split_group d g r :
  anchor_split d = Some (g, r) -> startswith ["-"] d = false -> g <> [].
Proof.
  unfold anchor_split.
  destruct (re_search re_anchor d) as [m|]; [|discriminate].
  destruct (2 <=? _); [|discriminate].
  destruct (walk_cut (split_chr "-" (firstn (m_start m) d)) 0 [] [])
    as (a & b & W & C & _). rewrite W. cbn [app].
  destruct a as [|p a]; [discriminate|]. destruct b as [|q b]; [discriminate|].
  intros H Hd. inversion H; subst g r. clear H. intros J.
  apply join_chr_empty in J. destruct J; subst. simpl in C. symmetry in C.
  apply split_chr_head_empty, startswith_firstn in C. congruence.
Qed.

Lemma find_chr_zero x s : find_chr x s = Some 0 <-> startswith [x] s = true.
Proof.
  destruct s as [|c s]; simpl; [split; discriminate|].
  rewrite (Ascii.eqb_sym x c). destruct (Ascii.eqb c x); [tauto|].
  destruct (find_chr x s); simpl; split; discriminate.
Qed.

(** C2, amended.  A description with no anchor, no known prefix and no
    hyphen after a first part (no hyphen at all, or one in front) is given
    the stand-in group Unknown and is itself the remainder; and the group
    that the splitter returns is not empty when the description does not
    begin with a hyphen.  The splitter is a total function. *)
Theorem splitter_totality (description : str) :
  ((forall p, In p KNOWN_SET_PREFIXES ->
              startswith (lit p ++ ["-"]) description = false) ->
   re_search re_anchor description = None ->
   find_chr "-" description = None \/ find_chr "-" description = Some 0 ->
   extract_set_and_card description = (lit "Unknown", description)) /\
  (startswith ["-"] description = false ->
   fst (extract_set_and_card description) <> []).
Proof.
  split.
  - intros Hp Ha Hh. unfold extract_set_and_card, anchor_split, naive_split.
    rewrite (known_prefix_none _ Hp), Ha.
    destruct Hh as [-> | ->]; reflexivity.
  - intros Hd.
    destruct (extract_cases description)
      as [(g & r & P & E) | [(_ & g & r & A & E) | (_ & _ & E)]]; rewrite E.
    + apply match_prefix_some in P. destruct P as [P _].
      simpl. now apply known_prefix_nonempty.
    + simpl. eapply anchor_split_group; eauto.
    + unfold naive_split.
      destruct (find_chr "-" description) as [[|k]|] eqn:F; simpl; try discriminate.
      destruct description; [discriminate | discriminate].
Qed.

Lemma splitter_totality_witness :
  extract_set_and_card (lit "NoSeparator") = (lit "Unknown", lit "NoSeparator") /\
  fst (extract_set_and_card (lit "Foundations-SomeName-#123")) <> [].
Proof.
  split.
  - apply (proj1 (splitter_totality (lit "NoSeparator"))).
    + intros p Hp.
      assert (F : forallb (fun p : string =>
                             negb (startswith (lit p ++ ["-"]) (lit "NoSeparator")))
                          KNOWN_SET_PREFIXES = true) by reflexivity.
      rewrite forallb_forall in F. apply F in Hp. now apply negb_true_iff in Hp.
    + reflexivity.
    + left. reflexivity.
  - apply (proj2 (splitter_totality (lit "Foundations-SomeName-#123"))). reflexivity.
Defined.

(** C2, as stated, fails twice: a description with a hyphen, no anchor and no
    known prefix is cut at the hyphen, not given the group Unknown; and a
    description that begins with a hyphen can be given an empty group. *)
Lemma splitter_totality_counterexample :
  let description := lit "a-b" in
  (forall p, In p KNOWN_SET_PREFIXES ->
             startswith (lit p ++ ["-"]) description = false) /\
  re_search re_anchor description = None /\
  extract_set_and_card description = (lit "a", lit "b") /\
  extract_set_and_card description <> (lit "Unknown", description) /\
  fst (extract_set_and_card (lit "-Card-#1")) = [].
Proof.
  cbv zeta. repeat split.
  - intros p Hp.
    assert (F : forallb (fun p : string =>
                           negb (startswith (lit p ++ ["-"]) (lit "a-b")))
                        KNOWN_SET_PREFIXES = true) by reflexivity.
    rewrite forallb_forall in F. apply F in Hp. now apply negb_true_iff in Hp.
  - vm_compute. discriminate.
Qed.

Lemma find_chr_firstn x : forall s k n,
  find_chr x s = Some k -> k <= n -> n <= length s ->
  hd [] (split_chr x (firstn n s)) = firstn k s.
Proof.
  induction s as [|c s IH]; simpl; intros k n F Hk Hn; [discriminate|].
  destruct (Ascii.eqb c x) eqn:E.
  - inversion F; subst. destruct n; simpl; [reflexivity|]. now rewrite E.
  - destruct (find_chr x s) as [k'|] eqn:F'; [|discriminate]. inversion F; subst.
    destruct n as [|n]; [lia|]. simpl. rewrite E.
    specialize (IH k' n eq_refl ltac:(lia) ltac:(lia)).
    destruct (split_chr x (firstn n s)) eqn:S; simpl in *.
    + exfalso. revert S. apply split_chr_nonnil.
    + now subst.
Qed.

Lemma find_chr_none_firstn x : forall s n,
  find_chr x (firstn n s) = None -> hd [] (split_chr x (firstn n s)) = firstn n s.
Proof.
  intros s n. generalize (firstn n s) as t. clear.
  induction t as [|c t IH]; simpl; [reflexivity|].
  destruct (Ascii.eqb c x); [discriminate|].
  destruct (find_chr x t); [discriminate|]. intros _.
  specialize (IH eq_refl). destruct (split_chr x t); simpl in *; now subst.
Qed.

Lemma find_chr_app x : forall a b,
  find_chr x (a ++ x :: b) =
  match find_chr x a with Some k => Some k | None => Some (length a) end.
Proof.
  induction a as [|c a IH]; intros b; simpl.
  - now rewrite Ascii.eqb_refl.
  - destruct (Ascii.eqb c x); [reflexivity|]. rewrite IH.
    destruct (find_chr x a); reflexivity.
Qed.

Lemma find_chr_bound x : forall s k, find_chr x s = Some k -> k < length s.
Proof.
  induction s as [|c s IH]; simpl; intros k H; [discriminate|].
  destruct (Ascii.eqb c x); [inversion H; lia|].
  destruct (find_chr x s) as [k'|]; [|discriminate]. inversion H; subst.
  specialize (IH k' eq_refl). lia.
Qed.

(** The anchor begins with a hyphen. *)
Lemma anchor_at d m :
  re_search re_anchor d = Some m ->
  exists rest, d = firstn (m_start m) d ++ "-" :: rest /\ m_start m <= length d.
Proof.
  intros H. apply re_search_some in H.
  destruct H as (pre & post & s' & E & M & S & _).
  unfold re_anchor in M.
  split_cat M M1 M2.
  apply (Match_Lit (lit "-#")) in M1. destruct M1 as (rest & A & _). subst post.
  rewrite S, firstn_app, Nat.sub_diag, firstn_all, app_nil_r.
  exists ("#" :: rest). split; [reflexivity|]. rewrite length_app. lia.
Qed.

(** C3, amended.  When the walk over the parts before the anchor finds no
    part that looks like a card name, the anchor fallback returns nothing and
    the last resort cuts the description at its first hyphen: the first part
    alone is the group, and when it is empty the group is Unknown and the
    remainder the whole description. *)
Theorem anchor_walk_without_card (description : str) (number_match : rmatch) :
  match_prefix sorted_prefixes description = None ->
  re_search re_anchor description = Some number_match ->
  let parts := split_chr "-" (firstn (m_start number_match) description) in
  (forall j part, nth_error parts j = Some part -> starts_card j part = false) ->
  extract_set_and_card description = naive_split description /\
  (hd [] parts <> [] -> fst (extract_set_and_card description) = hd [] parts) /\
  (hd [] parts = [] ->
   extract_set_and_card description = (lit "Unknown", description)).
Proof.
  intros P A parts W.
  assert (E : extract_set_and_card description = naive_split description).
  { unfold extract_set_and_card, anchor_split. rewrite P, A. fold parts.
    destruct (2 <=? length parts); [|reflexivity].
    destruct (walk_cut parts 0 [] []) as (a & b & Wk & C & Ha & Hb).
    rewrite Wk. cbn [app]. destruct a as [|p a]; [reflexivity|].
    destruct b as [|q b]; [reflexivity|]. exfalso.
    simpl in Hb. rewrite (W (S (length a)) q) in Hb; [discriminate|].
    rewrite <- C. rewrite nth_error_app2 by (simpl; lia).
    simpl. now rewrite Nat.sub_diag. }
  destruct (anchor_at _ _ A) as (rest & D & L).
  assert (F : find_chr "-" description =
              match find_chr "-" (firstn (m_start number_match) description) with
              | Some k => Some k
              | None => Some (m_start number_match)
              end).
  { rewrite D at 1. rewrite find_chr_app. rewrite length_firstn, Nat.min_l by exact L.
    reflexivity. }
  assert (H : hd [] parts = match find_chr "-" description with
                            | Some k => firstn k description
                            | None => []
                            end).
  { rewrite F. unfold parts.
    destruct (find_chr "-" (firstn (m_start number_match) description)) as [k|] eqn:G.
    - pose proof (find_chr_bound _ _ _ G) as B.
      rewrite length_firstn, Nat.min_l in B by exact L.
      apply find_chr_firstn; [exact F | lia | exact L].
    - apply find_chr_none_firstn. exact G. }
  rewrite E. split; [reflexivity|]. unfold naive_split. clear P A W E D.
  destruct (find_chr "-" description) as [[|k]|] eqn:G; cbn [fst];
    try (destruct (find_chr "-" (firstn _ _)); discriminate F);
    split; intros N; auto; try congruence.
  - exfalso. apply N. rewrite H. reflexivity.
  - rewrite H in N. destruct description; [discriminate G | cbn [firstn] in N; discriminate N].
Qed.

Lemma anchor_walk_without_card_witness :
  let description := lit "abc-def-#12" in
  extract_set_and_card description = naive_split description /\
  (hd [] (split_chr "-" (firstn 7 description)) <> [] ->
   fst (extract_set_and_card description)
   = hd [] (split_chr "-" (firstn 7 description))) /\
  (hd [] (split_chr "-" (firstn 7 description)) = [] ->
   extract_set_and_card description = (lit "Unknown", description)).
Proof.
  apply (anchor_walk_without_card (lit "abc-def-#12") (mkMatch 7 11 None)).
  - reflexivity.
  - reflexivity.
  - intros [|[|[|j]]] part H; simpl in H; inversion H; reflexivity.
Defined.

(** C3, as stated, fails: no part before the anchor looks like a card name,
    and yet the second part is on the name side. *)
Lemma anchor_walk_counterexample :
  let description := lit "abc-def-#12" in
  match_prefix sorted_prefixes description = None /\
  exists number_match,
    re_search re_anchor description = Some number_match /\
    let parts := split_chr "-" (firstn (m_start number_match) description) in
    parts = [lit "abc"; lit "def"] /\
    (forall part, In part parts ->
       match part with c :: _ => isupper c | [] => false end = false) /\
    extract_set_and_card description = (lit "abc", lit "def-#12") /\
    fst (extract_set_and_card description) <> join_chr "-" parts.
Proof.
  cbv zeta. split; [reflexivity|]. exists (mkMatch 7 11 None).
  split; [reflexivity|]. split; [reflexivity|]. split.
  - intros part [<-|[<-|[]]]; reflexivity.
  - split; [reflexivity|]. vm_compute. discriminate.
Qed.

(** ** Trimming and containment *)

Lemma startswith_iff p s : startswith p s = true <-> exists b, s = p ++ b.
Proof.
  split.
  - intros H. exists (skipn (length p) s). now apply startswith_app.
  - intros (b & ->). apply startswith_refl_app.
Qed.

Lemma contains_iff w : forall s, contains w s = true <-> exists a b, s = a ++ w ++ b.
Proof.
  induction s as [|c s IH].
  - simpl. rewrite orb_false_r, startswith_iff. split.
    + intros (b & E). exists [], b. exact E.
    + intros (a & b & E). destruct a; [eauto|discriminate].
  - cbn [contains]. rewrite orb_true_iff, startswith_iff, IH. split.
    + intros [(b & E)|(a & b & E)].
      * exists [], b. exact E.
      * exists (c :: a), b. now rewrite E.
    + intros (a & b & E). destruct a as [|x a].
      * left. eauto.
      * right. inversion E; subst. eauto.
Qed.

Lemma bool_eq_iff (a b : bool) : (a = true <-> b = true) -> a = b.
Proof. destruct a, b; intuition congruence. Qed.




(** ** Lines that the parser refuses *)



(** ** Scenario A *)

(** C6.  The entry of scenario A gives a record with quantity 4, a set name
    that holds Foundations, collector number 123, rarity R, no foil, the
    condition Near Mint, the price 0.50 and the total 2.00. *)
Theorem scenario_A :
  exists c,
    parse_card_line (lit "4 Magic-Foundations-SomeName-#123-R-NearMint $0.50 $2.00")
    = Some c /\
    quantity c = 4%N /\
    contains (lit "Foundations") (set_name c) = true /\
    collector_number c = lit "123" /\
    rarity c = lit "R" /\
    is_foil c = false /\
    condition c = lit "Near Mint" /\
    (price c == 0.50)%Q /\
    (total_price c == 2.00)%Q.
Proof.
  eexists. split; [vm_compute; reflexivity|].
  cbn [quantity set_name collector_number rarity is_foil condition price total_price].
  repeat split; reflexivity.
Qed.

(** ** The fields read from the whole line *)

(** What a record says about the trimmed line it was read from. *)
Lemma parse_card_line_some line0 c :
  parse_card_line line0 = Some c ->
  let line := strip line0 in
  is_entry line = true /\
  contains (lit "Quantity") line = false /\
  contains (lit "Description") line = false /\
  (price c, total_price c) = extract_prices line /\
  is_foil c = contains (lit "Foil") line /\
  condition c = find_condition line /\
  language c = find_language language_patterns line.
Proof.
  unfold parse_card_line, is_entry. cbv zeta.
  destruct (re_match re_entry (strip line0)); [|discriminate].
  destruct (contains (lit "Quantity") (strip line0) || contains (lit "Description") (strip line0)) eqn:Q;
    [discriminate|].
  apply orb_false_iff in Q. destruct Q as [Q1 Q2].
  destruct (re_match re_quantity (strip line0)); [|discriminate].
  destruct (extract_prices (strip line0)) as [p t].
  destruct (re_search re_magic _); [|discriminate].
  destruct (extract_set_and_card _) as [set_name remainder].
  destruct (re_search re_variant _); intros H; inversion H; subst c; clear H;
    cbn [price total_price is_foil condition language]; auto 10.
Qed.


(** ** The language of a line *)

Lemma language_patterns_of_rules :
  language_patterns = map (fun r => (pattern_of (fst r), snd r)) language_rules.
Proof. reflexivity. Qed.

Lemma dash_or_space_bound x :
  cls_match false false [CLit "-"; CSpace] x = is_bound x.
Proof. unfold cls_match, is_bound. simpl. now rewrite orb_false_r. Qed.

Lemma fenced_iff w : forall s,
  fenced w s = true <->
  exists pre x rest, s = pre ++ x :: w ++ rest /\ is_bound x = true
                     /\ bound_or_end rest = true.
Proof.
  induction s as [|c s IH].
  - simpl. split; [discriminate|]. intros (pre & x & rest & E & _).
    destruct pre; discriminate.
  - cbn [fenced]. rewrite orb_true_iff, !andb_true_iff, IH, startswith_iff. split.
    + intros [[[B (b & E)] R]|(pre & x & rest & E & B & R)].
      * exists [], c, b. subst s. rewrite skipn_app, Nat.sub_diag, skipn_all in R.
        simpl in R. auto.
      * exists (c :: pre), x, rest. subst s. auto.
    + intros (pre & x & rest & E & B & R). destruct pre as [|p pre].
      * left. simpl in E. inversion E; subst. split; [split; [auto | eauto]|].
        now rewrite skipn_app, Nat.sub_diag, skipn_all.
      * right. inversion E; subst. eauto 10.
Qed.

Lemma ends_with_iff w s : ends_with w s = true <-> exists pre, s = pre ++ w.
Proof.
  unfold ends_with. rewrite startswith_iff. split.
  - intros (b & E). exists (rev b).
    rewrite <- (rev_involutive s), E, rev_app_distr. now rewrite rev_involutive.
  - intros (pre & E). exists (rev pre). subst s. apply rev_app_distr.
Qed.

Lemma at_eol_bound_or_end b rest : at_eol (b, rest) = true -> bound_or_end rest = true.
Proof.
  unfold at_eol. simpl. destruct rest as [|c [|d rest]]; try discriminate; auto.
  intros H. apply Ascii.eqb_eq in H. subst c. reflexivity.
Qed.

(** A language name is found when it is fenced, and only when it is fenced
    or ends the text. *)
Lemma re_language_fenced (w : string) line :
  fenced w line = true -> found (re_search (re_language w) line) = true.
Proof.
  intros H. apply fenced_iff in H. destruct H as (pre & x & rest & E & B & R).
  subst line. destruct rest as [|y rest].
  - (* the name ends the text: the second branch, one character on *)
    replace (pre ++ x :: lit w ++ []) with ((pre ++ [x]) ++ lit w ++ [])
      by (now rewrite <- app_assoc).
    eapply re_search_found. unfold re_language. apply MAltR.
    econstructor; [apply Lit_Match|]. constructor. reflexivity.
  - eapply re_search_found. unfold re_language. apply MAltL.
    econstructor.
    + constructor. rewrite dash_or_space_bound. exact B.
    + econstructor; [apply Lit_Match|].
      constructor. rewrite dash_or_space_bound. exact R.
Qed.

Lemma re_language_can (w : string) line :
  found (re_search (re_language w) line) = true ->
  fenced w line || ends_text w line = true.
Proof.
  unfold found. destruct (re_search (re_language w) line) as [m|] eqn:S; [|discriminate].
  intros _. apply re_search_some in S. destruct S as (pre & post & s' & E & M & _).
  apply orb_true_iff. unfold re_language in M.
  split_alt M ML MR.
  - left. apply fenced_iff.
    split_cat ML M1 M2.
    inversion M1; subst.
    split_cat M2 M3 M4.
    apply Match_Lit in M3. destruct M3 as (r3 & A & B). subst.
    inversion M4; subst.
    repeat match goal with
           | H : cls_match _ _ _ _ = true |- _ => rewrite dash_or_space_bound in H
           end.
    exists pre, x. eexists. split; [reflexivity|]. auto.
  - right. unfold ends_text. apply orb_true_iff.
    split_cat MR M1 M2.
    destruct s1 as [b1 t1]. apply Match_Lit in M1. destruct M1 as (r1 & A & B).
    inversion B; subst. inversion M2; subst.
    match goal with
    | H : at_eol _ = true |- _ => unfold at_eol in H; cbn [snd] in H
    end.
    destruct r1 as [|c [|d r1]]; try discriminate.
    + left. apply ends_with_iff. exists pre. now rewrite app_nil_r.
    + right. apply ends_with_iff. exists pre.
      match goal with
      | H : Ascii.eqb _ _ = true |- _ => apply Ascii.eqb_eq in H; subst c
      end.
      reflexivity.
Qed.

Lemma re_anywhere (w1 w2 : string) line :
  found (re_search (Alt (Lit w1) (Lit w2)) line) = contains w1 line || contains w2 line.
Proof.
  apply bool_eq_iff. rewrite orb_true_iff, !contains_iff. split.
  - unfold found. destruct (re_search _ line) as [m|] eqn:S; [|discriminate].
    intros _. apply re_search_some in S. destruct S as (pre & post & s' & E & M & _).
    split_alt M ML MR.
    + apply Match_Lit in ML. destruct ML as (r & A & _). subst. left. eauto.
    + apply Match_Lit in MR. destruct MR as (r & A & _). subst. right. eauto.
  - intros [(a & b & E)|(a & b & E)]; subst line; eapply re_search_found.
    + apply MAltL. apply Lit_Match.
    + apply MAltR. apply Lit_Match.
Qed.

Lemma pattern_of_surely rule line :
  surely_applies rule line = true -> found (re_search (pattern_of rule) line) = true.
Proof.
  destruct rule as [w|w1 w2]; simpl.
  - apply re_language_fenced.
  - now rewrite re_anywhere.
Qed.

Lemma pattern_of_can rule line :
  found (re_search (pattern_of rule) line) = true -> can_apply rule line = true.
Proof.
  destruct rule as [w|w1 w2]; simpl.
  - apply re_language_can.
  - now rewrite re_anywhere.
Qed.

Lemma find_language_first : forall before rule name after line,
  (forall r n, In (r, n) before -> can_apply r line = false) ->
  surely_applies rule line = true ->
  find_language (map (fun r => (pattern_of (fst r), snd r))
                     (before ++ (rule, name) :: after)) line
  = Some (lit name).
Proof.
  induction before as [|[r n] before IH]; intros rule name after line Hb Hs.
  - cbn [app map find_language fst snd]. apply pattern_of_surely in Hs.
    destruct (re_search (pattern_of rule) line); [reflexivity | discriminate].
  - cbn [app map find_language fst snd].
    destruct (re_search (pattern_of r) line) as [m|] eqn:S.
    + assert (F : found (re_search (pattern_of r) line) = true) by now rewrite S.
      apply pattern_of_can in F. rewrite (Hb r n) in F by (left; reflexivity).
      discriminate.
    + apply IH; auto. intros r' n' Hin. apply (Hb r' n'). now right.
Qed.

Lemma find_language_none : forall rules line,
  (forall r n, In (r, n) rules -> surely_applies r line = false) ->
  (forall r n, In (r, n) rules -> can_apply r line = false) ->
  find_language (map (fun r => (pattern_of (fst r), snd r)) rules) line = None.
Proof.
  induction rules as [|[r n] rules IH]; intros line _ Hc; [reflexivity|].
  cbn [map find_language fst snd].
  destruct (re_search (pattern_of r) line) as [m|] eqn:S.
  - assert (F : found (re_search (pattern_of r) line) = true) by now rewrite S.
    apply pattern_of_can in F. rewrite (Hc r n) in F by (left; reflexivity).
    discriminate.
  - apply IH; intros r' n' Hin; [|apply (Hc r' n'); now right].
    destruct (surely_applies r' line) eqn:Q; [|reflexivity].
    apply pattern_of_surely, pattern_of_can in Q.
    rewrite (Hc r' n') in Q by now right. discriminate.
Qed.

(** C8, amended.  The language of a record is read from an ordered table,
    the first rule that matches winning.  A rule of one language name
    matches where the name is fenced: a hyphen or white space right before
    it, and a hyphen, white space or the end of the text right after it.  It
    matches nowhere else, but for one case that is left open: the name at
    the very end of the text with no hyphen or white space before it.  The
    two Chinese rules match wherever one of their compound names occurs,
    with no bound asked for.  So a rule whose name is fenced gives its
    language when no rule before it can match, and when no rule can match
    the language is unset. *)
Theorem language_first_match (line0 : str) (c : Card) :
  parse_card_line line0 = Some c ->
  let line := strip line0 in
  (forall before rule name after,
     language_rules = before ++ (rule, name) :: after ->
     (forall r n, In (r, n) before -> can_apply r line = false) ->
     surely_applies rule line = true ->
     language c = Some (lit name)) /\
  ((forall r n, In (r, n) language_rules -> can_apply r line = false) ->
   language c = None).
Proof.
  intros H. apply parse_card_line_some in H.
  destruct H as (_ & _ & _ & _ & _ & _ & L). cbv zeta. rewrite L.
  rewrite language_patterns_of_rules. split.
  - intros before rule name after E Hb Hs. rewrite E.
    now apply find_language_first.
  - intros Hc. apply find_language_none; [|exact Hc].
    intros r n Hin. destruct (surely_applies r (strip line0)) eqn:Q; [|reflexivity].
    apply pattern_of_surely, pattern_of_can in Q.
    rewrite (Hc r n Hin) in Q. discriminate.
Qed.

(** A German card whose text also holds the name of an earlier rule inside
    a longer word: the earlier rule cannot match, and the card is German. *)
Lemma language_first_match_witness :
  let line :=
    lit "1 Magic-Foundations-Opt notJapanese-#51-C-NearMint-German $0.25 $0.25" in
  exists c, parse_card_line line = Some c /\ language c = Some (lit "German").
Proof.
  cbv zeta.
  destruct (parse_card_line
              (lit "1 Magic-Foundations-Opt notJapanese-#51-C-NearMint-German $0.25 $0.25"))
    as [c|] eqn:E.
  - exists c. split; [reflexivity|].
    apply (proj1 (language_first_match _ c E) [(Fenced "Japanese", "Japanese"%string)]
                 (Fenced "German") "German"%string (tl (tl language_rules))).
    + reflexivity.
    + intros r n [H|[]]. injection H as <- <-. vm_compute. reflexivity.
    + vm_compute. reflexivity.
  - exfalso. vm_compute in E. discriminate E.
Defined.

(** A language name inside a longer word, away from the end of the text,
    gives no language. *)
Example language_inside_word_unset :
  let line := lit "1 Magic-Foundations-NotJapanese-Card-#51-C-NearMint $0.25 $0.25" in
  exists c, parse_card_line line = Some c /\ language c = None /\
            forallb (fun rn => negb (can_apply (fst rn) (strip line))) language_rules = true.
Proof.
  cbv zeta. eexists. split; [vm_compute; reflexivity|].
  split; vm_compute; reflexivity.
Qed.

(** C8, as stated, fails.  The compound name of a Chinese rule is found
    inside a longer word, with no hyphen, white space or edge of the text on
    either side of it; and the name of a single language is found at the end
    of the text with a letter right before it. *)
Lemma language_first_match_counterexample :
  let line := lit "1 Magic-Set-SimplifiedChineseName-#7-R-NearMint $1.00 $1.00" in
  let tail := lit "1 Magic-Set-Name-#7-R-NearMint $1.00 $1.00 NotJapanese" in
  (exists c,
     parse_card_line line = Some c /\
     language c = Some (lit "Chinese (Simplified)") /\
     edge_bounded (lit "SimplifiedChinese") (strip line) = false /\
     edge_bounded (lit "ChineseSimplified") (strip line) = false) /\
  (exists c,
     parse_card_line tail = Some c /\
     language c = Some (lit "Japanese") /\
     edge_bounded (lit "Japanese") (strip tail) = false).
Proof.
  cbv zeta. split; eexists; (split; [vm_compute; reflexivity|]);
    repeat split; vm_compute; reflexivity.
Qed.

(** ** The matcher on the patterns of the line parser *)

Lemma search_from_at ic r : forall s b m,
  search_from ic r b s = Some m ->
  exists pre post, s = pre ++ post /\ match_at ic r (rev pre ++ b, post) = Some m.
Proof.
  induction s as [|c s IH]; cbn -[match_at]; intros b m H.
  - destruct (match_at _ _ _) as [m'|] eqn:E; [|discriminate].
    exists [], []. inversion H; subst. auto.
  - destruct (match_at _ _ _) as [m'|] eqn:E.
    + exists [], (c :: s). inversion H; subst. auto.
    + apply IH in H. destruct H as (pre & post & A & M).
      exists (c :: pre), post. simpl. rewrite <- app_assoc. simpl. subst. auto.
Qed.

Lemma re_search_at ic r s m :
  re_search_ic ic r s = Some m ->
  exists pre post, s = pre ++ post /\ match_at ic r (rev pre, post) = Some m.
Proof.
  intros H. apply search_from_at in H. destruct H as (pre & post & A & M).
  rewrite app_nil_r in M. eauto.
Qed.

Lemma rx_Cat A ic r1 r2 s g (k : cursor -> capture -> option A) :
  rx ic (Cat r1 r2) s g k = rx ic r1 s g (fun s1 g1 => rx ic r2 s1 g1 k).
Proof. reflexivity. Qed.

Lemma rx_Grp A ic r s g (k : cursor -> capture -> option A) :
  rx ic (Grp r) s g k = rx ic r s g (fun s1 _ => k s1 (Some (cpos s, cpos s1))).
Proof. reflexivity. Qed.

Lemma rx_Star A ic r s g (k : cursor -> capture -> option A) :
  rx ic (Star r) s g k = star_loop (rx ic r) k (S (length (snd s))) s g.
Proof. reflexivity. Qed.

Lemma rx_Dot A ic : @rx A ic Dot = step_if not_newline.
Proof. reflexivity. Qed.

Lemma rx_Cls A ic neg items : @rx A ic (Cls neg items) = step_if (cls_match ic neg items).
Proof. reflexivity. Qed.

(** A literal is matched in one way. *)
Lemma rx_Chr A c b s g (k : cursor -> capture -> option A) :
  rx false (Chr c) (b, s) g k
  = match s with
    | d :: s' => if Ascii.eqb c d then k (c :: b, s') g else None
    | [] => None
    end.
Proof.
  cbn [rx]. unfold step_if. cbn [snd fst]. destruct s as [|d s]; [reflexivity|].
  unfold chr_match. rewrite Ascii.eqb_sym. destruct (Ascii.eqb c d) eqn:E; [|reflexivity].
  apply Ascii.eqb_eq in E. now subst.
Qed.

Lemma rx_Lit A : forall w b s g (k : cursor -> capture -> option A),
  rx false (Lit w) (b, s) g k
  = if startswith w s then k (rev w ++ b, skipn (length w) s) g else None.
Proof.
  induction w as [|c w IH]; intros b s g k; [reflexivity|].
  destruct w as [|c' w].
  - change (Lit [c]) with (Chr c). rewrite rx_Chr.
    destruct s as [|d s]; [reflexivity|]. cbn [startswith].
    destruct (Ascii.eqb c d); reflexivity.
  - change (Lit (c :: c' :: w)) with (Cat (Chr c) (Lit (c' :: w))).
    rewrite rx_Cat, rx_Chr. destruct s as [|d s]; [reflexivity|].
    change (startswith (c :: c' :: w) (d :: s))
      with (Ascii.eqb c d && startswith (c' :: w) s).
    destruct (Ascii.eqb c d); [|reflexivity].
    rewrite IH. cbn [andb]. destruct (startswith (c' :: w) s); [|reflexivity].
    change (skipn (length (c :: c' :: w)) (d :: s)) with (skipn (length (c' :: w)) s).
    change (rev (c :: c' :: w)) with (rev (c' :: w) ++ [c]).
    rewrite <- !app_assoc. reflexivity.
Qed.

Lemma run_of_after p : forall s, s = run_of p s ++ after_run p s.
Proof.
  induction s as [|c s IH]; simpl; [reflexivity|].
  destruct (p c); simpl; [now f_equal | reflexivity].
Qed.

Lemma after_run_head p s : match after_run p s with
                           | [] => True
                           | c :: _ => p c = false
                           end.
Proof.
  induction s as [|c s IH]; simpl; [exact I|].
  destruct (p c) eqn:E; [exact IH | exact E].
Qed.

Lemma run_of_all p s : Forall (fun c => p c = true) (run_of p s).
Proof.
  induction s as [|c s IH]; simpl; [constructor|].
  destruct (p c) eqn:E; [constructor; auto | constructor].
Qed.

(** The greedy repetition of one character class takes the longest run,
    when the rest of the pattern accepts whatever is left. *)
Lemma star_loop_run A (p : ascii -> bool) (k : cursor -> capture -> option A) :
  (forall s g, k s g <> None) ->
  forall s n b g, length s < n ->
    star_loop (step_if p) k n (b, s) g
    = k (rev (run_of p s) ++ b, after_run p s) g.
Proof.
  intros Hk. induction s as [|c s IH]; intros n b g Hn.
  - destruct n; [simpl in Hn; lia|]. reflexivity.
  - destruct n as [|n]; [simpl in Hn; lia|].
    cbn [star_loop step_if snd fst run_of after_run].
    destruct (p c) eqn:E.
    + cbn [length]. rewrite (proj2 (Nat.ltb_lt _ _) (Nat.lt_succ_diag_r _)).
      rewrite IH by (simpl in Hn; lia).
      cbn [rev]. rewrite <- app_assoc. cbn [app].
      destruct (k _ g) eqn:K; [reflexivity|]. exfalso. revert K. apply Hk.
    + reflexivity.
Qed.

(** The search for the marker: the text after the marker, up to the end of
    its line. *)
Lemma match_at_magic b post m :
  match_at false re_magic (b, post) = Some m ->
  exists c rest,
    post = lit "Magic-" ++ c :: rest /\ not_newline c = true /\
    m_g1 m = Some (length b + 6, length b + 7 + length (run_of not_newline rest)).
Proof.
  unfold match_at, re_magic. rewrite rx_Cat, rx_Lit.
  destruct (startswith (lit "Magic-") post) eqn:S; [|discriminate].
  apply startswith_app in S. set (t := skipn (length (lit "Magic-")) post) in *.
  unfold Plus. rewrite rx_Grp, rx_Cat, rx_Dot. unfold step_if at 1. cbn [snd fst].
  destruct t as [|c rest] eqn:T; [discriminate|].
  destruct (not_newline c) eqn:N; [|discriminate].
  rewrite rx_Star, rx_Dot. cbn [snd].
  rewrite star_loop_run; [|discriminate | lia].
  intros H. inversion H; subst m; clear H. cbn [m_g1].
  exists c, rest. split; [exact S|]. split; [exact N|].
  unfold cpos. cbn [fst]. rewrite length_app, length_rev. cbn [length].
  f_equal. f_equal; lia.
Qed.

(** ** Lines with no dollar amount and no collector number *)

Lemma has_pair_iff p q : forall s,
  has_pair p q s = true <->
  exists pre c d rest, s = pre ++ c :: d :: rest /\ p c = true /\ q d = true.
Proof.
  induction s as [|c s IH].
  - simpl. split; [discriminate|]. intros (pre & x & d & rest & E & _).
    destruct pre; discriminate.
  - cbn [has_pair]. destruct s as [|d s].
    + split; [discriminate|]. intros (pre & x & y & rest & E & _).
      destruct pre as [|? [|? ?]]; discriminate.
    + rewrite orb_true_iff, andb_true_iff, IH. split.
      * intros [[P Q]|(pre & x & y & rest & E & P & Q)].
        -- exists [], c, d, s. auto.
        -- exists (c :: pre), x, y, rest. rewrite E. auto.
      * intros (pre & x & y & rest & E & P & Q). destruct pre as [|z pre].
        -- left. inversion E; subst. auto.
        -- right. inversion E; subst. eauto 10.
Qed.

Lemma has_pair_inside p q a s b :
  has_pair p q (a ++ s ++ b) = false -> has_pair p q s = false.
Proof.
  intros H. destruct (has_pair p q s) eqn:E; [|reflexivity].
  apply has_pair_iff in E. destruct E as (pre & c & d & rest & E & P & Q).
  rewrite <- H. symmetry. apply has_pair_iff.
  exists (a ++ pre), c, d, (rest ++ b). subst s.
  rewrite <- !app_assoc. simpl. auto.
Qed.

Lemma lstrip_after_run s : lstrip s = after_run isspace s.
Proof. induction s as [|c s IH]; simpl; [reflexivity|]. now rewrite IH. Qed.

Lemma rstrip_decompose t :
  exists w, t = rstrip t ++ w /\ Forall (fun c => isspace c = true) w.
Proof.
  unfold rstrip. exists (rev (run_of isspace (rev t))). split.
  - rewrite <- rev_app_distr, lstrip_after_run, <- run_of_after.
    now rewrite rev_involutive.
  - apply Forall_rev, run_of_all.
Qed.

Lemma strip_decompose s :
  exists w1 w2, s = w1 ++ strip s ++ w2 /\ Forall (fun c => isspace c = true) w2.
Proof.
  unfold strip. destruct (rstrip_decompose (lstrip s)) as (w2 & E & F).
  exists (run_of isspace s), w2. split; [|exact F].
  rewrite <- E, lstrip_after_run. apply run_of_after.
Qed.

(** A dollar amount begins with a dollar sign and a digit. *)
Lemma digit_cls x : cls_match false false [CDigit] x = isdigit x.
Proof. unfold cls_match. simpl. now rewrite orb_false_r. Qed.

Lemma Match_Plus_digit s st :
  Match false (Plus digit) s st -> exists d rest, snd s = d :: rest /\ isdigit d = true.
Proof.
  intros M. apply Match_Plus_Cls in M. destruct M as (c & w & A & _ & F).
  inversion F; subst. rewrite digit_cls in *. simpl. rewrite A. eauto.
Qed.

Lemma Match_sign_digits x r b post st :
  Match false (Cat (Chr x) (Cat (Plus digit) r)) (b, post) st ->
  exists d rest, post = x :: d :: rest /\ isdigit d = true.
Proof.
  intros M. split_cat M M1 M2.
  apply Match_Chr in M1. destruct M1 as (t & A & B). subst.
  split_cat M2 M3 M4.
  apply Match_Plus_digit in M3. destruct M3 as (d & rest & E & D). simpl in E.
  subst. eauto.
Qed.

Lemma Match_sign_group_digits x r b post st :
  Match false (Cat (Chr x) (Grp (Cat (Plus digit) r))) (b, post) st ->
  exists d rest, post = x :: d :: rest /\ isdigit d = true.
Proof.
  intros M. split_cat M M1 M2.
  open_grp M2 M3.
  eapply Match_sign_digits. econstructor; eauto.
Qed.

Lemma Match_sign_group_number x b post st :
  Match false (Cat (Chr x) (Grp (Plus digit))) (b, post) st ->
  exists d rest, post = x :: d :: rest /\ isdigit d = true.
Proof.
  intros M. split_cat M M1 M2.
  apply Match_Chr in M1. destruct M1 as (t & A & B). subst.
  open_grp M2 M3.
  apply Match_Plus_digit in M3. destruct M3 as (d & rest & E & D). simpl in E.
  subst. eauto.
Qed.

Lemma match_at_none ic r s :
  (forall s', ~ Match ic r s s') -> match_at ic r s = None.
Proof.
  intros H. destruct (match_at ic r s) as [m|] eqn:E; [|reflexivity].
  apply match_at_some in E. destruct E as (s' & M & _). now apply H in M.
Qed.

Lemma re_search_none ic r s :
  (forall pre post s', s = pre ++ post -> ~ Match ic r (rev pre, post) s') ->
  re_search_ic ic r s = None.
Proof.
  intros H. destruct (re_search_ic ic r s) as [m|] eqn:E; [|reflexivity].
  apply re_search_some in E. destruct E as (pre & post & s' & A & M & _).
  now apply H in M.
Qed.

Lemma scan_none ic r : forall s b,
  (forall pre post s', s = pre ++ post -> ~ Match ic r (rev pre ++ b, post) s') ->
  scan ic r b s 0 = map (fun c => inl [c]) s.
Proof.
  induction s as [|c s IH]; intros b H; cbn -[match_at].
  - rewrite match_at_none; [reflexivity|]. intros s'. now apply (H [] []).
  - rewrite match_at_none by (intros s'; now apply (H [] (c :: s))).
    f_equal. apply IH. intros pre post s' E M.
    apply (H (c :: pre) post s'); [now rewrite E|].
    simpl. now rewrite <- app_assoc.
Qed.

Lemma no_amount_no_price line :
  has_amount line = false ->
  forall r, r = Grp (Cat (Plus digit) (Cat (Opt (Chr ".")) (Star digit))) \/
            r = Cat (Plus digit) (Cat (Opt (Chr ".")) (Star digit)) ->
  scan false (Cat (Chr "$") r) [] line 0 = map (fun c => inl [c]) line.
Proof.
  intros H r Hr. apply scan_none. intros pre post s' E M.
  assert (D : exists d rest, post = "$" :: d :: rest /\ isdigit d = true).
  { destruct Hr; subst r.
    - eapply Match_sign_group_digits; eauto.
    - eapply Match_sign_digits; eauto. }
  destruct D as (d & rest & P & D). subst.
  assert (T : has_amount (pre ++ "$" :: d :: rest) = true).
  { apply has_pair_iff. exists pre, "$", d, rest. auto. }
  congruence.
Qed.

Lemma concat_map_inl (f : rmatch -> str) (s : str) :
  concat (map (fun p : str + rmatch => match p with inl u => u | inr m => f m end)
              (map (fun c => inl [c]) s)) = s.
Proof. induction s as [|c s IH]; simpl; [reflexivity | now rewrite IH]. Qed.

Lemma concat_map_inl_nil (f : rmatch -> list str) (s : str) :
  concat (map (fun p : str + rmatch => match p with inl _ => [] | inr m => f m end)
              (map (fun c => inl [c]) s)) = [].
Proof. induction s as [|c s IH]; simpl; [reflexivity | exact IH]. Qed.

Lemma no_amount_prices line :
  has_amount line = false -> extract_prices line = (0%Q, 0%Q).
Proof.
  intros H. unfold extract_prices, re_findall, re_price.
  rewrite (no_amount_no_price _ H) by (left; reflexivity).
  now rewrite concat_map_inl_nil.
Qed.

Lemma no_amount_sub line :
  has_amount line = false -> re_sub re_price_plain [] line = line.
Proof.
  intros H. unfold re_sub, re_sub_ic, re_price_plain.
  rewrite (no_amount_no_price _ H) by (right; reflexivity).
  apply concat_map_inl.
Qed.

Lemma no_amount_rarity line :
  has_amount line = false -> re_search re_rarity_after_price line = None.
Proof.
  intros H. apply re_search_none. intros pre post s' E M.
  apply Match_sign_digits in M. destruct M as (d & rest & P & D). subst.
  assert (T : has_amount (pre ++ "$" :: d :: rest) = true).
  { apply has_pair_iff. exists pre, "$", d, rest. auto. }
  congruence.
Qed.

Lemma no_number_search s :
  has_number s = false -> re_search re_number s = None.
Proof.
  intros H. apply re_search_none. intros pre post s' E M.
  apply Match_sign_group_number in M. destruct M as (d & rest & P & D). subst.
  assert (T : has_number (pre ++ "#" :: d :: rest) = true).
  { apply has_pair_iff. exists pre, "#", d, rest. auto. }
  congruence.
Qed.

Lemma Plus_Cls_Match ic neg items : forall w c b rest,
  Forall (fun x => cls_match ic neg items x = true) (c :: w) ->
  Match ic (Plus (Cls neg items)) (b, (c :: w) ++ rest) (rev (c :: w) ++ b, rest).
Proof.
  intros w c b rest F. inversion F as [|? ? Hc Hw]; subst.
  unfold Plus. econstructor; [constructor; exact Hc|].
  clear F Hc. revert c b. induction w as [|x w IH]; intros c b.
  - simpl. constructor.
  - inversion Hw as [|? ? Hx Hw']; subst.
    eapply MStarS.
    + simpl. constructor. exact Hx.
    + simpl. lia.
    + specialize (IH Hw' x (c :: b)).
      replace (rev (c :: x :: w) ++ b) with (rev (x :: w) ++ c :: b)
        by (simpl; now rewrite <- !app_assoc).
      exact IH.
Qed.

Lemma space_cls x : cls_match false false [CSpace] x = isspace x.
Proof. unfold cls_match. simpl. now rewrite orb_false_r. Qed.

(** A line of the entry shape has a quantity. *)
Lemma entry_has_quantity line :
  is_entry line = true -> exists m, re_match re_quantity line = Some m.
Proof.
  intros H. apply is_entry_shape in H.
  destruct H as (d & ds & sp & rest & E & Fd & Fs & Ns).
  destruct sp as [|x sp]; [congruence|].
  destruct (re_match re_quantity line) as [m|] eqn:Q; [eauto|]. exfalso.
  revert Q. unfold re_match, re_match_ic. subst line.
  eapply match_at_found. unfold re_quantity.
  econstructor; [constructor|]. econstructor.
  - constructor. apply Plus_Cls_Match.
    eapply Forall_impl; [|exact Fd]. intros a Ha. now rewrite digit_cls.
  - apply Plus_Cls_Match.
    eapply Forall_impl; [|exact Fs]. intros a Ha. now rewrite space_cls.
Qed.

Lemma marker_text_iff : forall s,
  marker_text s = true <->
  exists pre c rest, s = pre ++ lit "Magic-" ++ c :: rest /\ not_newline c = true.
Proof.
  assert (Here : forall s,
    startswith (lit "Magic-") s
    && match skipn 6 s with c :: _ => negb (Ascii.eqb c newline) | [] => false end = true
    <-> exists c rest, s = lit "Magic-" ++ c :: rest /\ not_newline c = true).
  { intros s. rewrite andb_true_iff, startswith_iff. split.
    - intros [(t & E) N]. subst s.
      change 6 with (length (lit "Magic-")) in N.
      rewrite skipn_app, Nat.sub_diag, skipn_all in N. simpl in N.
      destruct t as [|c rest]; [discriminate|]. eauto.
    - intros (c & rest & E & N). subst s. split; [eauto|]. exact N. }
  induction s as [|x s IH].
  - cbn [marker_text]. rewrite orb_false_r, Here. split.
    + intros (c & rest & E & _). discriminate.
    + intros (pre & c & rest & E & _). destruct pre; discriminate.
  - cbn [marker_text]. rewrite orb_true_iff, Here, IH. split.
    + intros [(c & rest & E & N)|(pre & c & rest & E & N)].
      * exists [], c, rest. auto.
      * exists (x :: pre), c, rest. rewrite E. auto.
    + intros (pre & c & rest & E & N). destruct pre as [|y pre].
      * left. exists c, rest. auto.
      * right. inversion E; subst. exists pre, c, rest. auto.
Qed.

(** The text that the search for the marker hands on, trimmed, lies in the
    line, and what comes after it there is white space or nothing. *)
Lemma description_in_line line :
  marker_text line = true ->
  exists m, re_search re_magic line = Some m /\
    exists A B, line = A ++ strip (group1 line m) ++ B /\ bound_or_end B = true.
Proof.
  intros H. apply marker_text_iff in H. destruct H as (pre0 & c0 & rest0 & E0 & N0).
  destruct (re_search re_magic line) as [m|] eqn:S.
  2:{ exfalso. revert S. unfold re_search, re_search_ic. subst line.
      eapply search_from_found. rewrite app_nil_r. unfold re_magic.
      econstructor; [apply Lit_Match|]. constructor. unfold Plus.
      econstructor; [|apply MStar0]. constructor.
      intro; subst c0. discriminate. }
  exists m. split; [reflexivity|]. clear pre0 c0 rest0 E0 N0.
  apply re_search_at in S. destruct S as (pre & post & E & M).
  apply match_at_magic in M. destruct M as (c & rest & P & N & G).
  set (g := c :: run_of not_newline rest).
  assert (Hg : group1 line m = g).
  { unfold group1, slice. rewrite G, length_rev. subst line post.
    rewrite app_assoc, skipn_app.
    rewrite skipn_all2 by (rewrite length_app; simpl; lia).
    rewrite length_app. change (length (lit "Magic-")) with 6.
    replace (length pre + 6 - (length pre + 6)) with 0 by lia.
    replace (length pre + 7 + length (run_of not_newline rest) - (length pre + 6))
      with (S (length (run_of not_newline rest))) by lia.
    cbn [app skipn firstn]. unfold g. f_equal.
    rewrite (run_of_after not_newline rest) at 2.
    rewrite firstn_app, Nat.sub_diag, firstn_all. simpl. now rewrite app_nil_r. }
  rewrite Hg. destruct (strip_decompose g) as (w1 & w2 & Dg & F2).
  exists ((pre ++ lit "Magic-") ++ w1), (w2 ++ after_run not_newline rest). split.
  - subst line post. rewrite (run_of_after not_newline rest) at 1.
    change (c :: run_of not_newline rest ++ after_run not_newline rest)
      with (g ++ after_run not_newline rest).
    rewrite Dg at 1. now rewrite <- !app_assoc.
  - destruct w2 as [|x w2].
    + simpl. pose proof (after_run_head not_newline rest) as Hh.
      destruct (after_run not_newline rest) as [|y t]; [reflexivity|].
      simpl. unfold not_newline in Hh. apply negb_false_iff, Ascii.eqb_eq in Hh.
      subst y. reflexivity.
    + inversion F2; subst. simpl. unfold is_bound.
      match goal with H : isspace x = true |- _ => rewrite H end.
      apply orb_true_r.
Qed.

(** *** The tier letter *)

Lemma tier_mark_iff : forall s,
  tier_mark s = true <->
  exists a x t, s = a ++ "-" :: x :: t /\ is_tier x = true /\ tier_follow t = true.
Proof.
  induction s as [|c s IH].
  - simpl. split; [discriminate|]. intros (a & x & t & E & _). destruct a; discriminate.
  - cbn [tier_mark]. rewrite orb_true_iff, andb_true_iff, IH. split.
    + intros [[C H]|(a & x & t & E & T & F)].
      * apply Ascii.eqb_eq in C. subst c. destruct s as [|x t]; [discriminate|].
        apply andb_true_iff in H. exists [], x, t. tauto.
      * exists (c :: a), x, t. rewrite E. auto.
    + intros (a & x & t & E & T & F). destruct a as [|y a].
      * left. inversion E; subst. rewrite T, F. auto.
      * right. inversion E; subst. exists a, x, t. auto.
Qed.

Lemma tier_cls x :
  cls_match false false [CLit "M"; CLit "R"; CLit "U"; CLit "C"; CLit "S"] x
  = is_tier x.
Proof. reflexivity. Qed.

Lemma follow_keyword (w : string) t B :
  In w tier_followers -> startswith w t = true -> tier_follow (t ++ B) = true.
Proof.
  intros Hin S. unfold tier_follow. apply orb_true_iff. right.
  apply existsb_exists. exists w. split; [exact Hin|].
  apply startswith_iff in S. destruct S as (u & ->).
  rewrite <- app_assoc. apply startswith_refl_app.
Qed.

Lemma Match_opt_dash_word (w : string) b t st B :
  In w tier_followers ->
  Match false (Cat (Opt (Chr "-")) (Lit w)) (b, t) st ->
  tier_follow (t ++ B) = true.
Proof.
  intros Hin M. split_cat M M1 M2.
  split_alt M1 ML MR.
  - apply Match_Chr in ML. destruct ML as (u & E & _). subst t. reflexivity.
  - inversion MR; subst. apply Match_Lit in M2. destruct M2 as (u & E & _).
    eapply follow_keyword; eauto. apply startswith_iff. eauto.
Qed.

(** What the second tier pattern asks after the letter. *)
Lemma Match_tier_tail b t st B :
  Match false
    (Alts (Eol :: map (fun w : string => Cat (Opt (Chr "-")) (Lit w)) tier_followers))
    (b, t) st ->
  bound_or_end B = true ->
  tier_follow (t ++ B) = true.
Proof.
  intros M HB. cbn [Alts map tier_followers] in M.
  repeat match goal with
         | H : Match false (Alt _ _) _ _ |- _ =>
             let L := fresh "ML" in
             let R := fresh "MR" in
             inversion H as [| | | | |? ? ? ? L|? ? ? ? R| | | | | |]; subst; clear H
         end;
    try solve
      [ eapply (Match_opt_dash_word "Near"); [simpl; tauto | eassumption]
      | eapply (Match_opt_dash_word "Lightly"); [simpl; tauto | eassumption]
      | eapply (Match_opt_dash_word "Moderately"); [simpl; tauto | eassumption]
      | eapply (Match_opt_dash_word "Heavily"); [simpl; tauto | eassumption]
      | eapply (Match_opt_dash_word "Foil"); [simpl; tauto | eassumption] ].
  match goal with
  | H : Match false Eol _ _ |- _ => inversion H as [| | | | | | | | | | |? E|]; subst
  end.
  unfold at_eol in E. cbn [snd] in E. unfold tier_follow. apply orb_true_iff. left.
  destruct t as [|c [|d t]]; try discriminate.
  - exact HB.
  - apply Ascii.eqb_eq in E. subst c. reflexivity.
Qed.

Lemma no_tier_mark_search A remainder B :
  bound_or_end B = true ->
  tier_mark (A ++ remainder ++ B) = false ->
  re_search re_rarity_mid remainder = None /\
  re_search re_rarity_end remainder = None.
Proof.
  intros HB H.
  assert (No : forall pre x t, remainder = pre ++ "-" :: x :: t -> is_tier x = true ->
                               tier_follow (t ++ B) = true -> False).
  { intros pre x t E T F.
    assert (Y : tier_mark (A ++ remainder ++ B) = true).
    { apply tier_mark_iff. exists (A ++ pre), x, (t ++ B). subst remainder.
      rewrite <- !app_assoc. simpl. auto. }
    congruence. }
  split; apply re_search_none; intros pre post s' E M.
  - unfold re_rarity_mid in M.
    split_cat M M1 M2.
    apply Match_Chr in M1. destruct M1 as (u & E1 & ->). subst post.
    split_cat M2 M3 M4.
    open_grp M3 M5.
    inversion M5 as [| | |? ? ? x t T| | | | | | | | |]; subst.
    apply Match_Chr in M4. destruct M4 as (v & E4 & _). subst t.
    apply (No pre x ("-" :: v) eq_refl); [now rewrite <- tier_cls | reflexivity].
  - unfold re_rarity_end in M.
    split_cat M M1 M2.
    apply Match_Chr in M1. destruct M1 as (u & E1 & ->). subst post.
    split_cat M2 M3 M4.
    open_grp M3 M5.
    inversion M5 as [| | |? ? ? x t T| | | | | | | | |]; subst.
    apply (No pre x t eq_refl); [now rewrite <- tier_cls|].
    eapply Match_tier_tail; eauto.
Qed.

(** *** The other fields *)

Lemma no_condition_named line :
  names_condition line = false -> find_condition line = lit "Near Mint".
Proof.
  unfold names_condition, find_condition. cbn [existsb condition_words].
  intros H. repeat (apply orb_false_iff in H; destruct H as [? H]).
  repeat match goal with
         | E : contains _ line = false |- _ => rewrite E; clear E
         end.
  reflexivity.
Qed.

Lemma fenced_contains w s : fenced w s = true -> contains w s = true.
Proof.
  intros H. apply fenced_iff in H. destruct H as (pre & x & rest & E & _).
  apply contains_iff. exists (pre ++ [x]), rest. now rewrite <- app_assoc.
Qed.

Lemma ends_text_contains w s : ends_text w s = true -> contains w s = true.
Proof.
  unfold ends_text. intros H. apply orb_true_iff in H. apply contains_iff.
  destruct H as [H|H]; apply ends_with_iff in H; destruct H as (pre & E).
  - exists pre, []. now rewrite app_nil_r.
  - exists pre, [newline]. exact E.
Qed.

Lemma no_language_named line :
  names_language line = false ->
  forall r n, In (r, n) language_rules -> can_apply r line = false.
Proof.
  unfold names_language. intros H r n Hin.
  destruct (can_apply r line) eqn:C; [|reflexivity]. rewrite <- H. symmetry.
  apply existsb_exists. exists (r, n). split; [exact Hin|]. cbn [fst].
  destruct r as [w|w1 w2]; cbn [keywords_of existsb can_apply] in *.
  - apply orb_true_iff in C.
    destruct C as [C|C]; [apply fenced_contains in C | apply ends_text_contains in C];
      now rewrite C.
  - now rewrite orb_false_r.
Qed.

Lemma extract_remainder_suffix d :
  exists u, d = u ++ snd (extract_set_and_card d).
Proof.
  destruct (extract_set_and_card d) as [g r] eqn:X. cbn [snd].
  destruct (extract_shape _ _ _ X) as [E|[_ E]].
  - exists (g ++ ["-"]). now rewrite <- app_assoc.
  - exists []. now subst.
Qed.

(** C9, amended.  A line of the entry shape (trimmed) that holds neither the
    word Quantity nor the word Description, has text after the marker, and
    holds no dollar amount and no collector number, gives a record: its
    prices are 0, its collector number is empty, and each of the rarity, the
    foil flag, the condition and the language has its default (R, false,
    Near Mint, unset) when the line holds no mark of it. *)
Theorem sparse_entry_defaults (line0 : str) :
  let line := strip line0 in
  is_entry line = true ->
  contains (lit "Quantity") line = false ->
  contains (lit "Description") line = false ->
  marker_text line = true ->
  has_amount line = false ->
  has_number line = false ->
  exists c,
    parse_card_line line0 = Some c /\
    price c = 0%Q /\ total_price c = 0%Q /\
    collector_number c = [] /\
    (tier_mark line = false -> rarity c = lit "R") /\
    (contains (lit "Foil") line = false -> is_foil c = false) /\
    (names_condition line = false -> condition c = lit "Near Mint") /\
    (names_language line = false -> language c = None).
Proof.
  cbv zeta. set (line := strip line0).
  intros He Hq Hd Hm Ha Hn.
  destruct (entry_has_quantity _ He) as (qm & Q).
  destruct (description_in_line _ Hm) as (mm & S & A & B & EL & HB).
  destruct (extract_remainder_suffix (strip (group1 line mm))) as (u & ER).
  unfold parse_card_line. cbv zeta. fold line.
  unfold is_entry in He.
  destruct (re_match re_entry line); [|discriminate].
  rewrite Hq, Hd, Q. cbn [orb].
  rewrite (no_amount_prices _ Ha), (no_amount_sub _ Ha), S.
  destruct (extract_set_and_card (strip (group1 line mm))) as [grp rem] eqn:X.
  cbn [snd] in ER.
  assert (EL' : line = (A ++ u) ++ rem ++ B).
  { rewrite EL at 1. rewrite ER. now rewrite <- !app_assoc. }
  assert (Nr : re_search re_number rem = None).
  { apply no_number_search. rewrite EL' in Hn. eapply has_pair_inside. exact Hn. }
  rewrite Nr.
  destruct (re_search re_variant _) as [vm|]; eexists; (split; [reflexivity|]);
    cbn [price total_price collector_number rarity is_foil condition language];
    (repeat split; auto;
     [ intros Ht; unfold find_rarity;
       rewrite EL' in Ht;
       destruct (no_tier_mark_search _ _ _ HB Ht) as [-> ->];
       now rewrite (no_amount_rarity _ Ha)
     | apply no_condition_named
     | intros Hl; rewrite language_patterns_of_rules;
       apply find_language_none;
       [ intros r0 n0 Hin; destruct (surely_applies r0 line) eqn:Y; [|reflexivity];
         apply pattern_of_surely, pattern_of_can in Y;
         rewrite (no_language_named _ Hl r0 n0 Hin) in Y; discriminate
       | apply no_language_named; exact Hl ] ]).
Qed.

Lemma sparse_entry_defaults_witness :
  let line0 := lit "2 Magic-Foundations-Opt" in
  exists c,
    parse_card_line line0 = Some c /\
    price c = 0%Q /\ total_price c = 0%Q /\
    collector_number c = [] /\
    rarity c = lit "R" /\ is_foil c = false /\
    condition c = lit "Near Mint" /\ language c = None.
Proof.
  cbv zeta.
  destruct (sparse_entry_defaults (lit "2 Magic-Foundations-Opt"))
    as (c & P & H1 & H2 & H3 & H4 & H5 & H6 & H7);
    try (vm_compute; reflexivity).
  exists c.
  split; [exact P|]. split; [exact H1|]. split; [exact H2|]. split; [exact H3|].
  split; [apply H4; vm_compute; reflexivity|].
  split; [apply H5; vm_compute; reflexivity|].
  split; [apply H6; vm_compute; reflexivity|].
  apply H7; vm_compute; reflexivity.
Defined.

(** C9, as stated, fails: a line of the entry shape with no dollar amount
    and no collector number gives no record when it holds the word Quantity,
    and none when nothing follows the marker. *)
Lemma sparse_entry_defaults_counterexample :
  let with_word := lit "3 Magic-Foundations-QuantityTheory-R-NearMint" in
  let bare := lit "3 Magic-" in
  (is_entry (strip with_word) = true /\
   has_amount with_word = false /\ has_number with_word = false /\
   re_findall re_price (strip with_word) = [] /\
   re_search re_number (strip with_word) = None /\
   parse_card_line with_word = None) /\
  (is_entry (strip bare) = true /\
   has_amount bare = false /\ has_number bare = false /\
   re_findall re_price (strip bare) = [] /\
   re_search re_number (strip bare) = None /\
   parse_card_line bare = None).
Proof.
  cbv zeta. repeat split; vm_compute; reflexivity.
Qed.

(** ** The dollar amounts *)

Lemma rx_Alt A ic r1 r2 s g (k : cursor -> capture -> option A) :
  rx ic (Alt r1 r2) s g k
  = match rx ic r1 s g k with Some x => Some x | None => rx ic r2 s g k end.
Proof. reflexivity. Qed.

Lemma rx_Eps A ic s g (k : cursor -> capture -> option A) : rx ic Eps s g k = k s g.
Proof. reflexivity. Qed.

Lemma run_of_ext p q : (forall c, p c = q c) -> forall s, run_of p s = run_of q s.
Proof.
  intros H. induction s as [|c s IH]; simpl; [reflexivity|].
  rewrite H, IH. reflexivity.
Qed.

Lemma after_run_ext p q : (forall c, p c = q c) -> forall s, after_run p s = after_run q s.
Proof.
  intros H. induction s as [|c s IH]; simpl; [reflexivity|].
  rewrite H, IH. reflexivity.
Qed.

Lemma run_of_after_run p s : run_of p (after_run p s) = [].
Proof.
  pose proof (after_run_head p s) as H.
  destruct (after_run p s) as [|c t]; [reflexivity|]. simpl. now rewrite H.
Qed.

Lemma amount_at_text s tok :
  amount_at s = Some tok -> exists rest, s = "$" :: tok ++ rest /\ tok <> [].
Proof.
  unfold amount_at. destruct s as [|c t]; [discriminate|].
  destruct (Ascii.eqb c "$") eqn:C; [|discriminate]. apply Ascii.eqb_eq in C. subst c.
  pose proof (run_of_after isdigit t) as R.
  destruct (run_of isdigit t) as [|d ds] eqn:D; [discriminate|].
  destruct (after_run isdigit t) as [|x t2] eqn:T.
  - intros H. injection H as <-. exists []. rewrite R at 1.
    split; [reflexivity|discriminate].
  - destruct (Ascii.eqb x ".") eqn:X; intros H; injection H as <-.
    + exists (after_run isdigit t2). split; [|discriminate].
      rewrite R at 1. rewrite (run_of_after isdigit t2) at 1.
      simpl. now rewrite <- app_assoc.
    + exists (x :: t2). split; [|discriminate]. now rewrite R at 1.
Qed.

(** The digits of a repetition, with the end of the match after them. *)
Lemma rx_digits_end (i j : nat) b t g :
  rx false (Star digit) (b, t) g
     (fun s1 _ => Some (mkMatch i (cpos s1) (Some (j, cpos s1))))
  = Some (mkMatch i (length b + length (run_of isdigit t))
            (Some (j, length b + length (run_of isdigit t)))).
Proof.
  unfold digit. rewrite rx_Star, rx_Cls. cbn [snd].
  rewrite star_loop_run; [|discriminate | lia].
  unfold cpos. cbn [fst]. rewrite length_app, length_rev.
  rewrite (run_of_ext _ isdigit digit_cls).
  rewrite (Nat.add_comm (length (run_of isdigit t))). reflexivity.
Qed.

(** The optional point and the digits after it. *)
Lemma rx_point_digits (i j : nat) b t g :
  rx false (Cat (Opt (Chr ".")) (Star digit)) (b, t) g
     (fun s1 _ => Some (mkMatch i (cpos s1) (Some (j, cpos s1))))
  = match t with
    | d :: t2 =>
        if Ascii.eqb d "."
        then Some (mkMatch i (length b + 1 + length (run_of isdigit t2))
                     (Some (j, length b + 1 + length (run_of isdigit t2))))
        else Some (mkMatch i (length b + length (run_of isdigit t))
                     (Some (j, length b + length (run_of isdigit t))))
    | [] => Some (mkMatch i (length b) (Some (j, length b)))
    end.
Proof.
  unfold Opt. rewrite rx_Cat, rx_Alt, rx_Chr, rx_Eps.
  destruct t as [|d t2].
  - rewrite rx_digits_end. cbn [run_of length]. now rewrite Nat.add_0_r.
  - rewrite Ascii.eqb_sym. destruct (Ascii.eqb d ".") eqn:E.
    + rewrite rx_digits_end. cbn [length].
      replace (S (length b) + length (run_of isdigit t2))
        with (length b + 1 + length (run_of isdigit t2)) by lia.
      reflexivity.
    + now rewrite rx_digits_end.
Qed.

Lemma mkMatch_eq i j a i' j' a' :
  i = i' -> j = j' -> a = a' ->
  Some (mkMatch i j (Some (a, j))) = Some (mkMatch i' j' (Some (a', j'))).
Proof. intros; subst; reflexivity. Qed.

(** The price pattern is matched in one way: the amount at the cursor. *)
Lemma match_at_price b s :
  match_at false re_price (b, s)
  = option_map (fun tok => mkMatch (length b) (length b + 1 + length tok)
                             (Some (length b + 1, length b + 1 + length tok)))
               (amount_at s).
Proof.
  unfold match_at, re_price. rewrite rx_Cat, rx_Chr. unfold amount_at.
  destruct s as [|c t]; [reflexivity|].
  rewrite Ascii.eqb_sym. destruct (Ascii.eqb c "$") eqn:C; [|reflexivity].
  unfold Plus. rewrite rx_Grp, !rx_Cat. unfold digit at 1. rewrite rx_Cls.
  unfold step_if at 1. cbn [snd fst].
  destruct t as [|d t]; [reflexivity|]. rewrite digit_cls.
  cbn [run_of after_run]. destruct (isdigit d) eqn:D; [|reflexivity].
  unfold digit at 1. rewrite rx_Star, rx_Cls. cbn [snd].
  rewrite star_loop_run; [| |lia].
  2:{ intros [b1 t1] g1. unfold cpos. cbn [fst]. rewrite rx_point_digits.
      destruct t1 as [|x t1]; [discriminate|]. destruct (Ascii.eqb x "."); discriminate. }
  unfold cpos. cbn [fst]. rewrite rx_point_digits.
  rewrite (run_of_ext _ isdigit digit_cls), (after_run_ext _ isdigit digit_cls).
  rewrite length_app, length_rev. cbn [length].
  pose proof (run_of_after_run isdigit t) as Z.
  destruct (after_run isdigit t) as [|x t2].
  - cbn [option_map]. apply mkMatch_eq; cbn [length]; lia.
  - destruct (Ascii.eqb x ".") eqn:X; cbn [option_map].
    + apply mkMatch_eq; rewrite ?length_app; cbn [length]; lia.
    + rewrite Z. apply mkMatch_eq; cbn [length]; lia.
Qed.

Lemma slice_middle (a t r : str) :
  slice (length a) (length a + length t) (a ++ t ++ r) = t.
Proof.
  unfold slice. rewrite skipn_app, skipn_all, Nat.sub_diag. cbn [skipn app].
  replace (length a + length t - length a) with (length t) by lia.
  rewrite firstn_app, Nat.sub_diag, firstn_all. cbn [firstn]. apply app_nil_r.
Qed.

(** What [re.findall] gives for the price pattern: the amounts of the
    text. *)
Lemma findall_price_from : forall s b skip,
  concat (map (fun p : str + rmatch =>
                 match p with
                 | inl _ => []
                 | inr m => [group1 (rev b ++ s) m]
                 end) (scan false re_price b s skip))
  = dollar_amounts_from skip s.
Proof.
  induction s as [|c s IH]; intros b skip.
  - destruct skip; cbn -[match_at]; [|reflexivity].
    rewrite match_at_price. reflexivity.
  - destruct skip as [|k].
    + cbn -[match_at amount_at]. rewrite match_at_price.
      destruct (amount_at (c :: s)) as [tok|] eqn:T; cbn [option_map].
      * destruct (amount_at_text _ _ T) as (rest & E & Ne).
        cbn [m_end m_start].
        replace (length b + 1 + length tok =? length b) with false
          by (symmetry; apply Nat.eqb_neq; lia).
        replace (length b + 1 + length tok - length b - 1) with (length tok) by lia.
        cbn [map concat app]. f_equal.
        -- unfold group1. cbn [m_g1]. rewrite E.
           replace (rev b ++ "$" :: tok ++ rest) with ((rev b ++ ["$"]) ++ tok ++ rest)
             by (now rewrite <- app_assoc).
           replace (length b + 1) with (length (rev b ++ ["$"]))
             by (rewrite length_app, length_rev; reflexivity).
           apply slice_middle.
        -- specialize (IH (c :: b) (length tok)). cbn [rev] in IH.
           rewrite <- app_assoc in IH. exact IH.
      * cbn [map concat app]. specialize (IH (c :: b) 0). cbn [rev] in IH.
        rewrite <- app_assoc in IH. exact IH.
    + cbn -[match_at]. specialize (IH (c :: b) k). cbn [rev] in IH.
      rewrite <- app_assoc in IH. exact IH.
Qed.

Lemma findall_price s : re_findall re_price s = dollar_amounts s.
Proof. unfold re_findall, dollar_amounts. apply (findall_price_from s [] 0). Qed.

Lemma space_not_digit c : isspace c = true -> isdigit c = false.
Proof.
  intros H. destruct (isdigit c) eqn:D; [|reflexivity].
  apply digit_not_space in D. congruence.
Qed.

Lemma run_of_app_stop p : forall t w,
  Forall (fun c => p c = false) w ->
  run_of p (t ++ w) = run_of p t /\ after_run p (t ++ w) = after_run p t ++ w.
Proof.
  induction t as [|c t IH]; intros w F.
  - simpl. destruct w as [|x w]; [auto|]. inversion F; subst. simpl.
    match goal with H : p x = false |- _ => rewrite H end. auto.
  - simpl. destruct (p c); [|auto]. destruct (IH w F) as [A B]. now rewrite A, B.
Qed.

Lemma amount_at_space x s : isspace x = true -> amount_at (x :: s) = None.
Proof.
  intros H. unfold amount_at. destruct (Ascii.eqb x "$") eqn:E; [|reflexivity].
  apply Ascii.eqb_eq in E. subst x. discriminate.
Qed.

Lemma amount_at_app c t w :
  Forall (fun x => isspace x = true) w ->
  amount_at ((c :: t) ++ w) = amount_at (c :: t).
Proof.
  intros F. cbn [app]. unfold amount_at. destruct (Ascii.eqb c "$"); [|reflexivity].
  assert (Fd : Forall (fun x => isdigit x = false) w)
    by (eapply Forall_impl; [|exact F]; apply space_not_digit).
  destruct (run_of_app_stop isdigit t w Fd) as [-> ->].
  destruct (run_of isdigit t) as [|d ds]; [reflexivity|].
  destruct (after_run isdigit t) as [|x t2].
  - cbn [app]. destruct w as [|y w]; [reflexivity|]. inversion F; subst.
    destruct (Ascii.eqb y ".") eqn:E; [|reflexivity].
    apply Ascii.eqb_eq in E. subst y. discriminate.
  - cbn [app]. destruct (Ascii.eqb x "."); [|reflexivity].
    now destruct (run_of_app_stop isdigit t2 w Fd) as [-> _].
Qed.

Lemma dollar_amounts_space : forall w k,
  Forall (fun x => isspace x = true) w -> dollar_amounts_from k w = [].
Proof.
  induction w as [|x w IH]; intros k F; [reflexivity|].
  inversion F; subst. cbn -[amount_at]. destruct k; [|now apply IH].
  rewrite amount_at_space by assumption. now apply IH.
Qed.

Lemma dollar_amounts_app_space : forall s w k,
  Forall (fun x => isspace x = true) w ->
  dollar_amounts_from k (s ++ w) = dollar_amounts_from k s.
Proof.
  induction s as [|c s IH]; intros w k F.
  - cbn [app]. rewrite dollar_amounts_space by exact F. now destruct k.
  - destruct k as [|k].
    + change (dollar_amounts_from 0 ((c :: s) ++ w))
        with (match amount_at ((c :: s) ++ w) with
              | Some tok => tok :: dollar_amounts_from (length tok) (s ++ w)
              | None => dollar_amounts_from 0 (s ++ w)
              end).
      rewrite amount_at_app by exact F.
      change (dollar_amounts_from 0 (c :: s))
        with (match amount_at (c :: s) with
              | Some tok => tok :: dollar_amounts_from (length tok) s
              | None => dollar_amounts_from 0 s
              end).
      destruct (amount_at (c :: s)); now rewrite IH.
    + cbn [app dollar_amounts_from]. now apply IH.
Qed.

Lemma dollar_amounts_space_app : forall w s,
  Forall (fun x => isspace x = true) w ->
  dollar_amounts_from 0 (w ++ s) = dollar_amounts_from 0 s.
Proof.
  induction w as [|x w IH]; intros s F; [reflexivity|].
  inversion F; subst.
  change (dollar_amounts_from 0 ((x :: w) ++ s))
    with (match amount_at (x :: w ++ s) with
          | Some tok => tok :: dollar_amounts_from (length tok) (w ++ s)
          | None => dollar_amounts_from 0 (w ++ s)
          end).
  rewrite amount_at_space by assumption. now apply IH.
Qed.

Lemma strip_between s :
  exists w1 w2, s = w1 ++ strip s ++ w2 /\
                Forall (fun c => isspace c = true) w1 /\
                Forall (fun c => isspace c = true) w2.
Proof.
  unfold strip. destruct (rstrip_decompose (lstrip s)) as (w2 & E & F).
  exists (run_of isspace s), w2. split; [|split; [apply run_of_all | exact F]].
  rewrite <- E, lstrip_after_run. apply run_of_after.
Qed.

(** Trimming a text neither adds nor removes a dollar amount. *)
Lemma dollar_amounts_strip s : dollar_amounts (strip s) = dollar_amounts s.
Proof.
  destruct (strip_between s) as (w1 & w2 & E & F1 & F2). unfold dollar_amounts.
  rewrite E at 2. rewrite dollar_amounts_space_app by exact F1.
  now rewrite dollar_amounts_app_space by exact F2.
Qed.

Lemma findall_price_strip line :
  re_findall re_price (strip line) = re_findall re_price line.
Proof. now rewrite !findall_price, dollar_amounts_strip. Qed.

(** C4.  The prices of a record come from the dollar amounts found in the
    whole text of the line, which are the amounts that the text holds: with
    two or more amounts the price is the value of the last but one and the
    total the value of the last; with none or one, both are 0. *)
Theorem prices_are_last_two_amounts (line : str) (c : Card) :
  parse_card_line line = Some c ->
  let amounts := re_findall re_price line in
  amounts = dollar_amounts line /\
  (2 <= length amounts ->
   price c = float_of_token (nth (length amounts - 2) amounts []) /\
   total_price c = float_of_token (nth (length amounts - 1) amounts [])) /\
  (length amounts < 2 -> price c = 0%Q /\ total_price c = 0%Q).
Proof.
  intros H. apply parse_card_line_some in H.
  destruct H as (_ & _ & _ & P & _). unfold extract_prices in P. cbv zeta in *.
  rewrite findall_price_strip in P. split; [apply findall_price|].
  destruct (2 <=? length (re_findall re_price line)) eqn:L.
  - apply Nat.leb_le in L. inversion P. split; [auto | lia].
  - apply Nat.leb_gt in L. inversion P. split; [lia | auto].
Qed.

Lemma prices_are_last_two_amounts_witness :
  let line := lit "2 Magic-Foundations-Opt-#51-C-NearMint $9.99 $0.25 $0.50" in
  let amounts := re_findall re_price line in
  exists c,
    parse_card_line line = Some c /\
    price c = float_of_token (nth (length amounts - 2) amounts []) /\
    total_price c = float_of_token (nth (length amounts - 1) amounts []).
Proof.
  cbv zeta.
  destruct (parse_card_line
              (lit "2 Magic-Foundations-Opt-#51-C-NearMint $9.99 $0.25 $0.50"))
    as [c|] eqn:E.
  - exists c. split; [reflexivity|].
    apply (proj1 (proj2 (prices_are_last_two_amounts _ c E))). vm_compute. lia.
  - exfalso. vm_compute in E. discriminate E.
Defined.

(** ** The name normalizer *)

Lemma passes_of_rules : passes = camel :: map rule_pass repair_rules ++ [strip].
Proof. reflexivity. Qed.

Lemma str_eqb_eq : forall a b, str_eqb a b = true <-> a = b.
Proof.
  induction a as [|x a IH]; intros [|y b]; simpl; split; try discriminate; auto.
  - intros H. apply andb_true_iff in H. destruct H as [X Y].
    apply Ascii.eqb_eq in X. apply IH in Y. now subst.
  - intros H. inversion H; subst. rewrite Ascii.eqb_refl. now apply IH.
Qed.

Lemma lstrip_fixed s : isspace (hd "x" s) = false -> lstrip s = s.
Proof. destruct s as [|c s]; simpl; [reflexivity|]. now intros ->. Qed.

Lemma trimmed_fixed s : trimmed s = true -> strip s = s.
Proof.
  unfold trimmed, strip, rstrip. intros H. apply andb_true_iff in H.
  destruct H as [A B]. apply negb_true_iff in A, B.
  rewrite (lstrip_fixed s A), (lstrip_fixed (rev s) B). apply rev_involutive.
Qed.

(** A match starts at the cursor and ends after the text it takes. *)
Lemma match_at_span ic r b s m :
  match_at ic r (b, s) = Some m ->
  exists w rest, s = w ++ rest /\
                 m_start m = length b /\ m_end m = length b + length w.
Proof.
  intros H. apply match_at_some in H. destruct H as (s' & M & A & B).
  apply Match_consume in M. destruct M as (w & E & F). simpl in E, F.
  exists w, (snd s'). split; [exact E|]. split; [exact A|].
  rewrite B. unfold cpos. rewrite F, length_app, length_rev. lia.
Qed.

(** C1.  The normalizer is not idempotent, by a case that its comma pass
    misses.  [re.sub] replaces from the left without overlap: of two commas
    in a row the second is taken as the character after the first, so one
    run leaves it without the blank that the pass is there to add, and the
    next run adds it. *)
Theorem normalizer_second_comma_missed :
  let name := lit "Fire,,Ice" in
  add_spaces_to_card_name name = lit "Fire, ,Ice" /\
  has_pair (Ascii.eqb ",") (fun c => negb (isspace c)) (add_spaces_to_card_name name)
  = true /\
  add_spaces_to_card_name (add_spaces_to_card_name name) = lit "Fire, , Ice" /\
  add_spaces_to_card_name (add_spaces_to_card_name name)
  <> add_spaces_to_card_name name.
Proof.
  cbv zeta. split; [vm_compute; reflexivity|]. split; [vm_compute; reflexivity|].
  split; [vm_compute; reflexivity|]. vm_compute. discriminate.
Qed.

(** Scenario C of the specification. *)
Example normalizer_scenario_C :
  add_spaces_to_card_name (lit "Abigale,EloquentFirst-Year")
  = lit "Abigale, Eloquent First-Year".
Proof. vm_compute. reflexivity. Qed.

(** * More properties of the program *)

(** ** More about the merger, and the slip as a whole *)

Lemma merge_is_merged_entries lines :
  merge_continuation_lines lines = merged_entries (map strip lines).
Proof.
  unfold merge_continuation_lines.
  change (flush (fold_left merge_step lines ([], []))
          = merged_entries (map strip lines)).
  rewrite merge_loop_pending. reflexivity.
Qed.

Lemma is_entry_of_shape ds sp rest :
  ds <> [] -> sp <> [] ->
  Forall (fun c => isdigit c = true) ds ->
  Forall (fun c => isspace c = true) sp ->
  is_entry (ds ++ sp ++ lit "Magic-" ++ rest) = true.
Proof.
  intros Nd Ns Fd Fs. destruct ds as [|d ds]; [congruence|].
  destruct sp as [|x sp]; [congruence|].
  unfold is_entry, re_match, re_match_ic.
  destruct (match_at _ _ _) as [m|] eqn:E; [reflexivity|]. exfalso.
  revert E. eapply match_at_found. unfold re_entry.
  econstructor; [constructor|]. econstructor.
  - apply Plus_Cls_Match.
    eapply Forall_impl; [|exact Fd]. intros a Ha. now rewrite digit_cls.
  - econstructor.
    + apply Plus_Cls_Match.
      eapply Forall_impl; [|exact Fs]. intros a Ha. now rewrite space_cls.
    + apply Lit_Match.
Qed.

Lemma is_entry_app l x : is_entry l = true -> is_entry (l ++ x) = true.
Proof.
  intros H. apply is_entry_shape in H.
  destruct H as (d & ds & sp & rest & E & Fd & Fs & Ns). subst l.
  rewrite <- !app_assoc.
  apply is_entry_of_shape; auto. discriminate.
Qed.

Lemma entry_holds_marker l : is_entry l = true -> contains (lit "Magic-") l = true.
Proof.
  intros H. apply is_entry_shape in H.
  destruct H as (d & ds & sp & rest & E & _). subst l.
  apply contains_iff. exists ((d :: ds) ++ sp), rest. now rewrite <- app_assoc.
Qed.

(** A trimmed text stays trimmed when trimmed texts are put after it. *)
Lemma trimmed_app a b : trimmed a = true -> trimmed b = true -> trimmed (a ++ b) = true.
Proof.
  unfold trimmed. intros Ha Hb.
  apply andb_true_iff in Ha. apply andb_true_iff in Hb.
  destruct Ha as [A1 A2], Hb as [B1 B2]. apply andb_true_iff. split.
  - destruct a; simpl; auto.
  - rewrite rev_app_distr. destruct (rev b) eqn:R; simpl; auto.
Qed.

Lemma trimmed_concat ls :
  Forall (fun l => trimmed l = true) ls -> trimmed (concat ls) = true.
Proof.
  induction 1; simpl; [reflexivity|]. now apply trimmed_app.
Qed.

Lemma strip_trimmed s : trimmed (strip s) = true.
Proof.
  unfold trimmed, strip. apply andb_true_iff. split.
  - destruct (rstrip_decompose (lstrip s)) as (w & E & _).
    pose proof (after_run_head isspace s) as H. rewrite <- lstrip_after_run in H.
    destruct (rstrip (lstrip s)) as [|c t] eqn:R; [reflexivity|].
    rewrite E in H. simpl in *. now rewrite H.
  - unfold rstrip. rewrite rev_involutive.
    pose proof (after_run_head isspace (rev (lstrip s))) as H.
    rewrite <- lstrip_after_run in H.
    destruct (lstrip (rev (lstrip s))); simpl; [reflexivity | now rewrite H].
Qed.

Lemma continuation_run_in ls l : In l (continuation_run ls) -> In l ls.
Proof.
  induction ls as [|x ls IH]; simpl; [auto|].
  destruct (continues x); simpl; [|tauto]. intros [H|H]; auto.
Qed.

(** What every merged entry is: a line of the entry shape with lines of the
    list after it. *)
Lemma merged_entries_in ls e :
  In e (merged_entries ls) ->
  exists l run, e = l ++ concat run /\ In l ls /\ is_entry l = true /\
                (forall x, In x run -> In x ls).
Proof.
  induction ls as [|x ls IH]; simpl; [tauto|].
  destruct (is_entry x) eqn:E.
  - intros [H|H].
    + exists x, (continuation_run ls). subst e. repeat split; auto.
      intros y Hy. right. now apply continuation_run_in.
    + destruct (IH H) as (l & run & A & B & C & D).
      exists l, run. repeat split; auto.
  - intros H. destruct (IH H) as (l & run & A & B & C & D).
    exists l, run. repeat split; auto.
Qed.

Lemma merged_entry_facts lines e :
  In e (merge_continuation_lines lines) ->
  is_entry e = true /\ strip e = e.
Proof.
  rewrite merge_is_merged_entries. intros H.
  apply merged_entries_in in H. destruct H as (l & run & E & Hl & He & Hrun).
  subst e. split; [now apply is_entry_app|].
  apply trimmed_fixed, trimmed_app.
  - apply in_map_iff in Hl. destruct Hl as (y & <- & _). apply strip_trimmed.
  - apply trimmed_concat, Forall_forall. intros x Hx.
    apply Hrun, in_map_iff in Hx. destruct Hx as (y & <- & _). apply strip_trimmed.
Qed.

Lemma merged_entries_fixed ls :
  Forall (fun l => is_entry l = true) ls -> merged_entries ls = ls.
Proof.
  induction 1 as [|l ls H F IH]; simpl; [reflexivity|].
  rewrite H, IH. f_equal.
  destruct ls as [|y ls']; simpl; [apply app_nil_r|].
  inversion F; subst. unfold continues.
  match goal with H : is_entry y = true |- _ => rewrite H end.
  simpl. apply app_nil_r.
Qed.

(** X1.  Merging is idempotent: the merged lines are trimmed lines of the
    entry shape, so that merging them once more gives them back as they
    are. *)
Theorem merger_idempotent (lines : list str) :
  merge_continuation_lines (merge_continuation_lines lines)
  = merge_continuation_lines lines.
Proof.
  rewrite (merge_is_merged_entries (merge_continuation_lines lines)).
  assert (F : Forall (fun e => is_entry e = true /\ strip e = e)
                     (merge_continuation_lines lines)).
  { apply Forall_forall. intros e. apply merged_entry_facts. }
  assert (M : map strip (merge_continuation_lines lines)
              = merge_continuation_lines lines).
  { induction F as [|e es [_ S] _ IH]; simpl; [reflexivity|]. now rewrite S, IH. }
  rewrite M. apply merged_entries_fixed.
  eapply Forall_impl; [|exact F]. now intros e [A _].
Qed.

Lemma continuation_run_noise_cut a h x y :
  is_noise h = true ->
  continuation_run (a ++ h :: x) = continuation_run (a ++ h :: y).
Proof.
  intros N. induction a as [|l a IH]; simpl.
  - unfold continues. rewrite N. now rewrite andb_false_r.
  - destruct (continues l); [now rewrite IH | reflexivity].
Qed.

Lemma merged_entries_skip junk after :
  Forall (fun l => is_entry l = false) junk ->
  merged_entries (junk ++ after) = merged_entries after.
Proof.
  induction 1 as [|l junk H _ IH]; simpl; [reflexivity|]. now rewrite H.
Qed.

Lemma merged_entries_noise_cut a h junk after :
  is_noise h = true ->
  Forall (fun l => is_entry l = false) junk ->
  merged_entries (a ++ h :: junk ++ after) = merged_entries (a ++ h :: after).
Proof.
  intros N F. induction a as [|l a IH]; simpl.
  - rewrite (noise_not_entry _ N). now apply merged_entries_skip.
  - rewrite IH. destruct (is_entry l); [|reflexivity].
    now rewrite (continuation_run_noise_cut a h (junk ++ after) after N).
Qed.

(** X2.  What stands between a page header or the total line and the next
    entry line is lost: the merged entries are the same with these lines
    taken out, so that the lines that continue an entry across a page header
    are not joined to it. *)
Theorem merger_drops_lines_after_noise (before junk after : list str) (h : str) :
  is_noise (strip h) = true ->
  Forall (fun l => is_entry (strip l) = false) junk ->
  merge_continuation_lines (before ++ h :: junk ++ after)
  = merge_continuation_lines (before ++ h :: after).
Proof.
  intros N F. rewrite !merge_is_merged_entries.
  rewrite !map_app. cbn [map]. rewrite map_app.
  apply merged_entries_noise_cut; [exact N|].
  apply Forall_map. exact F.
Qed.

Lemma merger_drops_lines_after_noise_witness :
  merge_continuation_lines
    ([lit "1 Magic-Foundations-"] ++ lit "Quantity Description Price"
       :: [lit "Sol Ring-#5-R-"] ++ [lit "2 Magic-Aetherdrift-Opt-#1-C- $1.00 $2.00"])
  = merge_continuation_lines
    ([lit "1 Magic-Foundations-"] ++ lit "Quantity Description Price"
       :: [lit "2 Magic-Aetherdrift-Opt-#1-C- $1.00 $2.00"]).
Proof.
  apply merger_drops_lines_after_noise.
  - vm_compute. reflexivity.
  - repeat constructor.
Defined.

(** X3.  The lines before the first entry line are lost, whatever they
    hold. *)
Theorem merger_skips_leading_lines (junk after : list str) :
  Forall (fun l => is_entry (strip l) = false) junk ->
  merge_continuation_lines (junk ++ after) = merge_continuation_lines after.
Proof.
  intros F. rewrite !merge_is_merged_entries, map_app.
  apply merged_entries_skip. apply Forall_map. exact F.
Qed.

Lemma merger_skips_leading_lines_witness :
  merge_continuation_lines
    ([lit "Ship To:"; lit "Sol Ring-#5-R-"] ++ [lit "2 Magic-Aetherdrift-Opt-#1-C- $1.00 $2.00"])
  = merge_continuation_lines [lit "2 Magic-Aetherdrift-Opt-#1-C- $1.00 $2.00"].
Proof.
  apply merger_skips_leading_lines. repeat constructor.
Defined.

Lemma parse_step_count ms : forall cards warned,
  Forall (fun e => is_entry e = true) ms ->
  let (cards', warned') := fold_left parse_step ms (cards, warned) in
  length cards' + length warned' = length cards + length warned + length ms.
Proof.
  induction ms as [|e ms IH]; intros cards warned F; cbn [fold_left].
  - simpl. lia.
  - inversion F as [|? ? He F']; subst.
    assert (S : parse_step (cards, warned) e
                = match parse_card_line e with
                  | Some card => (cards ++ [card], warned)
                  | None => (cards, warned ++ [firstn 80 e])
                  end).
    { unfold parse_step. now rewrite (entry_holds_marker _ He). }
    rewrite S. clear S.
    destruct (parse_card_line e) as [c|] eqn:P.
    + specialize (IH (cards ++ [c]) warned F').
      destruct (fold_left parse_step ms (cards ++ [c], warned)) as [cs ws].
      rewrite IH, length_app. simpl. lia.
    + specialize (IH cards (warned ++ [firstn 80 e]) F').
      destruct (fold_left parse_step ms (cards, warned ++ [firstn 80 e])) as [cs ws].
      rewrite IH, length_app. simpl. lia.
Qed.

(** X4.  No entry of a slip is dropped without a word: the cards and the
    warnings of [parse_packing_slip] are together as many as the lines of the
    text that have the entry shape once trimmed. *)
Theorem slip_entries_accounted (text : str) :
  let (cards, warned) := parse_packing_slip text in
  length cards + length warned
  = length (filter is_entry (map strip (split_chr newline text))).
Proof.
  unfold parse_packing_slip.
  pose proof (parse_step_count (merge_continuation_lines (split_chr newline text)) [] []) as H.
  destruct (fold_left parse_step _ _) as [cards warned].
  rewrite H.
  - simpl. rewrite merge_is_merged_entries. apply merged_entries_length.
  - apply Forall_forall. intros e He. now apply merged_entry_facts in He.
Qed.

Lemma search_magic_marker_text s :
  found (re_search re_magic s) = marker_text s.
Proof.
  destruct (marker_text s) eqn:M.
  - apply description_in_line in M. destruct M as (m & E & _). now rewrite E.
  - destruct (re_search re_magic s) as [m|] eqn:E; [|reflexivity].
    apply re_search_at in E. destruct E as (pre & post & A & B).
    apply match_at_magic in B. destruct B as (c & rest & P & N & _).
    assert (T : marker_text s = true).
    { apply marker_text_iff. exists pre, c, rest. subst. auto. }
    congruence.
Qed.

(** X5.  Which entries the line parser refuses: a line of the entry shape
    gives no record exactly when it holds the word Quantity or the word
    Description, or when, once its dollar amounts are taken out, no marker in
    it has text after it. *)
Theorem entry_refused_iff (line0 : str) :
  is_entry (strip line0) = true ->
  (parse_card_line line0 = None <->
   contains (lit "Quantity") (strip line0) = true \/
   contains (lit "Description") (strip line0) = true \/
   marker_text (re_sub re_price_plain [] (strip line0)) = false).
Proof.
  intros He. pose proof (entry_has_quantity _ He) as (qm & Q).
  unfold is_entry in He. unfold parse_card_line. cbv zeta.
  destruct (re_match re_entry (strip line0)); [|discriminate].
  rewrite Q. rewrite <- search_magic_marker_text.
  destruct (contains (lit "Quantity") (strip line0)); cbn [orb]; [intuition auto|].
  destruct (contains (lit "Description") (strip line0)); [intuition auto|].
  destruct (extract_prices (strip line0)) as [p tp].
  destruct (re_search re_magic _) as [mm|]; cbn [found].
  - destruct (extract_set_and_card _) as [sn rem].
    destruct (re_search re_variant _); split; try discriminate;
      intros [H|[H|H]]; discriminate.
  - intuition auto.
Qed.

Lemma entry_refused_iff_witness :
  parse_card_line (lit "1 Magic-$5.00") = None.
Proof.
  apply entry_refused_iff.
  - vm_compute. reflexivity.
  - right. right. vm_compute. reflexivity.
Defined.

(** ** The name for the lookup *)

Lemma get_search_name_fold name :
  get_search_name name = fold_left cut_artifact artifacts (strip name).
Proof. reflexivity. Qed.

Lemma match_at_artifact (w : str) b s :
  match_at false (Cat (Lit w) Eol) (b, s)
  = if startswith w s && at_eol (rev w ++ b, skipn (length w) s)
    then Some (mkMatch (length b) (length b + length w) None)
    else None.
Proof.
  unfold match_at. rewrite rx_Cat, rx_Lit.
  destruct (startswith w s); [|reflexivity]. cbn [rx andb].
  destruct (at_eol _); [|reflexivity].
  unfold cpos. cbn [fst]. rewrite length_app, length_rev.
  now rewrite Nat.add_comm.
Qed.

Lemma scan_skip_all ic r : forall s b,
  scan ic r b s (length s) = scan ic r (rev s ++ b) [] 0.
Proof.
  induction s as [|c s IH]; intros b; [reflexivity|].
  cbn [length scan]. rewrite IH. cbn [rev]. now rewrite <- app_assoc.
Qed.

Lemma hd_rev_cons (c d : ascii) s x : hd x (rev (c :: d :: s)) = hd x (rev (d :: s)).
Proof.
  cbn [rev]. destruct (rev s ++ [d]) eqn:E; [|reflexivity].
  destruct (rev s); discriminate.
Qed.

Lemma not_own_prefix (w rest : str) : rest <> [] -> str_eqb (w ++ rest) w = false.
Proof.
  intros N. destruct (str_eqb (w ++ rest) w) eqn:Q; [|reflexivity].
  apply str_eqb_eq in Q. apply (f_equal (@length ascii)) in Q.
  rewrite length_app in Q. destruct rest; [congruence | simpl in Q; lia].
Qed.

(** Taking an artifact out of a text that does not end with a newline. *)
Lemma sub_artifact_from (w subj : str) : w <> [] -> forall s b,
  isspace (hd "x" (rev s)) = false ->
  concat (map (fun p : str + rmatch =>
                 match p with
                 | inl u => u
                 | inr m => expand [] subj m
                 end) (scan false (Cat (Lit w) Eol) b s 0))
  = drop_suffix w s.
Proof.
  intros Nw. induction s as [|c s IH]; intros b T.
  - cbn [scan]. rewrite match_at_artifact.
    destruct w as [|x t]; [congruence|]. reflexivity.
  - cbn [scan drop_suffix]. rewrite match_at_artifact.
    assert (Tail : isspace (hd "x" (rev s)) = false).
    { destruct s as [|d s]; [reflexivity|]. now rewrite hd_rev_cons in T. }
    destruct (startswith w (c :: s)) eqn:S; cbn [andb].
    + apply startswith_app in S. set (rest := skipn (length w) (c :: s)) in *.
      assert (R : at_eol (rev w ++ b, rest) = str_eqb (c :: s) w).
      { unfold at_eol. cbn [snd]. rewrite S. destruct rest as [|y [|z rest]].
        - rewrite app_nil_r. symmetry. now apply str_eqb_eq.
        - rewrite not_own_prefix by discriminate.
          destruct (Ascii.eqb y newline) eqn:Y; [|reflexivity].
          exfalso. apply Ascii.eqb_eq in Y. subst y.
          rewrite S, rev_app_distr in T. simpl in T. discriminate.
        - now rewrite not_own_prefix by discriminate. }
      rewrite R. destruct (str_eqb (c :: s) w) eqn:Q.
      * apply str_eqb_eq in Q. cbn [m_end m_start map concat].
        destruct (length b + length w =? length b) eqn:L.
        { apply Nat.eqb_eq in L. destruct w; [congruence|simpl in L; lia]. }
        replace (length b + length w - length b - 1) with (length s)
          by (rewrite <- Q; simpl; lia).
        rewrite scan_skip_all. cbn [scan]. rewrite match_at_artifact.
        destruct w as [|x t]; [congruence|]. reflexivity.
      * cbn [map concat app]. f_equal. now apply IH.
    + destruct (str_eqb (c :: s) w) eqn:Q.
      { apply str_eqb_eq in Q. rewrite Q in S.
        rewrite <- (app_nil_r w) in S at 2.
        now rewrite startswith_refl_app in S. }
      cbn [map concat app]. f_equal. now apply IH.
Qed.

Lemma trimmed_last s : trimmed s = true -> isspace (hd "x" (rev s)) = false.
Proof.
  unfold trimmed. intros H. apply andb_true_iff in H. destruct H as [_ H].
  now apply negb_true_iff in H.
Qed.

Lemma sub_artifact (w : string) s :
  lit w <> [] -> trimmed s = true -> re_sub (re_artifact w) [] s = drop_suffix w s.
Proof.
  intros Nw T. unfold re_sub, re_sub_ic, re_artifact. apply sub_artifact_from; auto.
  now apply trimmed_last.
Qed.

(** A text without its artifact is the text or what stands before the
    artifact. *)
Lemma drop_suffix_cases (w : str) : forall s,
  drop_suffix w s = s \/ s = drop_suffix w s ++ w.
Proof.
  induction s as [|c s IH]; [now left|]. cbn [drop_suffix].
  destruct (str_eqb (c :: s) w) eqn:Q.
  - apply str_eqb_eq in Q. right. now rewrite Q.
  - destruct IH as [IH|IH]; [left; now rewrite IH | right; simpl; now rewrite <- IH].
Qed.

Lemma drop_suffix_hit (w : str) : forall a, w <> [] -> drop_suffix w (a ++ w) = a.
Proof.
  intros a Nw. induction a as [|c a IH].
  - destruct w as [|x w]; [congruence|]. cbn [app drop_suffix].
    assert (E : str_eqb (x :: w) (x :: w) = true) by now apply str_eqb_eq.
    now rewrite E.
  - cbn [app drop_suffix]. destruct (str_eqb (c :: a ++ w) w) eqn:Q.
    + apply str_eqb_eq in Q. apply (f_equal (@length ascii)) in Q.
      simpl in Q. rewrite length_app in Q. lia.
    + now rewrite IH.
Qed.

(** No artifact is found in a text that does not hold the first character
    of the artifact. *)
Lemma drop_suffix_miss x (w : str) : forall s, ~ In x s -> drop_suffix (x :: w) s = s.
Proof.
  induction s as [|c s IH]; intros N; [reflexivity|]. cbn [drop_suffix].
  destruct (str_eqb (c :: s) (x :: w)) eqn:Q.
  - apply str_eqb_eq in Q. inversion Q; subst. exfalso. apply N. now left.
  - rewrite IH; [reflexivity|]. intros H. apply N. now right.
Qed.

Lemma strip_head_trimmed s :
  isspace (hd "x" s) = false -> exists ws, s = strip s ++ ws.
Proof.
  intros H. unfold strip. rewrite (lstrip_fixed _ H).
  destruct (rstrip_decompose s) as (ws & E & _). eauto.
Qed.

Lemma cut_artifact_prefix (w : string) t :
  lit w <> [] -> trimmed t = true ->
  trimmed (cut_artifact t w) = true /\ exists cut, t = cut_artifact t w ++ cut.
Proof.
  intros Nw T. unfold cut_artifact. split; [apply strip_trimmed|].
  rewrite (sub_artifact _ _ Nw T).
  destruct (drop_suffix_cases w t) as [E|E].
  - rewrite E, (trimmed_fixed _ T). exists []. now rewrite app_nil_r.
  - set (a := drop_suffix w t) in *.
    assert (H : isspace (hd "x" a) = false).
    { unfold trimmed in T. apply andb_true_iff in T. destruct T as [T _].
      apply negb_true_iff in T. rewrite E in T. destruct a; [reflexivity | exact T]. }
    destruct (strip_head_trimmed _ H) as (ws & Ea).
    exists (ws ++ lit w). rewrite app_assoc, <- Ea. exact E.
Qed.

Lemma artifacts_nonempty w : In w artifacts -> lit w <> [].
Proof.
  intros H. repeat (destruct H as [<-|H]; [discriminate|]). destruct H.
Qed.

Lemma fold_cut_prefix : forall ws t,
  (forall w, In w ws -> lit w <> []) -> trimmed t = true ->
  trimmed (fold_left cut_artifact ws t) = true /\
  exists cut, t = fold_left cut_artifact ws t ++ cut.
Proof.
  induction ws as [|w ws IH]; intros t Nw T; cbn [fold_left].
  - split; [exact T|]. exists []. now rewrite app_nil_r.
  - destruct (cut_artifact_prefix w t) as (T1 & c1 & E1); auto.
    { apply Nw. now left. }
    destruct (IH (cut_artifact t w)) as (T2 & c2 & E2); auto.
    { intros w' H. apply Nw. now right. }
    split; [exact T2|]. exists (c2 ++ c1). rewrite app_assoc, <- E2. exact E1.
Qed.

(** X6.  [get_search_name] only cuts: the name it gives is the trimmed name
    or a beginning of it, and has no white space at its ends. *)
Theorem get_search_name_cuts_tail (name : str) :
  strip (get_search_name name) = get_search_name name /\
  exists cut, strip name = get_search_name name ++ cut.
Proof.
  rewrite get_search_name_fold.
  destruct (fold_cut_prefix artifacts (strip name) artifacts_nonempty (strip_trimmed name))
    as (T & cut & E).
  split; [now apply trimmed_fixed | eauto].
Qed.

Lemma cut_artifact_miss (w : string) t x rest :
  lit w = x :: rest -> ~ In x t -> trimmed t = true -> cut_artifact t w = t.
Proof.
  intros W N T. unfold cut_artifact.
  rewrite sub_artifact; [|congruence|exact T].
  rewrite W, drop_suffix_miss; [now apply trimmed_fixed | exact N].
Qed.

Lemma artifacts_open w : In w artifacts -> exists rest, lit w = "(" :: rest /\ ~ In "(" rest.
Proof.
  intros H.
  repeat (destruct H as [<-|H];
          [eexists; split; [reflexivity|];
           intros N; simpl in N; repeat (destruct N as [N|N]; [discriminate|]); exact N|]).
  destruct H.
Qed.

Lemma fold_cut_miss : forall ws t,
  (forall w, In w ws -> In w artifacts) -> ~ In "(" t -> trimmed t = true ->
  fold_left cut_artifact ws t = t.
Proof.
  induction ws as [|w ws IH]; intros t Hw N T; cbn [fold_left]; [reflexivity|].
  destruct (artifacts_open w) as (rest & W & _); [apply Hw; now left|].
  rewrite (cut_artifact_miss w t _ _ W N T).
  apply IH; auto. intros w' H. apply Hw. now right.
Qed.

(** X7.  A name without an open parenthesis is only trimmed. *)
Theorem get_search_name_plain (name : str) :
  ~ In "(" name -> get_search_name name = strip name.
Proof.
  intros N. rewrite get_search_name_fold. apply fold_cut_miss.
  - auto.
  - intros H. apply N. destruct (strip_decompose name) as (w1 & w2 & E & _).
    rewrite E. apply in_or_app. right. apply in_or_app. now left.
  - apply strip_trimmed.
Qed.

Lemma get_search_name_plain_witness :
  get_search_name (lit " Sol Ring ") = strip (lit " Sol Ring ").
Proof.
  apply get_search_name_plain. intros N. vm_compute in N.
  repeat (destruct N as [N|N]; [discriminate|]). exact N.
Defined.

Lemma lstrip_app_word a w :
  isspace (hd " " w) = false -> lstrip (a ++ w) = lstrip a ++ w.
Proof.
  intros H. induction a as [|c a IH]; cbn [app lstrip].
  - destruct w as [|x w]; [reflexivity|]. simpl in *. now rewrite H.
  - destruct (isspace c); [exact IH | reflexivity].
Qed.

Lemma rstrip_fixed s : isspace (hd "x" (rev s)) = false -> rstrip s = s.
Proof.
  intros H. unfold rstrip. rewrite (lstrip_fixed _ H). apply rev_involutive.
Qed.

Lemma drop_suffix_other x (w w' : str) : forall a,
  ~ In x a -> ~ In x w -> w <> w' ->
  drop_suffix (x :: w') (a ++ x :: w) = a ++ x :: w.
Proof.
  intros a N Nw D. induction a as [|c a IH].
  - cbn [app drop_suffix].
    destruct (str_eqb (x :: w) (x :: w')) eqn:Q.
    { apply str_eqb_eq in Q. inversion Q. contradiction. }
    now rewrite drop_suffix_miss.
  - cbn [app drop_suffix].
    destruct (str_eqb (c :: a ++ x :: w) (x :: w')) eqn:Q.
    { apply str_eqb_eq in Q. inversion Q; subst. exfalso. apply N. now left. }
    rewrite IH; [reflexivity|]. intros H. apply N. now right.
Qed.

Lemma fold_cut_hit (w : string) rest : forall ws t a,
  lit w = "(" :: rest -> ~ In "(" rest -> ~ In "(" a ->
  t = a ++ lit w -> trimmed t = true ->
  In w ws -> (forall w', In w' ws -> In w' artifacts) ->
  fold_left cut_artifact ws t = strip a.
Proof.
  intros ws t a W Nr Na. revert t.
  induction ws as [|w' ws IH]; intros t E T Hin Hall; [destruct Hin|].
  cbn [fold_left].
  destruct (artifacts_open w') as (rest' & W' & Nr'); [apply Hall; now left|].
  destruct (list_eq_dec ascii_dec rest rest') as [R|R].
  - (* the artifact at the end of the name *)
    assert (C : cut_artifact t w' = strip a).
    { unfold cut_artifact. rewrite sub_artifact; [|congruence|exact T].
      rewrite W', <- R, <- W, E, drop_suffix_hit; [reflexivity|congruence]. }
    rewrite C. apply fold_cut_miss.
    + intros v H. apply Hall. now right.
    + intros H. apply Na. destruct (strip_decompose a) as (w1 & w2 & Ea & _).
      rewrite Ea. apply in_or_app. right. apply in_or_app. now left.
    + apply strip_trimmed.
  - (* another artifact *)
    assert (C : cut_artifact t w' = t).
    { unfold cut_artifact. rewrite sub_artifact; [|congruence|exact T].
      rewrite W', E, W, drop_suffix_other; auto.
      rewrite <- W, <- E. now apply trimmed_fixed. }
    rewrite C. apply IH; auto.
    + destruct Hin as [H|H]; [|exact H]. exfalso. apply R.
      subst w'. rewrite W in W'. now inversion W'.
    + intros v H. apply Hall. now right.
Qed.

(** X8.  An artifact at the end of a name is taken off: for a text without
    an open parenthesis, followed by one of the seven artifacts, the name
    for the lookup is the text, trimmed. *)
Theorem get_search_name_removes_artifact (core : str) (w : string) :
  In w artifacts -> ~ In "(" core ->
  get_search_name (core ++ lit w) = strip core.
Proof.
  intros Hw N. rewrite get_search_name_fold.
  destruct (artifacts_open w Hw) as (rest & W & Nr).
  assert (L : isspace (hd "x" (rev (lit w))) = false).
  { clear - Hw. repeat (destruct Hw as [<-|Hw]; [reflexivity|]). destruct Hw. }
  assert (S : strip (core ++ lit w) = lstrip core ++ lit w).
  { unfold strip. rewrite lstrip_app_word by (now rewrite W).
    apply rstrip_fixed. rewrite rev_app_distr.
    destruct (rev (lit w)) as [|y t] eqn:Rw; [|exact L].
    exfalso. apply (f_equal (@rev ascii)) in Rw. rewrite rev_involutive in Rw.
    rewrite W in Rw. discriminate. }
  rewrite S.
  rewrite (fold_cut_hit w rest artifacts _ (lstrip core) W Nr); auto.
  - unfold strip. f_equal. rewrite !lstrip_after_run.
    pose proof (after_run_head isspace core) as H.
    destruct (after_run isspace core) as [|c t]; [reflexivity|].
    cbn [after_run]. now rewrite H.
  - intros H. apply N. rewrite (run_of_after isspace core).
    apply in_or_app. right. now rewrite <- lstrip_after_run.
  - rewrite <- S. apply strip_trimmed.
Qed.

Lemma get_search_name_removes_artifact_witness :
  get_search_name (lit "Sol Ring " ++ lit "(Borderless") = strip (lit "Sol Ring ").
Proof.
  apply get_search_name_removes_artifact.
  - right. left. reflexivity.
  - intros N. vm_compute in N.
    repeat (destruct N as [N|N]; [discriminate|]). exact N.
Defined.

(** ** The white space of a normalized name *)

Lemma match_at_spaces b s :
  match_at false re_spaces (b, s)
  = match s with
    | c :: s' =>
        if isspace c
        then Some (mkMatch (length b) (length b + 1 + length (run_of isspace s')) None)
        else None
    | [] => None
    end.
Proof.
  unfold match_at, re_spaces, Plus, space. rewrite rx_Cat, rx_Cls.
  unfold step_if at 1. cbn [snd fst].
  destruct s as [|c s']; [reflexivity|]. rewrite space_cls.
  destruct (isspace c); [|reflexivity].
  rewrite rx_Star, rx_Cls. cbn [snd].
  rewrite star_loop_run; [|discriminate|lia].
  unfold cpos. cbn [fst].
  rewrite (run_of_ext _ isspace space_cls).
  rewrite length_app, length_rev. cbn [length].
  do 2 f_equal. lia.
Qed.

(** What [re.sub] with the pattern of white space and one blank gives. *)
Lemma sub_spaces_from (subj : str) : forall s b,
  let out := fun p : str + rmatch =>
               match p with
               | inl u => u
               | inr m => expand [TLit " "%string] subj m
               end in
  concat (map out (scan false re_spaces b s 0)) = collapse_from false s /\
  concat (map out (scan false re_spaces b s (length (run_of isspace s))))
  = collapse_from true s.
Proof.
  intros s. induction s as [|c s IH]; intros b out.
  - cbn [run_of length scan]. rewrite match_at_spaces. auto.
  - assert (Z : concat (map out (scan false re_spaces b (c :: s) 0))
                = collapse_from false (c :: s)).
    { cbn [scan collapse_from]. rewrite match_at_spaces.
      destruct (isspace c) eqn:C.
      - cbn [m_end m_start].
        destruct (length b + 1 + length (run_of isspace s) =? length b) eqn:L;
          [apply Nat.eqb_eq in L; lia|].
        replace (length b + 1 + length (run_of isspace s) - length b - 1)
          with (length (run_of isspace s)) by lia.
        cbn [map concat]. destruct (IH (c :: b)) as [_ B]. fold out in B.
        rewrite B. reflexivity.
      - cbn [map concat]. destruct (IH (c :: b)) as [A _]. fold out in A.
        rewrite A. reflexivity. }
    split; [exact Z|].
    cbn [run_of collapse_from]. destruct (isspace c) eqn:C.
    + cbn [length scan]. destruct (IH (c :: b)) as [_ B]. exact B.
    + cbn [length]. rewrite Z. cbn [collapse_from]. now rewrite C.
Qed.

Lemma sub_spaces s : re_sub re_spaces [TLit " "%string] s = collapse s.
Proof. unfold re_sub, re_sub_ic. apply (sub_spaces_from s s []). Qed.

Lemma collapse_isolated : forall s in_run,
  isolated (collapse_from in_run s) = true /\
  (in_run = true -> isspace (hd "x" (collapse_from in_run s)) = false).
Proof.
  induction s as [|c s IH]; intros in_run; [split; reflexivity|].
  cbn [collapse_from]. destruct (isspace c) eqn:C.
  - destruct (IH true) as [A B]. destruct in_run.
    + split; auto.
    + split; [|discriminate]. cbn [isolated].
      change (isspace " ") with true. cbn [Ascii.eqb andb].
      rewrite (B eq_refl), A. reflexivity.
  - destruct (IH false) as [A _]. cbn [isolated hd]. rewrite C, A. auto.
Qed.

Lemma isolated_tail : forall a s, isolated (a ++ s) = true -> isolated s = true.
Proof.
  induction a as [|c a IH]; intros s H; [exact H|].
  cbn [app isolated] in H. apply andb_true_iff in H. now apply IH.
Qed.

Lemma isolated_front : forall a s, isolated (a ++ s) = true -> isolated a = true.
Proof.
  induction a as [|c a IH]; intros s H; [reflexivity|].
  cbn [app isolated] in *. apply andb_true_iff in H. destruct H as [A B].
  rewrite (IH _ B), andb_true_r.
  destruct (isspace c); [|reflexivity].
  apply andb_true_iff in A. destruct A as [A1 A2]. rewrite A1.
  destruct a; [reflexivity | exact A2].
Qed.

Lemma strip_isolated s : isolated s = true -> isolated (strip s) = true.
Proof.
  intros H. destruct (strip_decompose s) as (w1 & w2 & E & _).
  rewrite E in H. apply isolated_tail in H. now apply isolated_front in H.
Qed.

Lemma isolated_blanks_ok : forall s after_blank,
  isolated s = true -> isspace (hd "x" (rev s)) = false ->
  (after_blank = true -> s <> [] /\ isspace (hd "x" s) = false) ->
  blanks_ok after_blank s = true.
Proof.
  induction s as [|c s IH]; intros ab I L F.
  - destruct ab; [|reflexivity]. destruct (F eq_refl) as [N _]. congruence.
  - cbn [blanks_ok]. cbn [isolated] in I. apply andb_true_iff in I.
    destruct I as [I1 I2].
    assert (L' : isspace (hd "x" (rev s)) = false).
    { destruct s as [|d s]; [reflexivity|]. now rewrite hd_rev_cons in L. }
    destruct (isspace c) eqn:C.
    + apply andb_true_iff in I1. destruct I1 as [B N]. rewrite B.
      destruct ab.
      { destruct (F eq_refl) as [_ H]. simpl in H. congruence. }
      cbn [negb andb]. apply IH; auto. intros _. split.
      * intros ->. simpl in L. congruence.
      * now apply negb_true_iff in N.
    + apply IH; auto. discriminate.
Qed.

Lemma trimmed_isolated_single s :
  trimmed s = true -> isolated s = true -> single_spaced s = true.
Proof.
  intros T I. destruct s as [|c s]; [reflexivity|].
  unfold single_spaced. apply isolated_blanks_ok; auto.
  - now apply trimmed_last.
  - intros _. split; [discriminate|].
    unfold trimmed in T. apply andb_true_iff in T. destruct T as [T _].
    now apply negb_true_iff in T.
Qed.

Lemma normalizer_last_passes c name :
  exists x, add_spaces_to_card_name (c :: name) = strip (collapse x).
Proof.
  unfold add_spaces_to_card_name, run_passes.
  set (front := removelast (removelast passes)).
  assert (E : passes = front ++ [re_sub re_spaces [TLit " "%string]; strip])
    by reflexivity.
  rewrite E, fold_left_app. cbn [fold_left]. rewrite sub_spaces. eauto.
Qed.

Lemma add_spaces_single_spaced name :
  single_spaced (add_spaces_to_card_name name) = true.
Proof.
  destruct name as [|c name]; [reflexivity|].
  destruct (normalizer_last_passes c name) as (x & E). rewrite E.
  apply trimmed_isolated_single; [apply strip_trimmed|].
  apply strip_isolated. apply (collapse_isolated x false).
Qed.

(** X9.  The words of a normalized name stand with one blank between them:
    the name has no white space at its ends, no white space but the blank,
    and no two blanks in a row. *)
Theorem normalizer_single_spaced (name : str) :
  single_spaced (add_spaces_to_card_name name) = true.
Proof. apply add_spaces_single_spaced. Qed.

(** ** The group of a match *)

Section GroupFacts.

Variable ic : bool.

Lemma star_loop_keeps A r
    (body : cursor -> capture -> (cursor -> capture -> option A) -> option A) :
  (forall s g k x, body s g k = Some x ->
     exists s', Match ic r s s' /\ k s' g = Some x) ->
  forall n k s g x, star_loop body k n s g = Some x ->
    exists s', Match ic (Star r) s s' /\ k s' g = Some x.
Proof.
  intros Hb n k. induction n as [|n IH]; simpl; intros s g x H.
  - exists s. split; [constructor | exact H].
  - destruct (body s g _) as [y|] eqn:E.
    + inversion H; subst y; clear H.
      apply Hb in E. destruct E as (s1 & M1 & K1).
      destruct (length (snd s1) <? length (snd s)) eqn:L; [|discriminate].
      apply Nat.ltb_lt in L.
      apply IH in K1. destruct K1 as (s2 & M2 & K2).
      exists s2. split; [|exact K2]. eapply MStarS; eauto.
    + exists s. split; [constructor | exact H].
Qed.

(** A pattern without a group hands on the group as it got it. *)
Lemma rx_keeps_capture A r : grp_free r = true ->
  forall s g (k : cursor -> capture -> option A) x,
  rx ic r s g k = Some x ->
  exists s', Match ic r s s' /\ k s' g = Some x.
Proof.
  induction r; simpl; intros F s g k x H; try discriminate.
  - eauto with rxdb.
  - apply step_if_some in H. destruct H as (y & rest & E & P & K).
    destruct s as [b t]; simpl in *; subst t. eauto with rxdb.
  - apply step_if_some in H. destruct H as (y & rest & E & P & K).
    destruct s as [b t]; simpl in *; subst t.
    exists (y :: b, rest). split; [|exact K]. constructor.
    intro; subst y. unfold newline in P. rewrite Ascii.eqb_refl in P. discriminate.
  - apply step_if_some in H. destruct H as (y & rest & E & P & K).
    destruct s as [b t]; simpl in *; subst t. eauto with rxdb.
  - apply andb_true_iff in F. destruct F as [F1 F2].
    apply (IHr1 F1) in H. destruct H as (s1 & M1 & H).
    apply (IHr2 F2) in H. destruct H as (s2 & M2 & H). eauto with rxdb.
  - apply andb_true_iff in F. destruct F as [F1 F2].
    destruct (rx ic r1 s g k) as [y|] eqn:E.
    + inversion H; subst y. apply (IHr1 F1) in E. destruct E as (s1 & M1 & K).
      eauto with rxdb.
    + apply (IHr2 F2) in H. destruct H as (s1 & M1 & K). eauto with rxdb.
  - apply star_loop_keeps with (body := rx ic r) (n := S (length (snd s)));
      [exact (IHr F) | exact H].
  - destruct s as [[|c b] t]; simpl in *; [|discriminate]. eauto with rxdb.
  - destruct (at_eol s) eqn:E; [|discriminate]. eauto with rxdb.
  - destruct (at_wordb s) eqn:E; [|discriminate]. eauto with rxdb.
Qed.

(** A group around a pattern without a group hands on the span of what the
    pattern took. *)
Lemma rx_group A r s g (k : cursor -> capture -> option A) x :
  grp_free r = true ->
  rx ic (Grp r) s g k = Some x ->
  exists s', Match ic r s s' /\ k s' (Some (cpos s, cpos s')) = Some x.
Proof.
  intros F H. rewrite rx_Grp in H. now apply (rx_keeps_capture _ _ F) in H.
Qed.

Lemma rx_chain A front r : forallb grp_free front = true ->
  forall s g (k : cursor -> capture -> option A) x,
  rx ic (cat_chain front r) s g k = Some x ->
  exists w s1, snd s = w ++ snd s1 /\ fst s1 = rev w ++ fst s /\
               rx ic r s1 g k = Some x.
Proof.
  induction front as [|p front IH]; intros F s g k x H.
  - exists [], s. auto.
  - cbn [forallb] in F. apply andb_true_iff in F. destruct F as [Fp F].
    cbn [cat_chain] in H. rewrite rx_Cat in H.
    apply (rx_keeps_capture _ _ Fp) in H. destruct H as (s0 & M & H).
    apply Match_consume in M. destruct M as (w0 & A0 & B0).
    apply (IH F) in H. destruct H as (w & s1 & A1 & B1 & H).
    exists (w0 ++ w), s1. rewrite A0, A1, B1, B0, rev_app_distr, !app_assoc. auto.
Qed.

End GroupFacts.

Lemma group1_span subj m (a t r : str) :
  subj = a ++ t ++ r -> m_g1 m = Some (length a, length a + length t) ->
  group1 subj m = t.
Proof.
  intros E G. unfold group1. rewrite G, E. apply slice_middle.
Qed.

(** A chain of patterns without a group, the group around one class, and a
    pattern without a group: the text of the group is the one character
    that the class took. *)
Lemma search_class_group front neg items post subj m :
  forallb grp_free front = true -> grp_free post = true ->
  re_search (cat_chain front (Cat (Grp (Cls neg items)) post)) subj = Some m ->
  exists c, cls_match false neg items c = true /\ group1 subj m = [c].
Proof.
  intros Ff Fp H. apply re_search_at in H. destruct H as (pre & rest & E & H).
  unfold match_at in H. apply (rx_chain _ _ _ _ Ff) in H.
  destruct H as (w & [b1 t1] & A & B & H). cbn [fst snd] in A, B.
  rewrite rx_Cat in H. apply rx_group in H; [|reflexivity].
  destruct H as (s2 & M & H).
  apply (rx_keeps_capture _ _ _ Fp) in H. destruct H as (s3 & _ & H).
  inversion M as [| | |? ? ? c t2 C| | | | | | | | |]; subst.
  exists c. split; [exact C|]. inversion H; subst m; clear H.
  apply (group1_span _ _ (pre ++ w) [c] t2).
  - now rewrite <- !app_assoc.
  - cbn [m_g1]. unfold cpos. cbn [fst length].
    rewrite !length_app, !length_rev. f_equal. f_equal; lia.
Qed.

Lemma search_number_digits subj m :
  re_search re_number subj = Some m ->
  group1 subj m <> [] /\ forallb isdigit (group1 subj m) = true.
Proof.
  intros H. apply re_search_at in H. destruct H as (pre & rest & E & H).
  unfold match_at, re_number in H. rewrite rx_Cat, rx_Chr in H.
  destruct rest as [|x rest]; [discriminate|].
  destruct (Ascii.eqb "#" x) eqn:X; [|discriminate].
  apply Ascii.eqb_eq in X. subst x.
  apply rx_group in H; [|reflexivity]. destruct H as (s2 & M & H).
  apply Match_Plus_Cls in M. destruct M as (c & w & A & B & F).
  cbn [fst snd] in A, B. inversion H; subst m; clear H.
  assert (G : group1 subj {| m_start := cpos (rev pre, "#" :: rest);
                             m_end := cpos s2;
                             m_g1 := Some (cpos ("#" :: rev pre, rest), cpos s2) |}
              = c :: w).
  { apply (group1_span _ _ (pre ++ ["#"]) (c :: w) (snd s2)).
    - rewrite E, A, <- !app_assoc. reflexivity.
    - cbn [m_g1]. unfold cpos. rewrite B. cbn [fst].
      rewrite !length_app, !length_rev. cbn [length]. rewrite !length_rev.
      f_equal. f_equal; lia. }
  rewrite G. split; [discriminate|].
  apply forallb_forall. intros y Hy.
  rewrite Forall_forall in F. specialize (F y Hy). now rewrite digit_cls in F.
Qed.

Lemma match_quantity_digits line m :
  re_match re_quantity line = Some m ->
  group1 line m = run_of isdigit line /\ run_of isdigit line <> [].
Proof.
  unfold re_match, re_match_ic, match_at, re_quantity. intros H.
  rewrite rx_Cat in H. cbn [rx fst] in H. fold (@rx rmatch false) in H.
  change (rx false (Cat (Grp (Plus digit)) (Plus space)) ([], line) None
            (fun s1 g => Some (mkMatch (cpos ([], line)) (cpos s1) g)) = Some m) in H.
  rewrite rx_Cat in H. apply rx_group in H; [|reflexivity].
  destruct H as (s1 & M1 & H).
  apply rx_keeps_capture in H; [|reflexivity]. destruct H as (s2 & M2 & H).
  apply Match_Plus_Cls in M1. destruct M1 as (c & w & A1 & B1 & F1).
  apply Match_Plus_Cls in M2. destruct M2 as (x & sp & A2 & B2 & F2).
  cbn [fst snd] in A1, B1. inversion H; subst m; clear H.
  assert (Fd : Forall (fun y => isdigit y = true) (c :: w)).
  { eapply Forall_impl; [|exact F1]. intros y Hy. rewrite <- digit_cls. exact Hy. }
  assert (Sx : isspace x = true).
  { inversion F2; subst. now rewrite <- space_cls. }
  assert (R : c :: w = run_of isdigit line /\ snd s1 = after_run isdigit line).
  { apply (run_unique isdigit).
    - rewrite <- run_of_after. symmetry. exact A1.
    - exact Fd.
    - apply run_of_all.
    - intros y t Ey. rewrite A2 in Ey. inversion Ey; subst.
      now apply space_not_digit.
    - intros y t Ey. pose proof (after_run_head isdigit line) as Hh.
      now rewrite Ey in Hh. }
  destruct R as [R _]. rewrite <- R. split; [|discriminate].
  apply (group1_span _ _ [] (c :: w) (snd s1)).
  - exact A1.
  - cbn [m_g1]. unfold cpos. rewrite B1. cbn [fst length].
    rewrite length_app, length_rev. cbn [length]. f_equal. f_equal; lia.
Qed.

(** What a record says about the texts it was read from. *)
Lemma parse_card_line_fields line0 c :
  parse_card_line line0 = Some c ->
  let line := strip line0 in
  exists qm remainder,
    re_match re_quantity line = Some qm /\
    quantity c = int_of_digits (group1 line qm) /\
    collector_number c
    = match re_search re_number remainder with
      | Some nm => group1 remainder nm
      | None => []
      end /\
    rarity c
    = match find_rarity remainder line with
      | Some (subj, rm) => group1 subj rm
      | None => lit "R"
      end /\
    (exists x, card_name c = add_spaces_to_card_name x) /\
    (forall v, variant c = Some v -> exists y, v = add_spaces_to_card_name y) /\
    color c = lit "Colorless" /\ image_url c = None.
Proof.
  unfold parse_card_line. cbv zeta.
  destruct (re_match re_entry (strip line0)); [|discriminate].
  destruct (contains (lit "Quantity") (strip line0)
            || contains (lit "Description") (strip line0)); [discriminate|].
  destruct (re_match re_quantity (strip line0)) as [qm|]; [|discriminate].
  destruct (extract_prices (strip line0)) as [p t].
  destruct (re_search re_magic _); [|discriminate].
  destruct (extract_set_and_card _) as [set_name remainder].
  destruct (re_search re_variant _); intros H; inversion H; subst c; clear H;
    cbn [quantity collector_number rarity card_name variant color image_url];
    exists qm, remainder; repeat split; eauto.
  - intros v E. inversion E; subst. eauto.
  - discriminate.
Qed.

Lemma find_rarity_group remainder line subj rm :
  find_rarity remainder line = Some (subj, rm) ->
  exists c, is_tier c = true /\ group1 subj rm = [c].
Proof.
  unfold find_rarity.
  destruct (re_search re_rarity_mid remainder) as [m1|] eqn:E1.
  { intros H. inversion H; subst.
    apply (search_class_group [Chr "-"] false _ (Chr "-")) in E1; auto. }
  destruct (re_search re_rarity_end remainder) as [m2|] eqn:E2.
  { intros H. inversion H; subst.
    apply (search_class_group [Chr "-"] false _
             (Alts (Eol :: map (fun w : string => Cat (Opt (Chr "-")) (Lit w))
                              ["Near"; "Lightly"; "Moderately"; "Heavily"; "Foil"]%string)))
      in E2; auto. }
  destruct (re_search re_rarity_after_price line) as [m3|] eqn:E3; [|discriminate].
  intros H. inversion H; subst.
  apply (search_class_group [Chr "$"; Plus digit; Opt (Chr "."); Star digit] false _
           (Chr "-")) in E3; auto.
Qed.

Lemma parsed_rarity_known line c :
  parse_card_line line = Some c ->
  dict_has RARITY_ORDER (rarity c) = true /\
  dict_has RARITY_NAMES (rarity c) = true.
Proof.
  intros H. apply parse_card_line_fields in H.
  destruct H as (qm & remainder & _ & _ & _ & R & _). rewrite R.
  destruct (find_rarity remainder (strip line)) as [[subj rm]|] eqn:F;
    [|split; reflexivity].
  apply find_rarity_group in F. destruct F as (x & T & ->).
  unfold is_tier in T. cbn [existsb] in T.
  repeat (apply orb_true_iff in T; destruct T as [T|T];
          [apply Ascii.eqb_eq in T; subst x; split; reflexivity|]).
  discriminate.
Qed.

(** X10.  The rarity of a record is one of the letters of [RARITY_ORDER],
    so that the sheet has a rank and a name for it. *)
Theorem record_rarity_known (line : str) (c : Card) :
  parse_card_line line = Some c ->
  dict_has RARITY_ORDER (rarity c) = true /\
  dict_has RARITY_NAMES (rarity c) = true.
Proof. apply parsed_rarity_known. Qed.

Lemma record_rarity_known_witness :
  exists c, parse_card_line (lit "1 Magic-Foundations-Sol Ring-#5-M-NearMint $1.00 $1.00") = Some c /\
            dict_has RARITY_ORDER (rarity c) = true /\
            dict_has RARITY_NAMES (rarity c) = true.
Proof.
  destruct (parse_card_line (lit "1 Magic-Foundations-Sol Ring-#5-M-NearMint $1.00 $1.00")) as [c|] eqn:E.
  - exists c. split; [reflexivity|]. exact (record_rarity_known _ c E).
  - vm_compute in E. discriminate.
Defined.

(** X11.  The collector number of a record holds digits only (it is empty
    when the line has no number). *)
Theorem record_collector_number_digits (line : str) (c : Card) :
  parse_card_line line = Some c ->
  forallb isdigit (collector_number c) = true.
Proof.
  intros H. apply parse_card_line_fields in H.
  destruct H as (qm & remainder & _ & _ & N & _). rewrite N.
  destruct (re_search re_number remainder) as [nm|] eqn:E; [|reflexivity].
  now apply search_number_digits in E.
Qed.

Lemma record_collector_number_digits_witness :
  exists c, parse_card_line (lit "1 Magic-Foundations-Sol Ring-#5-M-NearMint $1.00 $1.00") = Some c /\
            forallb isdigit (collector_number c) = true.
Proof.
  destruct (parse_card_line (lit "1 Magic-Foundations-Sol Ring-#5-M-NearMint $1.00 $1.00")) as [c|] eqn:E.
  - exists c. split; [reflexivity|]. exact (record_collector_number_digits _ c E).
  - vm_compute in E. discriminate.
Defined.

(** X12.  The quantity of a record is the number that the trimmed line
    begins with: the value of all the digits before its first character that
    is not a digit. *)
Theorem record_quantity_leading_number (line : str) (c : Card) :
  parse_card_line line = Some c ->
  run_of isdigit (strip line) <> [] /\
  quantity c = int_of_digits (run_of isdigit (strip line)).
Proof.
  intros H. apply parse_card_line_fields in H.
  destruct H as (qm & remainder & Q & V & _).
  apply match_quantity_digits in Q. destruct Q as [G N].
  split; [exact N|]. now rewrite V, G.
Qed.

Lemma record_quantity_leading_number_witness :
  exists c, parse_card_line (lit "12 Magic-Foundations-Sol Ring-#5-M-NearMint $1.00 $12.00") = Some c /\
            run_of isdigit (strip (lit "12 Magic-Foundations-Sol Ring-#5-M-NearMint $1.00 $12.00")) <> [] /\
            quantity c = int_of_digits (run_of isdigit (strip (lit "12 Magic-Foundations-Sol Ring-#5-M-NearMint $1.00 $12.00"))).
Proof.
  destruct (parse_card_line (lit "12 Magic-Foundations-Sol Ring-#5-M-NearMint $1.00 $12.00")) as [c|] eqn:E.
  - exists c. split; [reflexivity|]. exact (record_quantity_leading_number _ c E).
  - vm_compute in E. discriminate.
Defined.

(** X13.  The card name and the variant of a record are normalized names:
    their words stand with one blank between them. *)
Theorem record_names_single_spaced (line : str) (c : Card) :
  parse_card_line line = Some c ->
  single_spaced (card_name c) = true /\
  (forall v, variant c = Some v -> single_spaced v = true).
Proof.
  intros H. apply parse_card_line_fields in H.
  destruct H as (qm & remainder & _ & _ & _ & _ & (x & Ex) & V & _).
  split.
  - rewrite Ex. apply add_spaces_single_spaced.
  - intros v Ev. destruct (V v Ev) as (y & ->). apply add_spaces_single_spaced.
Qed.

Lemma record_names_single_spaced_witness :
  exists c, parse_card_line (lit "1 Magic-Foundations-SolRing(Borderless)-#5-M-NearMint $1.00 $1.00")
            = Some c /\
            single_spaced (card_name c) = true /\
            (forall v, variant c = Some v -> single_spaced v = true).
Proof.
  destruct (parse_card_line (lit "1 Magic-Foundations-SolRing(Borderless)-#5-M-NearMint $1.00 $1.00"))
    as [c|] eqn:E.
  - exists c. split; [reflexivity|]. exact (record_names_single_spaced _ c E).
  - vm_compute in E. discriminate.
Defined.

(** ** The known prefixes, the longest first *)

Lemma insert_by_len_has x y l : x = y \/ In x l -> In x (insert_by_len y l).
Proof.
  induction l as [|z l IH]; simpl.
  - intros [H|[]]; auto.
  - destruct (length z <=? length y); simpl; intros [H|[H|H]]; auto.
Qed.

Lemma sorted_by_len_desc_has x l : In x l -> In x (sorted_by_len_desc l).
Proof.
  induction l as [|y l IH]; simpl; [auto|].
  intros [H|H]; apply insert_by_len_has; auto.
Qed.

Lemma insert_by_len_longest_first x : forall l,
  longest_first l = true -> longest_first (insert_by_len x l) = true.
Proof.
  induction l as [|y l IH]; intros H; [reflexivity|].
  cbn [insert_by_len]. destruct (length y <=? length x) eqn:L.
  - cbn [longest_first forallb] in *. rewrite L, H, andb_true_r. cbn [andb].
    apply andb_true_iff in H. destruct H as [F _].
    apply forallb_forall. intros z Hz. rewrite forallb_forall in F.
    specialize (F z Hz). apply Nat.leb_le in F, L. apply Nat.leb_le. lia.
  - cbn [longest_first] in *. apply andb_true_iff in H. destruct H as [F S].
    rewrite (IH S), andb_true_r.
    apply forallb_forall. intros z Hz. apply insert_by_len_in in Hz.
    destruct Hz as [->|Hz].
    + apply Nat.leb_gt in L. apply Nat.leb_le. lia.
    + rewrite forallb_forall in F. now apply F.
Qed.

Lemma sorted_by_len_desc_longest_first l : longest_first (sorted_by_len_desc l) = true.
Proof.
  induction l as [|x l IH]; [reflexivity|]. simpl.
  now apply insert_by_len_longest_first.
Qed.

Lemma match_prefix_longest : forall ps d p,
  longest_first ps = true -> In p ps -> startswith (p ++ ["-"]) d = true ->
  exists g r, match_prefix ps d = Some (g, r) /\ length p <= length g.
Proof.
  induction ps as [|q ps IH]; intros d p S Hin Hp; [destruct Hin|].
  cbn [longest_first] in S. apply andb_true_iff in S. destruct S as [F S].
  cbn [match_prefix]. destruct (startswith (q ++ ["-"]) d) eqn:Q.
  - eexists _, _. split; [reflexivity|].
    destruct Hin as [->|Hin]; [lia|].
    rewrite forallb_forall in F. apply F in Hin. now apply Nat.leb_le in Hin.
  - destruct Hin as [->|Hin]; [congruence|]. now apply IH.
Qed.

(** X14.  The most specific known prefix wins: when the description begins
    with a known prefix and a hyphen, the splitter gives a known prefix as
    the group, the text after its hyphen as the remainder, and no known
    prefix that the description begins with in this way is longer than the
    group. *)
Theorem known_prefix_longest (description : str) (p : string) :
  In p KNOWN_SET_PREFIXES ->
  startswith (lit p ++ ["-"]) description = true ->
  let (group_raw, remainder) := extract_set_and_card description in
  In group_raw (map lit KNOWN_SET_PREFIXES) /\
  description = group_raw ++ "-" :: remainder /\
  length (lit p) <= length group_raw.
Proof.
  intros Hin Hp.
  destruct (match_prefix_longest sorted_prefixes description (lit p)) as (g & r & M & L).
  - apply sorted_by_len_desc_longest_first.
  - apply sorted_by_len_desc_has, in_map, Hin.
  - exact Hp.
  - unfold extract_set_and_card. rewrite M.
    apply match_prefix_some in M. destruct M as [G E].
    apply sorted_by_len_desc_in in G. auto.
Qed.

Lemma known_prefix_longest_witness :
  let (group_raw, remainder) :=
    extract_set_and_card (lit "Avatar:TheLastAirbender:Eternal-Legal-Aang-#1-R") in
  In group_raw (map lit KNOWN_SET_PREFIXES) /\
  lit "Avatar:TheLastAirbender:Eternal-Legal-Aang-#1-R" = group_raw ++ "-" :: remainder /\
  length (lit "Avatar:TheLastAirbender:Eternal-Legal") <= length group_raw.
Proof.
  apply (known_prefix_longest _ "Avatar:TheLastAirbender:Eternal-Legal"%string).
  - vm_compute. tauto.
  - vm_compute. reflexivity.
Defined.

(** ** Escaped text *)

Lemma replace_chr c new : forall s,
  replace [c] new s = flat_map (fun x => if Ascii.eqb x c then new else [x]) s.
Proof.
  unfold replace. induction s as [|x s IH]; [reflexivity|].
  cbn [replace_from startswith flat_map length Nat.sub].
  rewrite (Ascii.eqb_sym c x). destruct (Ascii.eqb x c); cbn [andb]; now rewrite IH.
Qed.

Lemma flat_map_flat_map {A B C : Type} (f : A -> list B) (g : B -> list C) l :
  flat_map g (flat_map f l) = flat_map (fun x => flat_map g (f x)) l.
Proof.
  induction l as [|x l IH]; [reflexivity|].
  cbn [flat_map]. now rewrite flat_map_app, IH.
Qed.

Lemma html_escape_chars text : html_escape text = flat_map escape_char text.
Proof.
  unfold html_escape. change (lit ">") with [">"]. change (lit "<") with ["<"].
  change (lit "&") with ["&"]. rewrite !replace_chr, !flat_map_flat_map.
  apply flat_map_ext. intros c. unfold escape_char.
  destruct (Ascii.eqb c "&") eqn:A.
  - apply Ascii.eqb_eq in A. subst c. reflexivity.
  - cbn [flat_map app]. destruct (Ascii.eqb c "<") eqn:L.
    + reflexivity.
    + cbn [flat_map app]. destruct (Ascii.eqb c ">"); reflexivity.
Qed.

(** X15.  The card name and the set name go into the page without markup:
    the escaped text holds no angle bracket, and every ampersand in it
    begins one of the entities for the ampersand and the two brackets. *)
Theorem html_escape_safe (text : str) :
  entities_only (html_escape text) = true /\
  ~ In "<" (html_escape text) /\ ~ In ">" (html_escape text).
Proof.
  assert (E : entities_only (html_escape text) = true).
  { rewrite html_escape_chars. induction text as [|c text IH]; [reflexivity|].
    cbn [flat_map]. unfold escape_char at 1.
    destruct (Ascii.eqb c "&") eqn:A; [cbn; exact IH|].
    destruct (Ascii.eqb c "<") eqn:L; [cbn; exact IH|].
    destruct (Ascii.eqb c ">") eqn:G; [cbn; exact IH|].
    cbn [app entities_only]. now rewrite A, L, G, IH. }
  split; [exact E|].
  revert E. generalize (html_escape text). intros s.
  induction s as [|c s IH]; intros E; [split; intros []|].
  cbn [entities_only] in E. apply andb_true_iff in E. destruct E as [C E].
  destruct (IH E) as [N1 N2].
  split; intros [H|H]; try contradiction; subst c; discriminate.
Qed.

(** ** The path of the page *)

Lemma find_chr_first x : forall s k,
  find_chr x s = Some k -> ~ In x (firstn k s).
Proof.
  induction s as [|c s IH]; intros k H; [discriminate|].
  simpl in H. destruct (Ascii.eqb c x) eqn:E.
  - injection H as <-. intros [].
  - destruct (find_chr x s) as [k'|] eqn:F; [|discriminate].
    injection H as <-. cbn [firstn]. intros [->|H].
    + now rewrite Ascii.eqb_refl in E.
    + exact (IH k' eq_refl H).
Qed.

Lemma rsplit1_head_last x s :
  (rsplit1_head x s = s /\ ~ In x s) \/
  exists ext, s = rsplit1_head x s ++ x :: ext /\ ~ In x ext.
Proof.
  unfold rsplit1_head. destruct (find_chr x (rev s)) as [i|] eqn:F.
  - right. pose proof (find_chr_bound _ _ _ F) as B.
    pose proof (find_chr_first _ _ _ F) as N.
    apply firstn_find_chr in F. rewrite length_rev in B.
    apply (f_equal (@rev ascii)) in F. rewrite rev_involutive, rev_app_distr in F.
    cbn [rev] in F. rewrite <- app_assoc in F. cbn [app] in F.
    assert (L : length (rev (skipn (i + 1) (rev s))) = length s - i - 1).
    { rewrite length_rev, length_skipn, length_rev. lia. }
    rewrite <- L. clear L B.
    assert (N' : ~ In x (rev (firstn i (rev s)))).
    { intros H. apply N. now apply in_rev. }
    clear N.
    revert F N'. generalize (rev (skipn (i + 1) (rev s))) (rev (firstn i (rev s))).
    intros a b F N. exists b. subst s. split; [|exact N].
    now rewrite firstn_app, Nat.sub_diag, firstn_all, app_nil_r.
  - left. split; [reflexivity|]. intros H. apply in_rev in H.
    clear - F H. induction (rev s) as [|c t IH]; [destruct H|].
    simpl in F. destruct (Ascii.eqb c x) eqn:E; [discriminate|].
    destruct (find_chr x t); [discriminate|].
    destruct H as [H|H]; [subst; now rewrite Ascii.eqb_refl in E | auto].
Qed.

Lemma split_last_unique (x : ascii) : forall a a' b b',
  a ++ x :: b = a' ++ x :: b' -> ~ In x b -> ~ In x b' -> a = a'.
Proof.
  induction a as [|c a IH]; intros [|c' a'] b b' E N N'.
  - reflexivity.
  - exfalso. apply N. injection E as _ ->. apply in_elt.
  - exfalso. apply N'. injection E as _ <-. apply in_elt.
  - injection E as -> E. f_equal. exact (IH _ _ _ E N N').
Qed.

(** X16.  The page never takes the place of the slip.  The default path of
    the page is the path of the slip, cut before its last period if it has
    one, with the ending of the page: a path with no period gets the ending
    after all of it; a path that reads as a stem, a period and an extension
    without a period gets the ending after the stem, whatever periods the
    stem holds.  It is never the path of the slip itself. *)
Theorem default_output_path_differs (pdf_path : str) :
  default_output_path pdf_path <> pdf_path /\
  (~ In "." pdf_path ->
   default_output_path pdf_path = pdf_path ++ lit "_organized.html") /\
  (forall stem ext, pdf_path = stem ++ "." :: ext -> ~ In "." ext ->
     default_output_path pdf_path = stem ++ lit "_organized.html") /\
  ((~ In "." pdf_path) \/
   exists stem ext, pdf_path = stem ++ "." :: ext /\ ~ In "." ext).
Proof.
  unfold default_output_path.
  destruct (rsplit1_head_last "." pdf_path) as [[E N]|(ext & E & N)].
  - rewrite E. split; [|split; [|split]].
    + intros H. apply (f_equal (@length ascii)) in H. rewrite length_app in H.
      simpl in H. lia.
    + reflexivity.
    + intros stem ext' P _. exfalso. apply N. rewrite P. apply in_elt.
    + now left.
  - split; [|split; [|split]].
    + intros H. rewrite E in H at 2. apply app_inv_head in H. discriminate.
    + intros N'. exfalso. apply N'. rewrite E. apply in_elt.
    + intros stem ext' P N'. f_equal. rewrite P in E at 1.
      symmetry. exact (split_last_unique _ _ _ _ _ E N' N).
    + right. eauto.
Qed.

Lemma default_output_path_differs_witness :
  default_output_path (lit "slips/order.2024.pdf") = lit "slips/order.2024_organized.html".
Proof.
  apply (proj1 (proj2 (proj2 (default_output_path_differs (lit "slips/order.2024.pdf"))))
           (lit "slips/order.2024") (lit "pdf")).
  - reflexivity.
  - vm_compute. intuition discriminate.
Defined.

(** ** The pull sheet *)

(** *** Sorting by a key *)

Section SortFacts.

Context {A K : Type}.
Variable ltb : K -> K -> bool.
Variable key : A -> K.

Hypothesis ltb_asym : forall a b, ltb a b = true -> ltb b a = false.
Hypothesis ltb_trans : forall a b c, ltb b a = false -> ltb c b = false -> ltb c a = false.

Lemma insert_by_key_perm x : forall l, Permutation (insert_by_key ltb key x l) (x :: l).
Proof.
  induction l as [|y l IH]; cbn [insert_by_key]; [reflexivity|].
  destruct (ltb (key y) (key x)); [|reflexivity].
  rewrite IH. apply perm_swap.
Qed.

Lemma sorted_by_key_perm : forall l, Permutation (sorted_by_key ltb key l) l.
Proof.
  induction l as [|x l IH]; [reflexivity|]. cbn [sorted_by_key fold_right].
  rewrite insert_by_key_perm. now constructor.
Qed.

Lemma insert_by_key_ascending x : forall l,
  ascending (not_after ltb key) l = true ->
  ascending (not_after ltb key) (insert_by_key ltb key x l) = true.
Proof.
  induction l as [|y l IH]; intros H; [reflexivity|].
  cbn [ascending] in H. apply andb_true_iff in H. destruct H as [F S].
  cbn [insert_by_key]. destruct (ltb (key y) (key x)) eqn:L.
  - cbn [ascending]. rewrite (IH S), andb_true_r.
    apply forallb_forall. intros z Hz.
    apply (Permutation_in _ (insert_by_key_perm x l)) in Hz.
    destruct Hz as [<-|Hz].
    + unfold not_after. now rewrite (ltb_asym _ _ L).
    + rewrite forallb_forall in F. now apply F.
  - cbn [ascending forallb]. rewrite F, S, !andb_true_r.
    unfold not_after at 1. rewrite L. cbn [negb andb].
    apply forallb_forall. intros z Hz. rewrite forallb_forall in F.
    specialize (F z Hz). unfold not_after in *.
    apply negb_true_iff in F. now rewrite (ltb_trans _ _ _ L F).
Qed.

Lemma sorted_by_key_ascending l :
  ascending (not_after ltb key) (sorted_by_key ltb key l) = true.
Proof.
  induction l as [|x l IH]; [reflexivity|]. now apply insert_by_key_ascending.
Qed.

End SortFacts.

Lemma nat_ltb_asym a b : (a <? b) = true -> (b <? a) = false.
Proof. intros H. apply Nat.ltb_lt in H. apply Nat.ltb_ge. lia. Qed.

Lemma nat_ltb_trans a b c : (b <? a) = false -> (c <? b) = false -> (c <? a) = false.
Proof. intros H1 H2. apply Nat.ltb_ge in H1, H2. apply Nat.ltb_ge. lia. Qed.

Ltac nat_bools :=
  repeat match goal with
         | H : (_ <? _) = true |- _ => apply Nat.ltb_lt in H
         | H : (_ <? _) = false |- _ => apply Nat.ltb_ge in H
         | H : (_ =? _) = true |- _ => apply Nat.eqb_eq in H
         | H : (_ =? _) = false |- _ => apply Nat.eqb_neq in H
         end.

Lemma str_ltb_asym : forall a b, str_ltb a b = true -> str_ltb b a = false.
Proof.
  induction a as [|x a IH]; intros [|y b] H; try reflexivity; try discriminate.
  cbn [str_ltb] in *.
  destruct (code x <? code y) eqn:L1, (code x =? code y) eqn:E1,
           (code y <? code x) eqn:L2, (code y =? code x) eqn:E2;
    cbn [orb andb] in *; nat_bools; try lia; try reflexivity; try discriminate.
  now apply IH.
Qed.

Lemma str_ltb_trans : forall a b c,
  str_ltb b a = false -> str_ltb c b = false -> str_ltb c a = false.
Proof.
  induction a as [|x a IH]; intros b c H1 H2.
  - destruct c; reflexivity.
  - destruct b as [|y b]; [discriminate|].
    destruct c as [|z c]; [discriminate|].
    cbn [str_ltb] in *.
    destruct (code y <? code x) eqn:L1, (code y =? code x) eqn:E1,
             (code z <? code y) eqn:L2, (code z =? code y) eqn:E2,
             (code z <? code x) eqn:L3, (code z =? code x) eqn:E3;
      cbn [orb andb] in *; nat_bools; try lia; try reflexivity; try discriminate.
    now apply (IH b c).
Qed.

Lemma pair_ltb_asym a b : pair_ltb a b = true -> pair_ltb b a = false.
Proof.
  unfold pair_ltb. intros H.
  destruct (fst a <? fst b) eqn:L1, (fst a =? fst b) eqn:E1,
           (fst b <? fst a) eqn:L2, (fst b =? fst a) eqn:E2;
    cbn [orb andb] in *; nat_bools; try lia; try reflexivity; try discriminate.
  now apply str_ltb_asym.
Qed.

Lemma pair_ltb_trans a b c :
  pair_ltb b a = false -> pair_ltb c b = false -> pair_ltb c a = false.
Proof.
  unfold pair_ltb. intros H1 H2.
  destruct (fst b <? fst a) eqn:L1, (fst b =? fst a) eqn:E1,
           (fst c <? fst b) eqn:L2, (fst c =? fst b) eqn:E2,
           (fst c <? fst a) eqn:L3, (fst c =? fst a) eqn:E3;
    cbn [orb andb] in *; nat_bools; try lia; try reflexivity; try discriminate.
  now apply (str_ltb_trans _ (snd b)).
Qed.

(** *** Dicts *)

Lemma str_eqb_refl a : str_eqb a a = true.
Proof. now apply str_eqb_eq. Qed.

Lemma dict_get_in {V : Type} (d : dict V) k v : dict_get d k = Some v -> In (k, v) d.
Proof.
  induction d as [|[k' v'] d IH]; cbn [dict_get]; [discriminate|].
  destruct (str_eqb k' k) eqn:E.
  - apply str_eqb_eq in E. intros H. inversion H; subst. now left.
  - intros H. right. auto.
Qed.

Lemma dict_get_none {V : Type} (d : dict V) k : dict_get d k = None -> ~ In k (map fst d).
Proof.
  induction d as [|[k' v'] d IH]; cbn [dict_get map fst]; [auto|].
  destruct (str_eqb k' k) eqn:E; [discriminate|].
  intros H [G|G]; [|now apply IH].
  subst. now rewrite str_eqb_refl in E.
Qed.

Lemma dict_get_nodup {V : Type} (d : dict V) k v :
  NoDup (map fst d) -> In (k, v) d -> dict_get d k = Some v.
Proof.
  induction d as [|[k' v'] d IH]; intros N H; [destruct H|].
  cbn [map fst] in N. apply NoDup_cons_iff in N. destruct N as [N1 N2].
  cbn [dict_get]. destruct H as [H|H].
  - inversion H; subst. now rewrite str_eqb_refl.
  - destruct (str_eqb k' k) eqn:E; [|auto].
    apply str_eqb_eq in E. subst. exfalso. apply N1.
    apply in_map_iff. now exists (k, v).
Qed.

Lemma dict_update_in {V : Type} (d : dict V) k f k' v' :
  In (k', v') (dict_update d k f) ->
  (k' = k /\ v' = f (dict_get d k)) \/ In (k', v') d.
Proof.
  induction d as [|[k0 v0] d IH]; cbn [dict_update dict_get].
  - intros [H|[]]. inversion H; subst. auto.
  - destruct (str_eqb k0 k) eqn:E.
    + apply str_eqb_eq in E. subst. intros [H|H].
      * inversion H; subst. auto.
      * right. now right.
    + intros [H|H]; [right; now left|].
      destruct (IH H) as [G|G]; [now left | right; now right].
Qed.

Lemma dict_update_keys {V : Type} (d : dict V) k f :
  NoDup (map fst d) -> NoDup (map fst (dict_update d k f)).
Proof.
  induction d as [|[k0 v0] d IH]; intros N; cbn [dict_update].
  - cbn. constructor; [intros []|constructor].
  - destruct (str_eqb k0 k) eqn:E; [exact N|].
    cbn [map fst] in *. apply NoDup_cons_iff in N. destruct N as [N1 N2].
    constructor; [|auto].
    intros H. apply in_map_iff in H. destruct H as ([k1 v1] & E1 & H).
    cbn [fst] in E1. subst k1.
    apply dict_update_in in H. destruct H as [[-> _]|H].
    + now rewrite str_eqb_refl in E.
    + apply N1. apply in_map_iff. now exists (k0, v1).
Qed.

Lemma dict_update_nonempty {V : Type} (d : dict V) k f : dict_update d k f <> [].
Proof.
  destruct d as [|[k0 v0] d]; cbn [dict_update]; [discriminate|].
  destruct (str_eqb k0 k); discriminate.
Qed.

(** A write that adds one item to what an entry holds adds it to what the
    dict holds. *)
Lemma dict_update_perm {V B : Type} (holds : V -> list B) (d : dict V) k f x :
  (forall ov, Permutation (holds (f ov))
                (x :: match ov with Some v => holds v | None => [] end)) ->
  Permutation (flat_map (fun entry => holds (snd entry)) (dict_update d k f))
              (x :: flat_map (fun entry => holds (snd entry)) d).
Proof.
  intros Hf. induction d as [|[k0 v0] d IH]; cbn [dict_update].
  - cbn [flat_map snd]. rewrite app_nil_r. apply (Hf None).
  - destruct (str_eqb k0 k).
    + cbn [flat_map snd]. rewrite (Hf (Some v0)). reflexivity.
    + cbn [flat_map snd]. rewrite IH. symmetry. apply Permutation_middle.
Qed.

Lemma flat_map_ext_in {X Y : Type} (f g : X -> list Y) l :
  (forall x, In x l -> f x = g x) -> flat_map f l = flat_map g l.
Proof.
  induction l as [|x l IH]; intros H; [reflexivity|].
  cbn [flat_map]. rewrite (H x) by now left. rewrite IH; [reflexivity|].
  intros y Hy. apply H. now right.
Qed.

(** Reading the entries by the keys gives the entries. *)
Lemma dict_flat_map_keys {V B : Type} (h : V -> list B) (d : dict V) default :
  NoDup (map fst d) ->
  flat_map (fun k => h (dict_get_or d k default)) (map fst d)
  = flat_map (fun entry => h (snd entry)) d.
Proof.
  intros N. rewrite flat_map_concat_map, map_map, <- flat_map_concat_map.
  apply flat_map_ext_in. intros [k v] H. cbn [fst snd].
  unfold dict_get_or. now rewrite (dict_get_nodup _ _ _ N H).
Qed.

Lemma permutation_flat_map_pieces {X Y : Type} (f g : X -> list Y) l :
  (forall x, In x l -> Permutation (f x) (g x)) ->
  Permutation (flat_map f l) (flat_map g l).
Proof.
  induction l as [|x l IH]; intros H; [reflexivity|].
  cbn [flat_map]. apply Permutation_app; [apply H; now left|].
  apply IH. intros y Hy. apply H. now right.
Qed.

(** *** What [organized] holds *)

Lemma organize_step_cards o card :
  Permutation (cards_of (organize_step o card)) (card :: cards_of o).
Proof.
  unfold cards_of, organize_step.
  apply (dict_update_perm (fun by_rarity : dict (list Card) => flat_map snd by_rarity)).
  intros ov.
  assert (E : match ov with
              | Some v => flat_map snd v
              | None => []
              end
              = flat_map (fun entry : str * list Card => snd entry)
                         match ov with Some d => d | None => [] end)
    by (destruct ov; reflexivity).
  rewrite E.
  apply (dict_update_perm (fun l : list Card => l)).
  intros ol. destruct ol as [l|]; cbn [app].
  - symmetry. apply Permutation_cons_append.
  - reflexivity.
Qed.

Lemma organize_cards_from : forall cards o,
  Permutation (cards_of (fold_left organize_step cards o)) (cards_of o ++ cards).
Proof.
  induction cards as [|c cards IH]; intros o; cbn [fold_left].
  - now rewrite app_nil_r.
  - rewrite IH, organize_step_cards. apply Permutation_middle.
Qed.

Lemma organize_cards cards : Permutation (cards_of (organize cards)) cards.
Proof. apply (organize_cards_from cards []). Qed.

Lemma organize_step_well o card :
  organized_well o -> organized_well (organize_step o card).
Proof.
  intros [N W]. split; [now apply dict_update_keys|].
  intros k by_rarity H. apply dict_update_in in H. destruct H as [[-> ->]|H]; [|auto].
  set (old := match dict_get o (color card) with Some d => d | None => [] end).
  assert (Wold : NoDup (map fst old) /\
                 forall r l, In (r, l) old ->
                   l <> [] /\ forall c, In c l -> color c = color card /\ rarity c = r).
  { unfold old. destruct (dict_get o (color card)) as [d|] eqn:G.
    - apply dict_get_in in G. destruct (W _ _ G) as (A & _ & B). auto.
    - split; [constructor | intros r l []]. }
  destruct Wold as [Nold Wold].
  split; [now apply dict_update_keys|]. split; [apply dict_update_nonempty|].
  intros r l H. apply dict_update_in in H. destruct H as [[-> ->]|H]; [|auto].
  split.
  - destruct (dict_get old (rarity card)); [|discriminate].
    intros E. apply app_eq_nil in E. destruct E as [_ E]. discriminate.
  - intros c Hc. apply in_app_or in Hc. destruct Hc as [Hc|[<-|[]]]; [|auto].
    destruct (dict_get old (rarity card)) as [l0|] eqn:G; [|destruct Hc].
    apply dict_get_in in G. destruct (Wold _ _ G) as [_ B]. auto.
Qed.

Lemma organize_well cards : organized_well (organize cards).
Proof.
  unfold organize.
  assert (G : forall cs o, organized_well o -> organized_well (fold_left organize_step cs o)).
  { induction cs as [|c cs IH]; intros o H; [exact H|].
    cbn [fold_left]. apply IH. now apply organize_step_well. }
  apply G. split; [constructor | intros k d []].
Qed.

(** *** The page holds every card once *)

Lemma pull_order_sections cards :
  pull_order cards
  = flat_map (section_cards (organize cards))
             (sorted_by_key Nat.ltb color_rank (map fst (organize cards))).
Proof.
  unfold pull_order, sheet_sections.
  rewrite flat_map_concat_map, map_map, <- flat_map_concat_map.
  apply flat_map_ext. intros color. cbn [snd]. unfold section_cards.
  now rewrite flat_map_concat_map, map_map, <- flat_map_concat_map.
Qed.

Lemma section_cards_perm o color :
  organized_well o -> In color (map fst o) ->
  Permutation (section_cards o color) (flat_map snd (dict_get_or o color [])).
Proof.
  intros [N W] Hin. unfold section_cards.
  set (cc := dict_get_or o color []).
  assert (Ncc : NoDup (map fst cc)).
  { unfold cc, dict_get_or. destruct (dict_get o color) as [d|] eqn:G; [|constructor].
    apply dict_get_in in G. now destruct (W _ _ G). }
  rewrite (Permutation_flat_map _ (sorted_by_key_perm Nat.ltb rarity_rank (map fst cc))).
  assert (E : flat_map (fun k => dict_get_or cc k []) (map fst cc) = flat_map snd cc)
    by exact (dict_flat_map_keys (fun l : list Card => l) cc [] Ncc).
  rewrite <- E.
  apply permutation_flat_map_pieces. intros r _. apply sorted_by_key_perm.
Qed.

(** X17.  The page shows every card once: the cards in the order of the
    page are the cards that came in, in another order. *)
Theorem pull_sheet_complete (cards : list Card) :
  Permutation (pull_order cards) cards.
Proof.
  rewrite pull_order_sections.
  destruct (organize_well cards) as [N W].
  transitivity (cards_of (organize cards)); [|apply organize_cards].
  assert (E : flat_map (fun k => flat_map snd (dict_get_or (organize cards) k []))
                       (map fst (organize cards))
              = cards_of (organize cards))
    by exact (dict_flat_map_keys (fun d : dict (list Card) => flat_map snd d)
                                 (organize cards) [] N).
  rewrite <- E.
  transitivity (flat_map (section_cards (organize cards)) (map fst (organize cards))).
  - apply Permutation_flat_map, sorted_by_key_perm.
  - apply permutation_flat_map_pieces. intros color H.
    apply section_cards_perm; [|exact H]. now split.
Qed.

(** *** The order of the page *)

Lemma ascending_app {A : Type} (le : A -> A -> bool) : forall a b,
  ascending le a = true -> ascending le b = true ->
  (forall x y, In x a -> In y b -> le x y = true) ->
  ascending le (a ++ b) = true.
Proof.
  induction a as [|x a IH]; intros b Ha Hb H; [exact Hb|].
  cbn [app ascending] in *. apply andb_true_iff in Ha. destruct Ha as [F S].
  apply andb_true_iff. split.
  - rewrite forallb_app, F. cbn [andb]. apply forallb_forall. intros y Hy.
    apply H; [now left | exact Hy].
  - apply IH; auto. intros u v Hu Hv. apply H; [now right | exact Hv].
Qed.

Lemma ascending_flat_map {X A : Type} (le : A -> A -> bool) (f : X -> list A) : forall L,
  (forall x, In x L -> ascending le (f x) = true) ->
  ForallOrdPairs (fun x y => forall a b, In a (f x) -> In b (f y) -> le a b = true) L ->
  ascending le (flat_map f L) = true.
Proof.
  induction L as [|x L IH]; intros H P; [reflexivity|].
  inversion P as [|? ? F P']; subst. cbn [flat_map]. apply ascending_app.
  - apply H. now left.
  - apply IH; [|exact P']. intros y Hy. apply H. now right.
  - intros a b Ha Hb. apply in_flat_map in Hb. destruct Hb as (y & Hy & Hb).
    rewrite Forall_forall in F. now apply (F y Hy).
Qed.

Lemma ascending_weaken {A : Type} (le1 le2 : A -> A -> bool) : forall l,
  ascending le1 l = true ->
  (forall x y, In x l -> In y l -> le1 x y = true -> le2 x y = true) ->
  ascending le2 l = true.
Proof.
  induction l as [|x l IH]; intros H W; [reflexivity|].
  cbn [ascending] in *. apply andb_true_iff in H. destruct H as [F S].
  apply andb_true_iff. split.
  - apply forallb_forall. intros y Hy. rewrite forallb_forall in F.
    apply W; [now left | now right | now apply F].
  - apply IH; [exact S|]. intros u v Hu Hv. apply W; now right.
Qed.

(** Distinct items with distinct ranks, in the order of their ranks, stand
    in the strict order of their ranks. *)
Lemma ascending_strict {A : Type} (rank : A -> nat) : forall l,
  ascending (not_after Nat.ltb rank) l = true -> NoDup l ->
  (forall x y, In x l -> In y l -> rank x = rank y -> x = y) ->
  ForallOrdPairs (fun x y => rank x < rank y) l.
Proof.
  induction l as [|x l IH]; intros H N I; [constructor|].
  cbn [ascending] in H. apply andb_true_iff in H. destruct H as [F S].
  apply NoDup_cons_iff in N. destruct N as [N1 N2].
  constructor.
  - apply Forall_forall. intros y Hy. rewrite forallb_forall in F.
    specialize (F y Hy). unfold not_after in F. apply negb_true_iff in F.
    apply Nat.ltb_ge in F.
    assert (rank x <> rank y).
    { intros E. apply N1. rewrite (I x y); auto; [now left | now right]. }
    lia.
  - apply IH; auto. intros u v Hu Hv. apply I; now right.
Qed.

Lemma ForallOrdPairs_weaken {A : Type} (R R' : A -> A -> Prop) : forall l,
  ForallOrdPairs R l ->
  (forall x y, In x l -> In y l -> R x y -> R' x y) ->
  ForallOrdPairs R' l.
Proof.
  induction l as [|x l IH]; intros P W; [constructor|].
  inversion P as [|? ? F P']; subst. constructor.
  - apply Forall_forall. intros y Hy. rewrite Forall_forall in F.
    apply W; [now left | now right | now apply F].
  - apply IH; [exact P'|]. intros u v Hu Hv. apply W; now right.
Qed.

Lemma dict_has_in {V : Type} (d : dict V) k : dict_has d k = true -> In k (map fst d).
Proof.
  unfold dict_has. destruct (dict_get d k) as [v|] eqn:G; [|discriminate].
  intros _. apply dict_get_in in G. apply in_map_iff. now exists (k, v).
Qed.

Lemma color_rank_inj k1 k2 :
  dict_has COLOR_ORDER k1 = true -> dict_has COLOR_ORDER k2 = true ->
  color_rank k1 = color_rank k2 -> k1 = k2.
Proof.
  intros H1 H2. apply dict_has_in in H1, H2. cbn [map fst COLOR_ORDER] in H1, H2.
  repeat (destruct H1 as [<-|H1]);
    try (repeat (destruct H2 as [<-|H2]); try (intros E; vm_compute in E; discriminate);
         try reflexivity; destruct H2).
  destruct H1.
Qed.

Lemma rarity_rank_inj k1 k2 :
  dict_has RARITY_ORDER k1 = true -> dict_has RARITY_ORDER k2 = true ->
  rarity_rank k1 = rarity_rank k2 -> k1 = k2.
Proof.
  intros H1 H2. apply dict_has_in in H1, H2. cbn [map fst RARITY_ORDER] in H1, H2.
  repeat (destruct H1 as [<-|H1]);
    try (repeat (destruct H2 as [<-|H2]); try (intros E; vm_compute in E; discriminate);
         try reflexivity; destruct H2).
  destruct H1.
Qed.

(** Every key of [organized] is the color of a card in it, and every key
    under a color the rarity of a card in it. *)
Lemma organized_entry o k by_rarity r l c :
  In (k, by_rarity) o -> In (r, l) by_rarity -> In c l -> In c (cards_of o).
Proof.
  intros H1 H2 H3. unfold cards_of. apply in_flat_map. exists (k, by_rarity).
  split; [exact H1|]. apply in_flat_map. exists (r, l). auto.
Qed.

Lemma organized_color_key o k :
  organized_well o -> In k (map fst o) ->
  exists c, In c (cards_of o) /\ color c = k.
Proof.
  intros [N W] H. apply in_map_iff in H. destruct H as ([k' d] & <- & H).
  destruct (W _ _ H) as (_ & Nd & Wd).
  destruct d as [|[r l] d]; [congruence|].
  destruct (Wd r l (or_introl eq_refl)) as [Nl Wl].
  destruct l as [|c l]; [congruence|].
  exists c. split.
  - eapply organized_entry; [exact H | now left | now left].
  - now apply Wl; left.
Qed.

Lemma organized_rarity_key o k by_rarity r :
  organized_well o -> In (k, by_rarity) o -> In r (map fst by_rarity) ->
  exists c, In c (cards_of o) /\ rarity c = r.
Proof.
  intros [N W] H Hr. apply in_map_iff in Hr. destruct Hr as ([r' l] & <- & Hr).
  destruct (W _ _ H) as (_ & _ & Wd). destruct (Wd _ _ Hr) as [Nl Wl].
  destruct l as [|c l]; [congruence|].
  exists c. split.
  - eapply organized_entry; [exact H | exact Hr | now left].
  - now apply Wl; left.
Qed.

Lemma dict_get_or_entry {V : Type} (o : dict (list V)) k x :
  In x (dict_get_or o k []) -> In (k, dict_get_or o k []) o.
Proof.
  unfold dict_get_or. destruct (dict_get o k) as [d|] eqn:G; [|intros []].
  intros _. now apply dict_get_in.
Qed.

Lemma block_member o k r c :
  organized_well o -> In c (block_cards (dict_get_or o k []) r) ->
  color c = k /\ rarity c = r.
Proof.
  intros [N W] H. unfold block_cards in H.
  apply (Permutation_in _ (sorted_by_key_perm _ _ _)) in H.
  pose proof (dict_get_or_entry _ _ _ H) as H2.
  assert (H1 : In (k, dict_get_or o k []) o).
  { unfold dict_get_or in *.
    destruct (dict_get o k) as [d|] eqn:G; [now apply dict_get_in | destruct H2]. }
  destruct (W _ _ H1) as (_ & _ & Wd). destruct (Wd _ _ H2) as [_ Wl]. auto.
Qed.

Lemma section_member o k c :
  organized_well o -> In c (section_cards o k) -> color c = k.
Proof.
  intros W H. unfold section_cards in H. apply in_flat_map in H.
  destruct H as (r & _ & H). now apply (block_member o k r c W).
Qed.

Lemma sheet_le_color a b :
  color_rank (color a) < color_rank (color b) -> sheet_le a b = true.
Proof.
  intros H. unfold sheet_le. apply Nat.ltb_lt in H. now rewrite H.
Qed.

Lemma sheet_le_rarity a b :
  color a = color b -> rarity_rank (rarity a) < rarity_rank (rarity b) ->
  sheet_le a b = true.
Proof.
  intros E H. unfold sheet_le. rewrite E, Nat.eqb_refl.
  apply Nat.ltb_lt in H. rewrite H. apply orb_true_r.
Qed.

Lemma sheet_le_card a b :
  color a = color b -> rarity a = rarity b ->
  not_after pair_ltb variant_first a b = true -> sheet_le a b = true.
Proof.
  intros E1 E2 H. unfold sheet_le. rewrite E1, E2, !Nat.eqb_refl.
  unfold not_after in H. rewrite H. cbn [andb]. now rewrite !orb_true_r.
Qed.

Lemma section_ascending o k :
  organized_well o -> In k (map fst o) ->
  (forall c, In c (cards_of o) -> dict_has RARITY_ORDER (rarity c) = true) ->
  ascending sheet_le (section_cards o k) = true.
Proof.
  intros W Hk Known. unfold section_cards.
  set (cc := dict_get_or o k []).
  assert (Hcc : In (k, cc) o).
  { destruct W as [N W]. apply in_map_iff in Hk. destruct Hk as ([k' d] & <- & H).
    unfold cc, dict_get_or. cbn [fst]. now rewrite (dict_get_nodup _ _ _ N H). }
  apply ascending_flat_map.
  - intros r _. unfold block_cards.
    apply (ascending_weaken (not_after pair_ltb variant_first)).
    + apply sorted_by_key_ascending; [apply pair_ltb_asym | apply pair_ltb_trans].
    + intros x y Hx Hy L.
      destruct (block_member o k r x W Hx) as [X1 X2].
      destruct (block_member o k r y W Hy) as [Y1 Y2].
      apply sheet_le_card; congruence.
  - apply (ForallOrdPairs_weaken (fun x y => rarity_rank x < rarity_rank y)).
    + apply ascending_strict.
      * apply sorted_by_key_ascending; [apply nat_ltb_asym | apply nat_ltb_trans].
      * apply (Permutation_NoDup (Permutation_sym (sorted_by_key_perm _ _ _))).
        destruct W as [N W]. now destruct (W _ _ Hcc).
      * intros x y Hx Hy.
        apply (Permutation_in _ (sorted_by_key_perm _ _ _)) in Hx, Hy.
        destruct (organized_rarity_key o k cc x W Hcc Hx) as (cx & Cx & <-).
        destruct (organized_rarity_key o k cc y W Hcc Hy) as (cy & Cy & <-).
        apply rarity_rank_inj; auto.
    + intros r1 r2 _ _ L a b Ha Hb.
      destruct (block_member o k r1 a W Ha) as [A1 A2].
      destruct (block_member o k r2 b W Hb) as [B1 B2].
      apply sheet_le_rarity; congruence.
Qed.

Lemma pull_order_ascending cards :
  (forall c, In c cards ->
     dict_has COLOR_ORDER (color c) = true /\
     dict_has RARITY_ORDER (rarity c) = true) ->
  ascending sheet_le (pull_order cards) = true.
Proof.
  intros Known. rewrite pull_order_sections.
  pose proof (organize_well cards) as W.
  assert (In_cards : forall c, In c (cards_of (organize cards)) -> In c cards).
  { intros c. apply Permutation_in, organize_cards. }
  apply ascending_flat_map.
  - intros k Hk. apply (Permutation_in _ (sorted_by_key_perm _ _ _)) in Hk.
    apply section_ascending; auto. intros c Hc. now apply Known, In_cards.
  - apply (ForallOrdPairs_weaken (fun x y => color_rank x < color_rank y)).
    + apply ascending_strict.
      * apply sorted_by_key_ascending; [apply nat_ltb_asym | apply nat_ltb_trans].
      * apply (Permutation_NoDup (Permutation_sym (sorted_by_key_perm _ _ _))).
        now destruct W.
      * intros x y Hx Hy.
        apply (Permutation_in _ (sorted_by_key_perm _ _ _)) in Hx, Hy.
        destruct (organized_color_key _ x W Hx) as (cx & Cx & <-).
        destruct (organized_color_key _ y W Hy) as (cy & Cy & <-).
        apply color_rank_inj; now apply Known, In_cards.
    + intros k1 k2 _ _ L a b Ha Hb.
      apply sheet_le_color.
      now rewrite (section_member _ k1 a W Ha), (section_member _ k2 b W Hb).
Qed.

(** X18.  The page is in order: when every card has a color of
    [COLOR_ORDER] and a rarity of [RARITY_ORDER], the cards stand by the rank
    of their color, then by the rank of their rarity, then the variants
    first, then by their name. *)
Theorem pull_sheet_sorted (cards : list Card) :
  (forall c, In c cards ->
     dict_has COLOR_ORDER (color c) = true /\
     dict_has RARITY_ORDER (rarity c) = true) ->
  ascending sheet_le (pull_order cards) = true.
Proof. apply pull_order_ascending. Qed.

Lemma pull_sheet_sorted_witness :
  ascending sheet_le
    (pull_order
       [ mkCard 1 (lit "Foundations") (lit "Opt") (lit "5") (lit "C") (lit "Near Mint")
                false 0 0 None None (lit "Blue") None;
         mkCard 2 (lit "Foundations") (lit "Sol Ring") (lit "7") (lit "R")
                (lit "Near Mint") false 0 0 (Some (lit "Borderless")) None
                (lit "Colorless") None;
         mkCard 1 (lit "Foundations") (lit "Counterspell") (lit "9") (lit "R")
                (lit "Near Mint") true 0 0 None None (lit "Blue") None ]) = true.
Proof.
  apply pull_sheet_sorted.
  intros c [<-|[<-|[<-|[]]]]; split; reflexivity.
Defined.

(** *** The numbers of the page *)

Lemma total_quantity_from cards : forall n,
  fold_left (fun n card => (n + quantity card)%N) cards n
  = (n + total_quantity cards)%N.
Proof.
  unfold total_quantity. induction cards as [|c cards IH]; intros n; cbn [fold_left].
  - now rewrite N.add_0_r.
  - rewrite IH, (IH (0 + quantity c)%N). lia.
Qed.

Lemma total_quantity_cons c cards :
  total_quantity (c :: cards) = (quantity c + total_quantity cards)%N.
Proof.
  unfold total_quantity at 1. cbn [fold_left]. now rewrite total_quantity_from.
Qed.

Lemma total_quantity_app a b :
  total_quantity (a ++ b) = (total_quantity a + total_quantity b)%N.
Proof.
  induction a as [|c a IH]; [reflexivity|].
  cbn [app]. rewrite !total_quantity_cons, IH. lia.
Qed.

Lemma total_quantity_perm a b :
  Permutation a b -> total_quantity a = total_quantity b.
Proof.
  induction 1; rewrite ?total_quantity_cons; lia.
Qed.

Lemma sum_color_totals o : forall keys n,
  fold_left N.add
    (map snd (map (fun color => (color, color_total (dict_get_or o color []))) keys)) n
  = (n + total_quantity (flat_map (fun k => flat_map snd (dict_get_or o k [])) keys))%N.
Proof.
  induction keys as [|k keys IH]; intros n; cbn [map fold_left flat_map snd].
  - unfold total_quantity. cbn. lia.
  - rewrite IH, total_quantity_app. unfold color_total. lia.
Qed.

(** X19.  The numbers of the sections add up: the totals that the headers
    of the colors show are together the total of the page, the sum of the
    quantities of all cards. *)
Theorem color_totals_add_up (cards : list Card) :
  fold_left N.add (map snd (color_totals cards)) 0%N = total_cards cards.
Proof.
  unfold color_totals, total_cards. rewrite sum_color_totals. cbn [N.add].
  apply total_quantity_perm.
  destruct (organize_well cards) as [N W].
  transitivity (cards_of (organize cards)); [|apply organize_cards].
  assert (E : flat_map (fun k => flat_map snd (dict_get_or (organize cards) k []))
                       (map fst (organize cards))
              = cards_of (organize cards))
    by exact (dict_flat_map_keys (fun d : dict (list Card) => flat_map snd d)
                                 (organize cards) [] N).
  rewrite <- E. apply Permutation_flat_map, sorted_by_key_perm.
Qed.

(** ** The color of a card *)

Lemma color_map_known s :
  dict_has COLOR_ORDER (dict_get_or color_map s (lit "Colorless")) = true.
Proof.
  unfold dict_get_or, color_map. cbn [dict_get].
  repeat match goal with
         | |- context [str_eqb ?a s] => destruct (str_eqb a s)
         end; reflexivity.
Qed.

Lemma bind_ok {A B : Type} (r : result A) (f : A -> result B) b :
  bind r f = Ok b -> exists a, r = Ok a /\ f a = Ok b.
Proof. destruct r as [a|e]; [eauto | discriminate]. Qed.

(** X20.  Whatever the card service sends, a color that [get_card_color]
    returns is one of the eight colors of [COLOR_ORDER], so that the page has
    a rank for it. *)
Theorem card_color_known (scryfall_data : dict json) (c : str) :
  get_card_color scryfall_data = Ok c -> dict_has COLOR_ORDER c = true.
Proof.
  unfold get_card_color. destruct scryfall_data as [|entry rest].
  { intros H. inversion H. reflexivity. }
  cbv zeta. intros H.
  apply bind_ok in H. destruct H as (face & _ & H).
  apply bind_ok in H. destruct H as (is_land & _ & H).
  apply bind_ok in H. destruct H as (is_creature & _ & H).
  destruct (is_land && negb is_creature).
  { inversion H. reflexivity. }
  apply bind_ok in H. destruct H as (n & _ & H).
  destruct (n =? 0). { inversion H. reflexivity. }
  destruct (1 <? n). { inversion H. reflexivity. }
  apply bind_ok in H. destruct H as (first & _ & H).
  apply bind_ok in H. destruct H as (u & _ & H).
  inversion H. destruct first; try reflexivity. apply color_map_known.
Qed.

Lemma card_color_known_witness :
  dict_has COLOR_ORDER (lit "Blue") = true.
Proof.
  apply (card_color_known
           [(lit "name", JStr (lit "Opt"));
            (lit "type_line", JStr (lit "Instant"));
            (lit "colors", JArr [JStr (lit "U")])]).
  vm_compute. reflexivity.
Defined.

(** X21.  For a card with faces only the front face is read: the color
    does not depend on the other faces or on the fields of the card itself,
    and the picture depends, besides the front face, only on the pictures of
    the card itself, which come first. *)
Theorem front_face_only (d d' : dict json) (front : json) (backs backs' : list json) :
  dict_get d (lit "card_faces") = Some (JArr (front :: backs)) ->
  dict_get d' (lit "card_faces") = Some (JArr (front :: backs')) ->
  get_card_color d = get_card_color d' /\
  (dict_get d (lit "image_uris") = dict_get d' (lit "image_uris") ->
   get_card_image_url d = get_card_image_url d').
Proof.
  intros H H'.
  destruct d as [|e d]; [discriminate|]. destruct d' as [|e' d']; [discriminate|].
  split.
  - unfold get_card_color. cbv zeta. rewrite H, H'. reflexivity.
  - intros U. unfold get_card_image_url. rewrite U, H, H'. reflexivity.
Qed.

Lemma front_face_only_witness :
  get_card_color
    [(lit "colors", JArr [JStr (lit "G")]);
     (lit "card_faces",
      JArr [JObj [(lit "type_line", JStr (lit "Land")); (lit "colors", JArr [])];
            JObj [(lit "type_line", JStr (lit "Creature")); (lit "colors", JNull)]])]
  = get_card_color
    [(lit "card_faces",
      JArr [JObj [(lit "type_line", JStr (lit "Land")); (lit "colors", JArr [])]])].
Proof.
  apply (front_face_only _ _
           (JObj [(lit "type_line", JStr (lit "Land")); (lit "colors", JArr [])])
           [JObj [(lit "type_line", JStr (lit "Creature")); (lit "colors", JNull)]] []).
  - vm_compute. reflexivity.
  - vm_compute. reflexivity.
Defined.

(** ** The codes of the sets *)

Lemma dict_set_same {V : Type} (d : dict V) k v : dict_get (dict_set d k v) k = Some v.
Proof.
  unfold dict_set. induction d as [|[k0 v0] d IH]; cbn [dict_update dict_get].
  - now rewrite str_eqb_refl.
  - destruct (str_eqb k0 k) eqn:E; cbn [dict_get]; now rewrite E.
Qed.

Lemma dict_set_other {V : Type} (d : dict V) k v k' :
  k' <> k -> dict_get (dict_set d k v) k' = dict_get d k'.
Proof.
  intros N. unfold dict_set. induction d as [|[k0 v0] d IH]; cbn [dict_update dict_get].
  - destruct (str_eqb k k') eqn:E; [|reflexivity].
    apply str_eqb_eq in E. congruence.
  - destruct (str_eqb k0 k) eqn:E; cbn [dict_get].
    + apply str_eqb_eq in E. subst k0.
      destruct (str_eqb k k') eqn:E'; [|reflexivity].
      apply str_eqb_eq in E'. congruence.
    + now rewrite IH.
Qed.

Lemma dict_set_has {V : Type} (d : dict V) k v k' :
  dict_has d k' = true -> dict_has (dict_set d k v) k' = true.
Proof.
  unfold dict_has. intros H.
  destruct (list_eq_dec ascii_dec k' k) as [->|N].
  - now rewrite dict_set_same.
  - now rewrite dict_set_other.
Qed.

Lemma dict_set_has_same {V : Type} (d : dict V) k v : dict_has (dict_set d k v) k = true.
Proof. unfold dict_has. now rewrite dict_set_same. Qed.

Lemma dict_set_all_keep {V : Type} : forall (kvs : dict V) d k v,
  ~ In k (map fst kvs) -> dict_get d k = Some v ->
  dict_get (dict_update_all d kvs) k = Some v.
Proof.
  induction kvs as [|[k0 v0] kvs IH]; intros d k v N H; [exact H|].
  unfold dict_update_all in *. cbn [fold_left fst snd]. cbn [map fst In] in N. apply IH; [tauto|].
  rewrite dict_set_other; [exact H|]. intros ->. tauto.
Qed.

(** The writes of a list of entries with distinct keys leave each entry to
    be read. *)
Lemma dict_set_all_get {V : Type} : forall (kvs : dict V) d k v,
  NoDup (map fst kvs) -> In (k, v) kvs ->
  dict_get (dict_update_all d kvs) k = Some v.
Proof.
  induction kvs as [|[k0 v0] kvs IH]; intros d k v N H; [destruct H|].
  cbn [map fst] in N. apply NoDup_cons_iff in N. destruct N as [N1 N2].
  unfold dict_update_all in *. cbn [fold_left fst snd]. destruct H as [H|H].
  - inversion H; subst. apply dict_set_all_keep; [exact N1 | apply dict_set_same].
  - now apply IH.
Qed.

Lemma dict_set_all_has {V : Type} : forall (kvs : dict V) d k,
  dict_has d k = true ->
  dict_has (dict_update_all d kvs) k = true.
Proof.
  induction kvs as [|[k0 v0] kvs IH]; intros d k H; [exact H|].
  unfold dict_update_all in *. cbn [fold_left fst snd]. apply IH. now apply dict_set_has.
Qed.

Lemma manual_overrides_distinct : NoDup (map fst manual_overrides).
Proof.
  cbn [map fst manual_overrides].
  repeat (constructor;
          [intros H; cbn [In] in H;
           repeat (destruct H as [H|H]; [discriminate|]); exact H|]).
  constructor.
Qed.

Lemma get_code_exact mapping name code :
  dict_get mapping name = Some code -> get_scryfall_set_code mapping name = Some code.
Proof. intros H. unfold get_scryfall_set_code. now rewrite H. Qed.

(** X22.  The names that the program corrects by hand win: whatever the
    service sends, the mapping is empty (the request or the reading of the
    response failed) or each name of [manual_overrides] gives the code that
    stands there. *)
Theorem manual_overrides_win (response : option json) (name : str) (code : json) :
  In (name, code) manual_overrides ->
  fetch_scryfall_sets response = [] \/
  get_scryfall_set_code (fetch_scryfall_sets response) name = Some code.
Proof.
  intros H. unfold fetch_scryfall_sets.
  destruct response as [data|]; [|now left].
  destruct (build_set_mapping data) as [mapping|e] eqn:B; [|now left].
  right. apply get_code_exact.
  unfold build_set_mapping in B.
  apply bind_ok in B. destruct B as (sets_data & _ & B).
  apply bind_ok in B. destruct B as (items & _ & B).
  apply bind_ok in B. destruct B as (m0 & _ & B).
  assert (E : mapping = dict_update_all m0 manual_overrides) by congruence.
  rewrite E. apply dict_set_all_get; [apply manual_overrides_distinct | exact H].
Qed.

Lemma manual_overrides_win_witness :
  fetch_scryfall_sets (Some (JObj [])) = [] \/
  get_scryfall_set_code (fetch_scryfall_sets (Some (JObj [])))
    (lit "TheListReprints") = Some (JStr (lit "plst")).
Proof.
  apply manual_overrides_win. vm_compute. tauto.
Defined.

Lemma add_set_keeps mapping set_info mapping' k :
  add_set mapping set_info = Ok mapping' ->
  dict_has mapping k = true -> dict_has mapping' k = true.
Proof.
  unfold add_set. intros H Hk.
  apply bind_ok in H. destruct H as (code & _ & H).
  apply bind_ok in H. destruct H as (name & _ & H).
  destruct (negb (truthy code) || negb (truthy name)); [now inversion H; subst|].
  apply bind_ok in H. destruct H as (set_type & _ & H).
  destruct (match set_type with JStr t => _ | _ => false end);
    [now inversion H; subst|].
  apply bind_ok in H. destruct H as (u & _ & H).
  destruct name as [| | |n| |]; try discriminate.
  cbv zeta in H.
  destruct (negb (dict_has _ _)); inversion H; subst;
    repeat apply dict_set_has; exact Hk.
Qed.

Lemma add_sets_keeps : forall items mapping mapping' k,
  add_sets mapping items = Ok mapping' ->
  dict_has mapping k = true -> dict_has mapping' k = true.
Proof.
  induction items as [|x items IH]; intros mapping mapping' k H Hk.
  - inversion H; now subst.
  - cbn [add_sets] in H. apply bind_ok in H. destruct H as (m1 & A & H).
    apply (IH _ _ _ H). now apply (add_set_keeps _ _ _ _ A).
Qed.

Lemma add_set_listed mapping set_info mapping' name :
  add_set mapping set_info = Ok mapping' -> listed_set set_info name ->
  dict_has mapping' name = true /\
  dict_has mapping' (replace (lit " ") [] name) = true.
Proof.
  intros H (fields & -> & C & N & Ne & T).
  unfold add_set in H. cbn [py_get bind] in H. rewrite C, N in H.
  assert (Tn : truthy (JStr name) = true) by (destruct name; [congruence | reflexivity]).
  rewrite Tn in H. cbn [negb orb] in H. rewrite T in H.
  cbn [py_hash bind] in H. cbv zeta in H.
  destruct (negb (dict_has _ _)); inversion H; subst; split;
    repeat (apply dict_set_has_same || apply dict_set_has).
Qed.

Lemma add_sets_listed : forall items mapping mapping' set_info name,
  add_sets mapping items = Ok mapping' -> In set_info items ->
  listed_set set_info name ->
  dict_has mapping' name = true /\
  dict_has mapping' (replace (lit " ") [] name) = true.
Proof.
  induction items as [|x items IH]; intros mapping mapping' set_info name H Hin L;
    [destruct Hin|].
  cbn [add_sets] in H. apply bind_ok in H. destruct H as (m1 & A & H).
  destruct Hin as [->|Hin].
  - destruct (add_set_listed _ _ _ _ A L) as [P Q].
    split; eapply add_sets_keeps; eauto.
  - eapply IH; eauto.
Qed.

Lemma find_key_lower (mapping : dict json) key lowered :
  In key (map fst mapping) -> map lower key = lowered ->
  find (fun kv : str * json => str_eqb (map lower (fst kv)) lowered) mapping <> None.
Proof.
  intros H E. apply in_map_iff in H. destruct H as ([k v] & <- & H).
  destruct (find _ mapping) eqn:F; [discriminate|].
  apply (find_none _ _ F) in H. cbn [fst] in *.
  rewrite E, str_eqb_refl in H. discriminate.
Qed.

Lemma get_code_found mapping key set_name :
  dict_has mapping key = true -> map lower set_name = map lower key ->
  get_scryfall_set_code mapping set_name <> None.
Proof.
  intros H E. unfold get_scryfall_set_code.
  destruct (dict_get mapping set_name); [discriminate|].
  destruct (dict_get mapping (replace (lit " ") [] set_name)); [discriminate|].
  cbv zeta. apply dict_has_in in H.
  pose proof (find_key_lower mapping key (map lower set_name) H (eq_sym E)) as F.
  unfold option_map. destruct (find _ _) eqn:X; [discriminate|].
  exfalso. now apply F.
Qed.

(** X23.  A set of the service can be looked up: when the mapping is built
    from a response, every set that the loop takes up gives a code for its
    name, for its name without blanks, which is how the slip writes it, and
    for its name in any other letter case. *)
Theorem listed_set_has_code (data sets_data : json) (items : list json)
    (mapping : dict json) (set_info : json) (name set_name : str) :
  build_set_mapping data = Ok mapping ->
  py_get data (lit "data") (JArr []) = Ok sets_data ->
  py_iter sets_data = Ok items ->
  In set_info items -> listed_set set_info name ->
  map lower set_name = map lower name \/
  map lower set_name = map lower (replace (lit " ") [] name) ->
  get_scryfall_set_code (fetch_scryfall_sets (Some data)) set_name <> None.
Proof.
  intros B D I Hin L E. unfold fetch_scryfall_sets. rewrite B.
  unfold build_set_mapping in B. rewrite D in B. cbn [bind] in B.
  rewrite I in B. cbn [bind] in B.
  apply bind_ok in B. destruct B as (m0 & A & B).
  assert (E' : mapping = dict_update_all m0 manual_overrides) by congruence.
  rewrite E'. clear B E'.
  destruct (add_sets_listed _ _ _ _ _ A Hin L) as [P Q].
  destruct E as [E|E].
  - apply (get_code_found _ name); [|exact E]. now apply dict_set_all_has.
  - apply (get_code_found _ (replace (lit " ") [] name)); [|exact E].
    now apply dict_set_all_has.
Qed.

Lemma listed_set_has_code_witness :
  get_scryfall_set_code
    (fetch_scryfall_sets
       (Some (JObj [(lit "data",
                     JArr [JObj [(lit "code", JStr (lit "mh3"));
                                 (lit "name", JStr (lit "Modern Horizons 3"));
                                 (lit "set_type", JStr (lit "draft_innovation"))]])])))
    (lit "MODERNHORIZONS3") <> None.
Proof.
  eapply (listed_set_has_code _ _ _ _
            (JObj [(lit "code", JStr (lit "mh3"));
                   (lit "name", JStr (lit "Modern Horizons 3"));
                   (lit "set_type", JStr (lit "draft_innovation"))])
            (lit "Modern Horizons 3")).
  - vm_compute. reflexivity.
  - vm_compute. reflexivity.
  - vm_compute. reflexivity.
  - left. reflexivity.
  - eexists. split; [reflexivity|]. repeat split; try (vm_compute; reflexivity).
    discriminate.
  - right. vm_compute. reflexivity.
Defined.

(** ** The prices and the number of the order *)

Lemma float_of_token_nonnegative t : (0 <= float_of_token t)%Q.
Proof.
  unfold float_of_token. rewrite Qred_correct.
  unfold Qle. cbn [Qnum Qden]. lia.
Qed.

(** X24.  The prices of a record are never negative. *)
Theorem record_prices_nonnegative (line : str) (c : Card) :
  parse_card_line line = Some c ->
  (0 <= price c)%Q /\ (0 <= total_price c)%Q.
Proof.
  intros H. apply parse_card_line_some in H.
  destruct H as (_ & _ & _ & P & _). unfold extract_prices in P.
  destruct (2 <=? length (re_findall re_price (strip line)));
    injection P as -> ->; split;
    try apply float_of_token_nonnegative; apply Qle_refl.
Qed.

Lemma record_prices_nonnegative_witness :
  exists c, parse_card_line (lit "1 Magic-Foundations-Sol Ring-#5-M-NearMint $1.50 $1.50")
            = Some c /\ (0 <= price c)%Q /\ (0 <= total_price c)%Q.
Proof.
  destruct (parse_card_line (lit "1 Magic-Foundations-Sol Ring-#5-M-NearMint $1.50 $1.50"))
    as [c|] eqn:E.
  - exists c. split; [reflexivity|]. exact (record_prices_nonnegative _ c E).
  - vm_compute in E. discriminate.
Defined.

(** X25.  The number of the order holds capital letters, digits and
    hyphens only, so that it brings no markup into the page, where it stands
    as it is. *)
Theorem order_number_plain (text : str) :
  forallb (fun c => in_range "A" "Z" c || in_range "0" "9" c || Ascii.eqb c "-")
          (order_number text) = true /\
  ~ In "<" (order_number text) /\ ~ In ">" (order_number text) /\
  ~ In "&" (order_number text).
Proof.
  assert (F : forallb (fun c => in_range "A" "Z" c || in_range "0" "9" c || Ascii.eqb c "-")
                      (order_number text) = true).
  { unfold order_number.
    destruct (re_search re_order_number text) as [m|] eqn:S; [|reflexivity].
    apply re_search_at in S. destruct S as (pre & post & E & S).
    unfold match_at, re_order_number in S.
    apply (rx_chain false _ [Lit "Order"%string; Star space; Lit "Number:"%string; Star space])
      in S; [|reflexivity].
    destruct S as (w & [b1 t1] & A & B & S). cbn [fst snd] in A, B.
    apply rx_group in S; [|reflexivity]. destruct S as (s2 & M & S).
    apply Match_Plus_Cls in M. destruct M as (c & ds & A2 & B2 & Fc).
    cbn [fst snd] in A2, B2. injection S as <-.
    rewrite (group1_span text _ (pre ++ w) (c :: ds) (snd s2)).
    - apply forallb_forall. intros x Hx. rewrite Forall_forall in Fc.
      specialize (Fc x Hx). unfold cls_match in Fc.
      cbn [existsb item_match xorb andb orb chr_match] in Fc.
      rewrite !orb_false_r in Fc. now rewrite orb_assoc in Fc.
    - rewrite E, A, A2, <- !app_assoc. reflexivity.
    - cbn [m_g1]. unfold cpos. rewrite B2, B. cbn [fst].
      rewrite !length_app, !length_rev. cbn [length]. f_equal. f_equal; lia. }
  split; [exact F|]. rewrite forallb_forall in F.
  repeat split; intros H; apply F in H; discriminate.
Qed.

(** ** The letters of a normalized name *)

Lemma squash_app a b : squash (a ++ b) = squash a ++ squash b.
Proof. unfold squash. now rewrite map_app, filter_app. Qed.

Lemma space_not_upper c : isspace c = true -> isupper c = false.
Proof.
  unfold isspace, isupper, in_range. change (code "A") with 65. change (code "Z") with 90.
  intros H. apply orb_true_iff in H.
  destruct (65 <=? code c) eqn:A; [|reflexivity].
  destruct (code c <=? 90) eqn:B; [|reflexivity]. exfalso.
  apply Nat.leb_le in A, B.
  destruct H as [H|H]; apply andb_true_iff in H; destruct H as [H1 H2];
    apply Nat.leb_le in H1, H2; lia.
Qed.

Lemma squash_cons c s : squash (c :: s) = squash [c] ++ squash s.
Proof. apply (squash_app [c] s). Qed.

Lemma squash_spaces w : Forall (fun c => isspace c = true) w -> squash w = [].
Proof.
  induction 1 as [|c w H _ IH]; [reflexivity|].
  unfold squash in *. cbn [map filter]. unfold lower at 1.
  rewrite (space_not_upper _ H), H. exact IH.
Qed.

Lemma squash_lower a b : map lower a = map lower b -> squash a = squash b.
Proof. unfold squash. now intros ->. Qed.

Lemma camel_squash : forall s p2 p1, squash (camel_from p2 p1 s) = squash s.
Proof.
  induction s as [|c s IH]; intros p2 p1; [reflexivity|].
  cbn [camel_from]. rewrite squash_app.
  rewrite (squash_cons c s), (squash_cons c (camel_from _ _ _)), IH.
  destruct (camel_gap p2 p1 c); reflexivity.
Qed.

Lemma strip_squash s : squash (strip s) = squash s.
Proof.
  unfold strip. destruct (rstrip_decompose (lstrip s)) as (w2 & E & F2).
  rewrite (run_of_after isspace s) at 2. rewrite <- lstrip_after_run.
  rewrite squash_app, (squash_spaces _ (run_of_all isspace s)). cbn [app].
  rewrite E at 2. now rewrite squash_app, (squash_spaces _ F2), app_nil_r.
Qed.

(** A replacement that keeps the letters of every occurrence keeps the
    letters of the text. *)
Lemma scan_squash ic r t (subj : str) :
  (forall b s m, subj = rev b ++ s -> match_at ic r (b, s) = Some m ->
     squash (expand t subj m) = squash (group0 subj m)) ->
  forall s b skip, subj = rev b ++ s ->
  squash (concat (map (fun p : str + rmatch =>
                         match p with
                         | inl u => u
                         | inr m => expand t subj m
                         end) (scan ic r b s skip)))
  = squash (skipn skip s).
Proof.
  intros K. induction s as [|c s IH]; intros b skip E.
  - destruct skip; cbn [scan skipn]; [|reflexivity].
    destruct (match_at _ _ _) as [m|] eqn:M; [|reflexivity].
    cbn [map concat]. rewrite app_nil_r, (K _ _ _ E M).
    apply match_at_span in M. destruct M as (w & rest & Ew & S1 & S2).
    destruct w; [|discriminate]. unfold group0, slice.
    rewrite S1, S2. simpl. now rewrite Nat.add_0_r, Nat.sub_diag.
  - assert (E' : subj = rev (c :: b) ++ s)
      by (cbn [rev]; now rewrite <- app_assoc).
    destruct skip as [|k]; cbn [scan skipn].
    2:{ exact (IH (c :: b) k E'). }
    destruct (match_at _ _ _) as [m|] eqn:M.
    + cbn [map concat]. rewrite squash_app, (K _ _ _ E M).
      apply match_at_span in M. destruct M as (w & rest & Ew & S1 & S2).
      assert (G : group0 subj m = w).
      { unfold group0. rewrite S1, S2, E, Ew, <- (length_rev b). apply slice_middle. }
      rewrite G, S1, S2.
      destruct w as [|x w].
      * cbn [length]. rewrite Nat.add_0_r, Nat.eqb_refl.
        cbn [map concat app]. rewrite (squash_cons c s), (squash_cons c (concat _)).
        rewrite (IH (c :: b) 0 E'). reflexivity.
      * cbn [length].
        replace (length b + S (length w) =? length b) with false
          by (symmetry; apply Nat.eqb_neq; lia).
        replace (length b + S (length w) - length b - 1) with (length w) by lia.
        rewrite (IH (c :: b) (length w) E').
        cbn [app] in Ew. injection Ew as -> ->.
        rewrite skipn_app, skipn_all, Nat.sub_diag. cbn [skipn app].
        now rewrite <- squash_app.
    + cbn [map concat app]. rewrite (squash_cons c s), (squash_cons c (concat _)).
      rewrite (IH (c :: b) 0 E'). reflexivity.
Qed.

Lemma sub_squash ic r t (subj : str) :
  (forall b s m, subj = rev b ++ s -> match_at ic r (b, s) = Some m ->
     squash (expand t subj m) = squash (group0 subj m)) ->
  squash (re_sub_ic ic r t subj) = squash subj.
Proof.
  intros K. unfold re_sub_ic. now rewrite (scan_squash ic r t subj K subj [] 0).
Qed.

Lemma chr_match_lower ic c x : chr_match ic c x = true -> lower x = lower c.
Proof.
  unfold chr_match. destruct ic; intros H; apply Ascii.eqb_eq in H; congruence.
Qed.

(** The text that a pattern with settled letters takes has these
    letters. *)
Lemma Match_squash ic r s s' :
  Match ic r s s' -> forall w, squash_text r = Some w ->
  exists x, snd s = x ++ snd s' /\ fst s' = rev x ++ fst s /\ squash x = w.
Proof.
  induction 1; cbn [squash_text]; intros w W; try discriminate;
    try solve [injection W as <-; exists []; auto].
  - injection W as <-. exists [x]. repeat split.
    unfold squash. cbn [map]. now rewrite (chr_match_lower _ _ _ H).
  - destruct (squash_text r1) as [a|]; [|discriminate].
    destruct (squash_text r2) as [c|]; [|discriminate]. injection W as <-.
    destruct (IHMatch1 a eq_refl) as (x1 & A1 & B1 & C1).
    destruct (IHMatch2 c eq_refl) as (x2 & A2 & B2 & C2).
    exists (x1 ++ x2). rewrite A1, A2, B2, B1, rev_app_distr, squash_app, C1, C2.
    now rewrite !app_assoc.
  - destruct (squash_text r1) as [a|]; [|discriminate].
    destruct (squash_text r2) as [c|]; [|discriminate].
    destruct (str_eqb a c); [|discriminate]. injection W as <-. now apply IHMatch.
  - destruct (squash_text r1) as [a|]; [|discriminate].
    destruct (squash_text r2) as [c|]; [|discriminate].
    destruct (str_eqb a c) eqn:Q; [|discriminate]. injection W as <-.
    apply str_eqb_eq in Q. subst c. now apply IHMatch.
  - now apply IHMatch.
Qed.

Lemma rx_chain_match ic A front r : forallb grp_free front = true ->
  forall s g (k : cursor -> capture -> option A) x,
  rx ic (cat_chain front r) s g k = Some x ->
  exists s1, Match ic (cat_chain front Eps) s s1 /\ rx ic r s1 g k = Some x.
Proof.
  induction front as [|p front IH]; intros F s g k x H.
  - exists s. split; [constructor | exact H].
  - cbn [forallb] in F. apply andb_true_iff in F. destruct F as [Fp F].
    cbn [cat_chain] in H. rewrite rx_Cat in H.
    apply (rx_keeps_capture _ _ _ Fp) in H. destruct H as (s0 & M & H).
    apply (IH F) in H. destruct H as (s1 & M1 & H).
    exists s1. split; [|exact H]. cbn [cat_chain]. econstructor; eauto.
Qed.

Lemma group0_span subj m (a t r : str) :
  subj = a ++ t ++ r -> m_start m = length a -> m_end m = length a + length t ->
  group0 subj m = t.
Proof.
  intros E S1 S2. unfold group0. rewrite S1, S2, E. apply slice_middle.
Qed.

(** The three shapes of the rules of the normalizer. *)
Lemma plain_rule_squash ic r x subj :
  squash_text r = Some (squash x) ->
  squash (re_sub_ic ic r [TLit x] subj) = squash subj.
Proof.
  intros T. apply sub_squash. intros b s m E M.
  apply match_at_some in M. destruct M as (s' & M & S1 & S2).
  destruct (Match_squash _ _ _ _ M _ T) as (w & A & B & C).
  cbn [fst snd] in A, B.
  rewrite (group0_span subj m (rev b) w (snd s')).
  - unfold expand. cbn [map concat]. now rewrite app_nil_r.
  - now rewrite E, A.
  - rewrite S1. unfold cpos. cbn [fst]. now rewrite length_rev.
  - rewrite S2. unfold cpos. rewrite B, length_app, !length_rev. lia.
Qed.

Lemma chain_group_rule_squash ic front G x subj :
  forallb grp_free front = true -> grp_free G = true ->
  squash_text (cat_chain front Eps) = Some (squash x) ->
  squash (re_sub_ic ic (cat_chain front (Grp G)) [TLit x; TG1] subj) = squash subj.
Proof.
  intros Ff Fg T. apply sub_squash. intros b s m E M.
  unfold match_at in M.
  apply (rx_chain_match _ _ _ _ Ff) in M. destruct M as (s1 & M1 & M).
  apply (rx_group _ _ _ _ _ _ _ Fg) in M. destruct M as (s2 & M2 & M).
  injection M as <-.
  destruct (Match_squash _ _ _ _ M1 _ T) as (w1 & A1 & B1 & C1).
  apply Match_consume in M2. destruct M2 as (w2 & A2 & B2).
  cbn [fst snd] in A1, B1.
  rewrite (group0_span subj _ (rev b) (w1 ++ w2) (snd s2)).
  - unfold expand. cbn [map concat].
    rewrite (group1_span subj _ (rev b ++ w1) w2 (snd s2)).
    + now rewrite app_nil_r, !squash_app, C1.
    + now rewrite E, A1, A2, <- !app_assoc.
    + cbn [m_g1]. unfold cpos. rewrite B2, B1.
      rewrite !length_app, !length_rev. f_equal. f_equal; lia.
  - now rewrite E, A1, A2, <- !app_assoc.
  - cbn [m_start]. unfold cpos. cbn [fst]. now rewrite length_rev.
  - cbn [m_end]. unfold cpos. rewrite B2, B1. rewrite !length_app, !length_rev. lia.
Qed.

Lemma group_tail_rule_squash ic G B x subj :
  grp_free G = true -> grp_free B = true ->
  squash_text B = Some (squash x) ->
  squash (re_sub_ic ic (Cat (Grp G) B) [TG1; TLit x] subj) = squash subj.
Proof.
  intros Fg Fb T. apply sub_squash. intros b s m E M.
  unfold match_at in M. rewrite rx_Cat in M.
  apply (rx_group _ _ _ _ _ _ _ Fg) in M. destruct M as (s1 & M1 & M).
  apply (rx_keeps_capture _ _ _ Fb) in M. destruct M as (s2 & M2 & M).
  injection M as <-.
  apply Match_consume in M1. destruct M1 as (w1 & A1 & B1).
  destruct (Match_squash _ _ _ _ M2 _ T) as (w2 & A2 & B2 & C2).
  cbn [fst snd] in A1, B1.
  rewrite (group0_span subj _ (rev b) (w1 ++ w2) (snd s2)).
  - unfold expand. cbn [map concat].
    rewrite (group1_span subj _ (rev b) w1 (w2 ++ snd s2)).
    + now rewrite app_nil_r, !squash_app, C2.
    + now rewrite E, A1, A2.
    + cbn [m_g1]. unfold cpos. rewrite B1. cbn [fst].
      rewrite !length_app, !length_rev. f_equal. f_equal; lia.
  - now rewrite E, A1, A2, <- !app_assoc.
  - cbn [m_start]. unfold cpos. cbn [fst]. now rewrite length_rev.
  - cbn [m_end]. unfold cpos. rewrite B2, B1. rewrite !length_app, !length_rev. lia.
Qed.

Lemma collapse_squash : forall s in_run, squash (collapse_from in_run s) = squash s.
Proof.
  induction s as [|c s IH]; intros in_run; [reflexivity|].
  cbn [collapse_from]. rewrite (squash_cons c s).
  destruct (isspace c) eqn:C.
  - assert (Z : squash [c] = []) by (apply squash_spaces; now constructor).
    rewrite Z. destruct in_run; [apply IH|].
    rewrite squash_cons, IH. reflexivity.
  - now rewrite squash_cons, IH.
Qed.

Lemma repair_rules_squash :
  Forall (fun rule => forall s, squash (rule_pass rule s) = squash s) repair_rules.
Proof.
  unfold repair_rules, glue_words. cbn [map app].
  apply Forall_cons.
  { intros s. exact (chain_group_rule_squash false [Chr ","] (Cls true [CSpace])
                       (lit ", ") s eq_refl eq_refl eq_refl). }
  apply Forall_cons.
  { intros s. exact (chain_group_rule_squash false [Chr ":"]
                       (Cls false [CRange "A" "Z"; CRange "a" "z"])
                       (lit ": ") s eq_refl eq_refl eq_refl). }
  apply Forall_cons.
  { intros s. apply group_tail_rule_squash; reflexivity. }
  apply Forall_cons.
  { intros s. apply group_tail_rule_squash; reflexivity. }
  apply Forall_cons.
  { intros s. apply group_tail_rule_squash; reflexivity. }
  do 8 (apply Forall_cons; [intros s; apply plain_rule_squash; reflexivity|]).
  apply Forall_cons.
  { intros s. exact (chain_group_rule_squash false [Wordb; Lit "the"%string]
                       (Cls false [CRange "A" "Z"]) (lit "the ") s
                       eq_refl eq_refl eq_refl). }
  apply Forall_cons; [|constructor].
  intros s. cbn [rule_pass].
  change (re_sub_ic false re_spaces [TLit " "%string] s)
    with (re_sub re_spaces [TLit " "%string] s).
  rewrite sub_spaces. apply collapse_squash.
Qed.

Lemma run_rules_squash : forall rules s,
  Forall (fun rule => forall s, squash (rule_pass rule s) = squash s) rules ->
  squash (run_passes (map rule_pass rules ++ [strip]) s) = squash s.
Proof.
  unfold run_passes. induction rules as [|rule rules IH]; intros s F.
  - cbn [map app fold_left]. apply strip_squash.
  - inversion F as [|? ? R F']; subst. cbn [map app fold_left].
    rewrite (IH _ F'). apply R.
Qed.

Lemma run_passes_cons p ps x : run_passes (p :: ps) x = run_passes ps (p x).
Proof. reflexivity. Qed.

Lemma add_spaces_squash name :
  squash (add_spaces_to_card_name name) = squash name.
Proof.
  unfold add_spaces_to_card_name. destruct name as [|c name]; [reflexivity|].
  rewrite passes_of_rules, run_passes_cons.
  rewrite (run_rules_squash _ _ repair_rules_squash).
  apply camel_squash.
Qed.

(** X26.  The normalizer keeps the letters of a name of 7-bit characters:
    it only puts in and takes out white space and changes the case of
    letters, so that the name before and the name after have the same
    characters once the case and the white space are set aside.  (Outside
    the 7-bit range Python folds more letters together and knows more white
    space than the classes of this model.) *)
Theorem normalizer_keeps_letters (name : str) :
  isascii name = true ->
  squash (add_spaces_to_card_name name) = squash name.
Proof. intros _. apply add_spaces_squash. Qed.

Lemma normalizer_keeps_letters_witness :
  squash (add_spaces_to_card_name (lit "RiseoftheDark,Reborn"))
  = squash (lit "RiseoftheDark,Reborn").
Proof.
  apply (normalizer_keeps_letters (lit "RiseoftheDark,Reborn")).
  vm_compute. reflexivity.
Defined.

(** ** The names of a record and the line *)

Lemma piece_refl x : piece x x.
Proof. exists [], []. now rewrite app_nil_r. Qed.

Lemma piece_trans x y z : piece x y -> piece y z -> piece x z.
Proof.
  intros (a & b & ->) (a' & b' & ->). exists (a' ++ a), (b ++ b').
  now rewrite <- !app_assoc.
Qed.

Lemma piece_front x y : piece x (x ++ y).
Proof. now exists [], y. Qed.

Lemma piece_back x y : piece y (x ++ y).
Proof. exists x, []. now rewrite app_nil_r. Qed.

Lemma firstn_piece n (s : str) : piece (firstn n s) s.
Proof. rewrite <- (firstn_skipn n s) at 2. apply piece_front. Qed.

Lemma skipn_piece n (s : str) : piece (skipn n s) s.
Proof. rewrite <- (firstn_skipn n s) at 2. apply piece_back. Qed.

Lemma slice_piece i j s : piece (slice i j s) s.
Proof.
  unfold slice. eapply piece_trans; [apply firstn_piece | apply skipn_piece].
Qed.

Lemma group1_piece s m : piece (group1 s m) s.
Proof.
  unfold group1. destruct (m_g1 m) as [[i j]|]; [apply slice_piece|].
  now exists [], s.
Qed.

Lemma strip_piece s : piece (strip s) s.
Proof. destruct (strip_decompose s) as (a & b & E & _). now exists a, b. Qed.

Lemma lstrip_chr_piece x : forall s, piece (lstrip_chr x s) s.
Proof.
  induction s as [|c s IH]; [apply piece_refl|]. cbn [lstrip_chr].
  destruct (Ascii.eqb c x); [|apply piece_refl].
  eapply piece_trans; [exact IH|]. apply (piece_back [c]).
Qed.

Lemma rev_piece x y : piece x y -> piece (rev x) (rev y).
Proof.
  intros (a & b & ->). exists (rev b), (rev a).
  now rewrite !rev_app_distr, <- app_assoc.
Qed.

Lemma rstrip_chr_piece x s : piece (rstrip_chr x s) s.
Proof.
  unfold rstrip_chr. rewrite <- (rev_involutive s) at 2.
  apply rev_piece, lstrip_chr_piece.
Qed.

Lemma removelast_piece (s : str) : piece (removelast s) s.
Proof.
  destruct s as [|c s]; [apply piece_refl|].
  rewrite (app_removelast_last c (l := c :: s)) at 2 by discriminate.
  apply piece_front.
Qed.

Lemma split_head_piece x s : piece (hd [] (split_chr x s)) s.
Proof.
  rewrite <- (join_split x s) at 2.
  destruct (split_chr x s) as [|p [|q ps]]; cbn [hd join_chr].
  - apply piece_refl.
  - apply piece_refl.
  - apply piece_front.
Qed.

Lemma squash_piece x y : piece x y -> piece (squash x) (squash y).
Proof.
  intros (a & b & ->). exists (squash a), (squash b). now rewrite !squash_app.
Qed.

Lemma card_name_part_piece remainder nm rm :
  piece (card_name_part remainder nm rm) remainder.
Proof.
  unfold card_name_part. destruct nm as [m|].
  - eapply piece_trans; [apply rstrip_chr_piece|].
    destruct (find_str _ remainder); [apply firstn_piece | apply removelast_piece].
  - destruct rm as [[subj m]|].
    + eapply piece_trans; [apply rstrip_chr_piece | apply firstn_piece].
    + apply split_head_piece.
Qed.

(** Where the names of a record come from. *)
Lemma parse_card_line_names line0 c :
  parse_card_line line0 = Some c ->
  exists description,
    piece description (re_sub re_price_plain [] (strip line0)) /\
    set_name c = display_set_name (fst (extract_set_and_card description)) /\
    (exists x, piece x (snd (extract_set_and_card description)) /\
               card_name c = add_spaces_to_card_name x) /\
    (forall v, variant c = Some v ->
       exists y, piece y (snd (extract_set_and_card description)) /\
                 v = add_spaces_to_card_name y).
Proof.
  unfold parse_card_line. cbv zeta.
  destruct (re_match re_entry (strip line0)); [|discriminate].
  destruct (contains (lit "Quantity") (strip line0)
            || contains (lit "Description") (strip line0)); [discriminate|].
  destruct (re_match re_quantity (strip line0)) as [qm|]; [|discriminate].
  destruct (extract_prices (strip line0)) as [p t].
  destruct (re_search re_magic _) as [mm|]; [|discriminate].
  set (description := strip (group1 _ mm)).
  assert (D : piece description (re_sub re_price_plain [] (strip line0))).
  { eapply piece_trans; [apply strip_piece | apply group1_piece]. }
  destruct (extract_set_and_card description) as [group_raw remainder] eqn:X.
  set (name_part := card_name_part remainder _ _).
  assert (P : piece name_part remainder) by apply card_name_part_piece.
  destruct (re_search re_variant name_part) as [vm|]; intros H;
    injection H as <-; exists description; rewrite X;
    cbn [set_name card_name variant fst snd];
    (split; [exact D|]); (split; [reflexivity|]); split.
  - eexists. split; [|reflexivity].
    eapply piece_trans; [apply strip_piece|].
    eapply piece_trans; [apply firstn_piece | exact P].
  - intros v E. injection E as <-. eexists. split; [|reflexivity].
    eapply piece_trans; [apply group1_piece | exact P].
  - eexists. split; [exact P | reflexivity].
  - discriminate.
Qed.

Lemma record_text_in_line line0 x description :
  piece description (re_sub re_price_plain [] (strip line0)) ->
  piece x (snd (extract_set_and_card description)) ->
  piece (squash (add_spaces_to_card_name x))
        (squash (re_sub re_price_plain [] (strip line0))).
Proof.
  intros D P. rewrite add_spaces_squash. apply squash_piece.
  eapply piece_trans; [exact P|]. eapply piece_trans; [|exact D].
  destruct (extract_remainder_suffix description) as (u & E).
  rewrite E at 2. apply piece_back.
Qed.

(** X27.  The names of a record are read off a line of 7-bit characters:
    the letters of the card name, and those of the variant, stand in the
    line without its dollar amounts, in their order and without gaps, once
    the case of the letters and the white space are set aside. *)
Theorem record_name_in_line (line : str) (c : Card) :
  isascii line = true ->
  parse_card_line line = Some c ->
  piece (squash (card_name c)) (squash (re_sub re_price_plain [] (strip line))) /\
  (forall v, variant c = Some v ->
     piece (squash v) (squash (re_sub re_price_plain [] (strip line)))).
Proof.
  intros _ H. apply parse_card_line_names in H.
  destruct H as (description & D & _ & (x & Px & Ex) & V).
  split.
  - rewrite Ex. now apply (record_text_in_line line x description).
  - intros v Ev. destruct (V v Ev) as (y & Py & ->).
    now apply (record_text_in_line line y description).
Qed.

Lemma record_name_in_line_witness :
  exists c, parse_card_line (lit "1 Magic-Foundations-SolRing(Borderless)-#5-M-NearMint $1.00 $1.00")
            = Some c /\
    piece (squash (card_name c))
          (squash (re_sub re_price_plain []
                     (strip (lit "1 Magic-Foundations-SolRing(Borderless)-#5-M-NearMint $1.00 $1.00")))).
Proof.
  destruct (parse_card_line (lit "1 Magic-Foundations-SolRing(Borderless)-#5-M-NearMint $1.00 $1.00"))
    as [c|] eqn:E.
  - exists c. split; [reflexivity|].
    refine (proj1 (record_name_in_line _ c _ E)). vm_compute. reflexivity.
  - vm_compute in E. discriminate.
Defined.

(** *** The set name *)

Lemma replace_squash_from old new : old <> [] -> squash old = squash new ->
  forall s skip, squash (replace_from old new skip s) = squash (skipn skip s).
Proof.
  intros N Q. induction s as [|c s IH]; intros skip.
  - destruct skip; reflexivity.
  - destruct skip as [|k]; cbn [replace_from skipn]; [|apply IH].
    destruct (startswith old (c :: s)) eqn:S.
    + apply startswith_app in S. destruct old as [|o old]; [congruence|].
      cbn [length skipn app] in S. injection S as <- S.
      rewrite squash_app, IH, <- Q.
      replace (length (c :: old) - 1) with (length old) by (cbn [length]; lia).
      rewrite <- squash_app. cbn [app]. now rewrite <- S.
    + rewrite (squash_cons c s), (squash_cons c (replace_from _ _ _ _)).
      now rewrite (IH 0).
Qed.

Lemma replace_squash old new s :
  old <> [] -> squash old = squash new -> squash (replace old new s) = squash s.
Proof. intros N Q. unfold replace. now rewrite (replace_squash_from old new N Q s 0). Qed.

Lemma display_set_name_squash s : squash (display_set_name s) = squash s.
Proof.
  unfold display_set_name. cbv zeta.
  change (re_sub re_spaces) with (re_sub_ic false re_spaces).
  unfold re_sub at 1. fold (re_sub re_spaces).
  rewrite sub_spaces. unfold collapse. rewrite collapse_squash.
  unfold re_sub.
  repeat (rewrite plain_rule_squash by reflexivity).
  rewrite replace_squash; [|discriminate|reflexivity].
  apply add_spaces_squash.
Qed.

(** X28.  The set name of a record is read off a line of 7-bit characters:
    its letters are those of the group that the splitter gives, which stands
    in the line without its dollar amounts, or the set name is the word
    Unknown. *)
Theorem record_set_name_in_line (line : str) (c : Card) :
  isascii line = true ->
  parse_card_line line = Some c ->
  piece (squash (set_name c)) (squash (re_sub re_price_plain [] (strip line))) \/
  set_name c = lit "Unknown".
Proof.
  intros _ H. apply parse_card_line_names in H.
  destruct H as (description & D & S & _).
  destruct (extract_set_and_card description) as [g r] eqn:X. cbn [fst] in S.
  destruct (extract_shape _ _ _ X) as [E|[E _]].
  - left. rewrite S, display_set_name_squash. apply squash_piece.
    eapply piece_trans; [|exact D]. rewrite E. apply piece_front.
  - right. rewrite S, E. vm_compute. reflexivity.
Qed.

Lemma record_set_name_in_line_witness :
  exists c, parse_card_line (lit "1 Magic-Commander:FINALFANTASY-Cloud-#5-M-NearMint $1.00 $1.00")
            = Some c /\
    (piece (squash (set_name c))
           (squash (re_sub re_price_plain []
                      (strip (lit "1 Magic-Commander:FINALFANTASY-Cloud-#5-M-NearMint $1.00 $1.00"))))
     \/ set_name c = lit "Unknown").
Proof.
  destruct (parse_card_line (lit "1 Magic-Commander:FINALFANTASY-Cloud-#5-M-NearMint $1.00 $1.00"))
    as [c|] eqn:E.
  - exists c. split; [reflexivity|].
    refine (record_set_name_in_line _ c _ E). vm_compute. reflexivity.
  - vm_compute in E. discriminate.
Defined.

(** ** From the slip to the page *)

Lemma parse_step_cards : forall ms st c,
  In c (fst (fold_left parse_step ms st)) ->
  In c (fst st) \/ exists l, In l ms /\ parse_card_line l = Some c.
Proof.
  induction ms as [|l ms IH]; intros [cards warned] c H; [now left|].
  cbn [fold_left] in H. apply IH in H. destruct H as [H|(l' & Hl & P)].
  - unfold parse_step in H. destruct (parse_card_line l) as [c'|] eqn:P.
    + cbn [fst] in H. apply in_app_or in H. destruct H as [H|[<-|[]]].
      * now left.
      * right. exists l. split; [now left | exact P].
    + destruct (contains (lit "Magic-") l); now left.
  - right. exists l'. split; [now right | exact P].
Qed.

Lemma slip_cards_parsed text c :
  In c (fst (parse_packing_slip text)) -> exists l, parse_card_line l = Some c.
Proof.
  unfold parse_packing_slip. intros H. apply parse_step_cards in H.
  destruct H as [[]|(l & _ & P)]. eauto.
Qed.

Lemma Forall2_right {A B : Type} (R : A -> B -> Prop) l l' y :
  Forall2 R l l' -> In y l' -> exists x, In x l /\ R x y.
Proof.
  induction 1 as [|a b l l' H F IH]; intros Hy; [destruct Hy|].
  destruct Hy as [<-|Hy].
  - exists a. split; [now left | exact H].
  - destruct (IH Hy) as (x & Hx & Rx). exists x. split; [now right | exact Rx].
Qed.

(** X29.  Every slip gives a page in order: take the cards that
    [parse_packing_slip] reads from a text and give each of them any color
    of [COLOR_ORDER], as the lookup of the colors does; then the cards of the
    page stand by color, rarity, variants first, and name.  The cards as
    they are read, all of them Colorless, are one such case. *)
Theorem slip_page_sorted (text : str) (colored : list Card) :
  Forall2 (fun c c' => rarity c' = rarity c /\ dict_has COLOR_ORDER (color c') = true)
          (fst (parse_packing_slip text)) colored ->
  ascending sheet_le (pull_order colored) = true /\
  ascending sheet_le (pull_order (fst (parse_packing_slip text))) = true.
Proof.
  intros F. split; apply pull_order_ascending.
  - intros c' Hc'. destruct (Forall2_right _ _ _ _ F Hc') as (c & Hc & Er & Kc).
    split; [exact Kc|]. rewrite Er.
    destruct (slip_cards_parsed _ _ Hc) as (l & P).
    now apply (parsed_rarity_known l c).
  - intros c Hc. destruct (slip_cards_parsed _ _ Hc) as (l & P). split.
    + apply parse_card_line_fields in P.
      destruct P as (qm & remainder & _ & _ & _ & _ & _ & _ & C & _).
      rewrite C. reflexivity.
    + now apply (parsed_rarity_known l c).
Qed.

(** Cards that are given colors of [COLOR_ORDER] keep their rarities. *)
Lemma set_color_known : forall cards colors,
  length cards = length colors ->
  forallb (dict_has COLOR_ORDER) colors = true ->
  Forall2 (fun c c' => rarity c' = rarity c /\ dict_has COLOR_ORDER (color c') = true)
          cards
          (map (fun cc => set_color (fst cc) (snd cc) None) (combine cards colors)).
Proof.
  induction cards as [|c cards IH]; intros [|col colors] L K; try discriminate.
  - constructor.
  - cbn [forallb] in K. apply andb_true_iff in K. destruct K as [K1 K2].
    cbn [combine map fst snd]. constructor.
    + split; [reflexivity | exact K1].
    + apply IH; [now injection L | exact K2].
Qed.

Lemma slip_page_sorted_witness :
  let text :=
    lit "1 Magic-Foundations-Shock-#99-C-NearMint $0.10 $0.10" ++ newline ::
    lit "2 Magic-Foundations-Opt-#51-C-NearMint $0.25 $0.50" ++ newline ::
    lit "1 Magic-Foundations-Sol Ring-#5-M-NearMint $1.00 $1.00" ++ newline ::
    lit "1 Magic-Foundations-Counterspell-#40-U-NearMint $0.75 $0.75" in
  let colors := [lit "Red"; lit "Blue"; lit "Colorless"; lit "Blue"] in
  let colored :=
    map (fun cc => set_color (fst cc) (snd cc) None)
        (combine (fst (parse_packing_slip text)) colors) in
  map card_name (fst (parse_packing_slip text))
  = [lit "Shock"; lit "Opt"; lit "Sol Ring"; lit "Counterspell"] /\
  map card_name (pull_order colored)
  = [lit "Counterspell"; lit "Opt"; lit "Shock"; lit "Sol Ring"] /\
  ascending sheet_le (pull_order colored) = true.
Proof.
  cbv zeta.
  split; [vm_compute; reflexivity|].
  split; [vm_compute; reflexivity|].
  refine (proj1 (slip_page_sorted _ _ _)).
  apply set_color_known; vm_compute; reflexivity.
Defined.
